(** * see: a cat/grep/tail viewer for text and logs

    A shallow embedding of [main.go]: the renderer ([colorizeStructured],
    [colorizeGeneric], [renderLine]), the first-N / last-N selections
    ([printFirstNFiltered], [printLastNFiltered]), the initial phase of
    [see] and the drain step of follow mode ([readNew]), the command line
    of [main], [colorEnabled] and the event loop of follow mode, together
    with the properties of these functions.

    Go strings and byte slices are lists of bytes ([list ascii]); [int64]
    file offsets are [Z]; slice indexes and lengths are [nat].  Printing
    is modelled by the list of lines handed to [fmt.Println]. *)

From Stdlib Require Import Ascii String.
From Stdlib Require Import List ZArith Lia Bool Arith.
Import ListNotations.

Set Implicit Arguments.

(** ** Bytes and slices *)

Definition bytes := list ascii.

(** A Go string literal. *)
Definition lit (s : string) : bytes := list_ascii_of_string s.

Definition NL : ascii := "010"%char.
Definition CR : ascii := "013"%char.
Definition ESC : ascii := "027"%char.
Definition DQUOTE : ascii := "034"%char.
Definition SQUOTE : ascii := "039"%char.
Definition BACKSLASH : ascii := "092"%char.

(** [s[lo:hi]]; the callers below only slice within bounds, where Go does
    not panic. *)
Definition slice (s : bytes) (lo hi : nat) : bytes := firstn (hi - lo) (skipn lo s).

Definition code (c : ascii) : nat := nat_of_ascii c.

Definition inRange (lo hi : ascii) (c : ascii) : bool :=
  (code lo <=? code c) && (code c <=? code hi).

Definition isByte (a c : ascii) : bool := Ascii.eqb a c.

Fixpoint bytes_eqb (x y : bytes) : bool :=
  match x, y with
  | [], [] => true
  | a :: x', c :: y' => Ascii.eqb a c && bytes_eqb x' y'
  | _, _ => false
  end.

Fixpoint hasPrefix (s p : bytes) {struct p} : bool :=
  match p, s with
  | [], _ => true
  | a :: p', c :: s' => Ascii.eqb a c && hasPrefix s' p'
  | _ :: _, [] => false
  end.

(** ** Go's [regexp] package

    The package is not part of the repository.  A compiled expression is
    modelled by its syntax tree and a backtracking matcher with Go's
    leftmost-first preference (the first alternative and the longest
    repetition are tried first); the patterns of [main.go] are written as
    trees next to their source text.  Classes test single bytes, which is
    what every pattern of [main.go] needs. *)

Inductive regex : Type :=
| Empty
| Class (p : ascii -> bool)
| Cat (r1 r2 : regex)
| Alt (r1 r2 : regex)
| Star (r : regex)
| BeginText
| WordBoundary
| Capture (i : nat) (r : regex).

Definition captures := list (nat * (nat * nat)).

Definition isWordChar (c : ascii) : bool :=
  inRange "0" "9" c || inRange "A" "Z" c || inRange "a" "z" c || isByte "_" c.

Definition isSpace (c : ascii) : bool :=
  isByte "009" c || isByte "010" c || isByte "012" c || isByte "013" c || isByte " " c.

Definition isDigit (c : ascii) : bool := inRange "0" "9" c.

Definition isLetter (c : ascii) : bool := inRange "A" "Z" c || inRange "a" "z" c.

Section Exec.
Variable s : bytes.

Definition isWordAt (i : nat) : bool :=
  match nth_error s i with
  | Some c => isWordChar c
  | None => false
  end.

(** [\b]: exactly one side of position [i] is a word byte. *)
Definition atWordBoundary (i : nat) : bool :=
  xorb (match i with O => false | S j => isWordAt j end) (isWordAt i).

Section Step.
Variable A : Type.

(** The greedy loop of [r*]: another round of [body] as long as a round
    consumes something, else on with [k].  At most [length s - i] rounds
    can consume a byte, and [n] starts above that. *)
Fixpoint starLoop (body : nat -> captures -> (nat -> captures -> option A) -> option A)
         (k : nat -> captures -> option A)
         (n : nat) (i : nat) (caps : captures) {struct n} : option A :=
  match n with
  | O => k i caps
  | S n' =>
      match body i caps (fun j c => if i <? j then starLoop body k n' j c else None) with
      | Some a => Some a
      | None => k i caps
      end
  end.

(** [step r i caps k]: match [r] at position [i], then continue with
    [k] at the end position; [None] backtracks. *)
Fixpoint step (r : regex) (i : nat) (caps : captures)
         (k : nat -> captures -> option A) {struct r} : option A :=
  match r with
  | Empty => k i caps
  | Class p =>
      match nth_error s i with
      | Some c => if p c then k (S i) caps else None
      | None => None
      end
  | Cat r1 r2 => step r1 i caps (fun j c => step r2 j c k)
  | Alt r1 r2 =>
      match step r1 i caps k with
      | Some a => Some a
      | None => step r2 i caps k
      end
  | Star r1 => starLoop (step r1) k (S (length s - i)) i caps
  | BeginText => if i =? 0 then k i caps else None
  | WordBoundary => if atWordBoundary i then k i caps else None
  | Capture n r1 => step r1 i caps (fun j c => k j ((n, (i, j)) :: c))
  end.
End Step.

Definition matchAt (r : regex) (i : nat) : option (nat * captures) :=
  step r i [] (fun j c => Some (j, c)).

(** Leftmost match starting at or after [i]; [n] positions remain. *)
Fixpoint search (r : regex) (n : nat) (i : nat) : option (nat * nat * captures) :=
  match matchAt r i with
  | Some (j, c) => Some (i, j, c)
  | None =>
      match n with
      | O => None
      | S n' => search r n' (S i)
      end
  end.
End Exec.

(** A compiled expression, [*regexp.Regexp]: the one primitive every
    method of the package goes through.  [doExecute re s pos] is the
    leftmost match of [re] in [s] at or after [pos], with its submatches. *)
Record Regexp : Type := { doExecute : bytes -> nat -> option (nat * nat * captures) }.

Definition MustCompile (r : regex) : Regexp :=
  {| doExecute := fun s pos =>
       if pos <=? length s then search s r (length s - pos) pos else None |}.

(** What the package guarantees of a match: it lies in the text, at or
    after the position the search started from. *)
Definition exec_ok (re : Regexp) : Prop :=
  forall s pos a0 a1 c,
    doExecute re s pos = Some (a0, a1, c) -> pos <= a0 /\ a0 <= a1 /\ a1 <= length s.

Definition MatchString (re : Regexp) (s : bytes) : bool :=
  match doExecute re s 0 with
  | Some _ => true
  | None => false
  end.

(** [utf8.DecodeRuneInString]'s width: 0 at the end, 1 for ASCII and for
    an invalid encoding, else the length of the encoded rune. *)
Definition isCont (o : option ascii) : bool :=
  match o with
  | Some c => (128 <=? code c) && (code c <=? 191)
  | None => false
  end.

Definition inCodes (lo hi : nat) (o : option ascii) : bool :=
  match o with
  | Some c => (lo <=? code c) && (code c <=? hi)
  | None => false
  end.

Definition runeWidth (s : bytes) : nat :=
  match s with
  | [] => 0
  | c0 :: t =>
      let n0 := code c0 in
      let b1 := nth_error t 0 in
      let b2 := nth_error t 1 in
      let b3 := nth_error t 2 in
      if n0 <? 128 then 1
      else if (194 <=? n0) && (n0 <=? 223) then (if isCont b1 then 2 else 1)
      else if (224 <=? n0) && (n0 <=? 239) then
        let lo := if n0 =? 224 then 160 else 128 in
        let hi := if n0 =? 237 then 159 else 191 in
        if inCodes lo hi b1 && isCont b2 then 3 else 1
      else if (240 <=? n0) && (n0 <=? 244) then
        let lo := if n0 =? 240 then 144 else 128 in
        let hi := if n0 =? 244 then 143 else 191 in
        if inCodes lo hi b1 && isCont b2 && isCont b3 then 4 else 1
      else 1
  end.

(** [allMatches], the loop behind [FindAllStringIndex(s, -1)].  [fuel]
    bounds the iterations: [pos] grows in each of them. *)
Fixpoint allMatches (re : Regexp) (s : bytes) (fuel : nat)
         (pos : nat) (prevMatchEnd : option nat) : list (nat * nat) :=
  match fuel with
  | O => []
  | S fuel' =>
      if pos <=? length s then
        match doExecute re s pos with
        | None => []
        | Some (m0, m1, _) =>
            let accept :=
              negb ((m1 =? pos) &&
                    match prevMatchEnd with Some p => m0 =? p | None => false end) in
            let pos' :=
              if m1 =? pos then
                let width := runeWidth (skipn pos s) in
                if 0 <? width then pos + width else length s + 1
              else m1 in
            let rest := allMatches re s fuel' pos' (Some m1) in
            if accept then (m0, m1) :: rest else rest
        end
      else []
  end.

Definition FindAllStringIndex (re : Regexp) (s : bytes) : list (nat * nat) :=
  allMatches re s (length s + 2) 0 None.

(** [replaceAll], the loop behind [ReplaceAllStringFunc] and
    [ReplaceAllString]; [repl] receives the match and its submatches. *)
Fixpoint replaceAll (re : Regexp) (src : bytes) (repl : nat * nat * captures -> bytes)
         (fuel : nat) (lastMatchEnd searchPos : nat) (buf : bytes) : bytes :=
  match fuel with
  | O => buf ++ skipn lastMatchEnd src
  | S fuel' =>
      if searchPos <=? length src then
        match doExecute re src searchPos with
        | None => buf ++ skipn lastMatchEnd src
        | Some (a0, a1, c) =>
            let buf1 := buf ++ slice src lastMatchEnd a0 in
            let buf2 :=
              if (lastMatchEnd <? a1) || (a0 =? 0) then buf1 ++ repl (a0, a1, c)
              else buf1 in
            let width := runeWidth (skipn searchPos src) in
            let searchPos' :=
              if a1 <? searchPos + width then searchPos + width
              else if a1 <? searchPos + 1 then searchPos + 1
              else a1 in
            replaceAll re src repl fuel' a1 searchPos' buf2
        end
      else buf ++ skipn lastMatchEnd src
  end.

Definition ReplaceAllStringFunc (re : Regexp) (src : bytes) (f : bytes -> bytes) : bytes :=
  replaceAll re src (fun m => let '(a0, a1, _) := m in f (slice src a0 a1))
             (length src + 2) 0 0 [].

(** A replacement template, as [Regexp.expand] reads it: literal text and
    [$n] references. *)
Inductive tmpl : Type :=
| TLit (t : bytes)
| TSub (n : nat).

Fixpoint lookupCap (n : nat) (c : captures) : option (nat * nat) :=
  match c with
  | [] => None
  | (m, span) :: c' => if m =? n then Some span else lookupCap n c'
  end.

Definition expand (src : bytes) (t : list tmpl) (m : nat * nat * captures) : bytes :=
  let '(a0, a1, c) := m in
  concat (map (fun x =>
                 match x with
                 | TLit l => l
                 | TSub O => slice src a0 a1
                 | TSub n =>
                     match lookupCap n c with
                     | Some (lo, hi) => slice src lo hi
                     | None => []
                     end
                 end) t).

Definition ReplaceAllString (re : Regexp) (src : bytes) (t : list tmpl) : bytes :=
  replaceAll re src (expand src t) (length src + 2) 0 0 [].

(** [strings.IndexByte], [strings.LastIndexByte]: [None] is Go's [-1]. *)
Fixpoint IndexByte (s : bytes) (c : ascii) : option nat :=
  match s with
  | [] => None
  | a :: s' =>
      if Ascii.eqb a c then Some 0
      else match IndexByte s' c with
           | Some i => Some (S i)
           | None => None
           end
  end.

Fixpoint LastIndexByte (s : bytes) (c : ascii) : option nat :=
  match s with
  | [] => None
  | a :: s' =>
      match LastIndexByte s' c with
      | Some i => Some (S i)
      | None => if Ascii.eqb a c then Some 0 else None
      end
  end.

(** [strings.NewReplacer(pairs...).Replace]: at each position the first
    pair, in argument order, whose old string starts there is replaced;
    every old string of [main.go] is non-empty. *)
Fixpoint firstPair (pairs : list (bytes * bytes)) (s : bytes) : option (bytes * bytes) :=
  match pairs with
  | [] => None
  | (old, new) :: rest => if hasPrefix s old then Some (old, new) else firstPair rest s
  end.

Fixpoint replacerFrom (fuel : nat) (pairs : list (bytes * bytes)) (s : bytes) : bytes :=
  match fuel, s with
  | _, [] => []
  | O, _ => s
  | S fuel', c :: s' =>
      match firstPair pairs s with
      | Some (old, new) => new ++ replacerFrom fuel' pairs (skipn (length old) s)
      | None => c :: replacerFrom fuel' pairs s'
      end
  end.

Definition Replace (pairs : list (bytes * bytes)) (s : bytes) : bytes :=
  replacerFrom (length s) pairs s.

(** [strings.ToUpper] on ASCII letters. *)
Definition upper (c : ascii) : ascii :=
  if inRange "a" "z" c then ascii_of_nat (code c - 32) else c.

Definition lower (c : ascii) : ascii :=
  if inRange "A" "Z" c then ascii_of_nat (code c + 32) else c.

Definition ToUpper (s : bytes) : bytes := map upper s.

(** ** Pattern syntax *)

Definition Chr (c : ascii) : regex := Class (isByte c).

Fixpoint Seq (rs : list regex) : regex :=
  match rs with
  | [] => Empty
  | [r] => r
  | r :: rs' => Cat r (Seq rs')
  end.

Fixpoint Alts (rs : list regex) : regex :=
  match rs with
  | [] => Empty
  | [r] => r
  | r :: rs' => Alt r (Alts rs')
  end.

Definition Str (s : string) : regex := Seq (map Chr (lit s)).

(** A literal under [(?i)]: each letter matches in both cases. *)
Definition StrFold (s : string) : regex :=
  Seq (map (fun a => Class (fun c => isByte (lower a) (lower c))) (lit s)).

Definition Plus (r : regex) : regex := Cat r (Star r).
Definition Quest (r : regex) : regex := Alt r Empty.

(** [r{n}] *)
Fixpoint Rep (n : nat) (r : regex) : regex :=
  match n with
  | O => Empty
  | S O => r
  | S n' => Cat r (Rep n' r)
  end.

(** [r{0,k}], as Go simplifies it: [(r(r(r)?)?)?] *)
Fixpoint UpTo (k : nat) (r : regex) : regex :=
  match k with
  | O => Empty
  | S O => Quest r
  | S k' => Quest (Cat r (UpTo k' r))
  end.

(** [r{n,m}] *)
Definition RepRange (n m : nat) (r : regex) : regex :=
  match m - n with
  | O => Rep n r
  | k => Cat (Rep n r) (UpTo k r)
  end.

Definition Digit : regex := Class isDigit.
Definition Space : regex := Class isSpace.

(** ** Coloring helpers *)

Definition ansiReset : bytes := ESC :: lit "[0m".
Definition ansiDim : bytes := ESC :: lit "[2m".
Definition ansiBold : bytes := ESC :: lit "[1m".
Definition ansiRed : bytes := ESC :: lit "[31m".
Definition ansiGreen : bytes := ESC :: lit "[32m".
Definition ansiYellow : bytes := ESC :: lit "[33m".
Definition ansiBlue : bytes := ESC :: lit "[34m".
Definition ansiMagenta : bytes := ESC :: lit "[35m".
Definition ansiCyan : bytes := ESC :: lit "[36m".

(** [\b(?:\d{4}-\d{2}-\d{2}[T\s]\d{2}:\d{2}:\d{2}(?:\.\d+)?Z?|[A-Z][a-z]{2}\s+\d{1,2}\s+\d{2}:\d{2}:\d{2})\b] *)
Definition hms : regex :=
  Seq [Rep 2 Digit; Chr ":"; Rep 2 Digit; Chr ":"; Rep 2 Digit].

Definition patTS : regex :=
  Seq [WordBoundary;
       Alt (Seq [Rep 4 Digit; Chr "-"; Rep 2 Digit; Chr "-"; Rep 2 Digit;
                 Class (fun c => isByte "T" c || isSpace c);
                 hms;
                 Quest (Cat (Chr ".") (Plus Digit));
                 Quest (Chr "Z")])
           (Seq [Class (inRange "A" "Z"); Rep 2 (Class (inRange "a" "z"));
                 Plus Space; RepRange 1 2 Digit; Plus Space; hms]);
       WordBoundary].

Definition reTS : Regexp := MustCompile patTS.

(** [(?i)\b(debug|info|warn|warning|error|err|crit|fatal|fail)\b] *)
Definition patLvl : regex :=
  Seq [WordBoundary;
       Capture 1 (Alts (map StrFold
         ["debug"; "info"; "warn"; "warning"; "error"; "err"; "crit"; "fatal"; "fail"]%string));
       WordBoundary].

Definition reLvl : Regexp := MustCompile patLvl.

(** [\bhttps?://[^\s]+] *)
Definition notSpace (c : ascii) : bool := negb (isSpace c).

Definition patURL : regex :=
  Seq [WordBoundary; Str "http"; Quest (Chr "s"); Str "://"; Plus (Class notSpace)].

Definition reURL : Regexp := MustCompile patURL.

(** [\b(?:\d{1,3}\.){3}\d{1,3}\b] *)
Definition patIP : regex :=
  Seq [WordBoundary; Rep 3 (Cat (RepRange 1 3 Digit) (Chr "."));
       RepRange 1 3 Digit; WordBoundary].

Definition reIP : Regexp := MustCompile patIP.

(** [(?:^|[\sQ'])/[\w./\-\+@%~]+], where Q stands for the double quote *)
Definition isPathByte (c : ascii) : bool :=
  isWordChar c || isByte "." c || isByte "/" c || isByte "-" c || isByte "+" c
  || isByte "@" c || isByte "%" c || isByte "~" c.

Definition isSpaceOrQuote (c : ascii) : bool :=
  isSpace c || isByte DQUOTE c || isByte SQUOTE c.

Definition patPath : regex :=
  Seq [Alt BeginText (Class isSpaceOrQuote); Chr "/"; Plus (Class isPathByte)].

Definition rePath : Regexp := MustCompile patPath.

(** [\b\d+\b] *)
Definition patNum : regex := Seq [WordBoundary; Plus Digit; WordBoundary].

Definition reNum : Regexp := MustCompile patNum.

(** [^\s*[\{\[]] *)
Definition reJSONLine : Regexp :=
  MustCompile (Seq [BeginText; Star Space; Class (fun c => isByte "{" c || isByte "[" c)]).

(** [Q([^Q\\]|\\.)*Q\s*:], where Q stands for the double quote *)
Definition reJSONKey : Regexp :=
  MustCompile
    (Seq [Chr DQUOTE;
          Star (Capture 1
                  (Alt (Class (fun c => negb (isByte DQUOTE c || isByte BACKSLASH c)))
                       (Cat (Chr BACKSLASH) (Class (fun c => negb (isByte NL c))))));
          Chr DQUOTE; Star Space; Chr ":"]).

(** The pattern of [reYAMLKey]: at the start of the text, group 1 is
    [\s*], group 2 is [[A-Za-z0-9_.-]+], then [\s*:] follows. *)
Definition isYAMLKeyByte (c : ascii) : bool :=
  inRange "A" "Z" c || inRange "a" "z" c || inRange "0" "9" c
  || isByte "_" c || isByte "." c || isByte "-" c.

Definition reYAMLKey : Regexp :=
  MustCompile
    (Seq [BeginText; Capture 1 (Star Space); Capture 2 (Plus (Class isYAMLKeyByte));
          Star Space; Chr ":"]).

(** The function literal handed to [reJSONKey.ReplaceAllStringFunc]. *)
Definition colorJSONKey (s : bytes) : bytes :=
  match IndexByte s DQUOTE, LastIndexByte s DQUOTE with
  | Some i, Some j =>
      if j <=? i then s
      else firstn (i + 1) s ++ ansiGreen ++ slice s (i + 1) j ++ ansiReset ++ skipn j s
  | _, _ => s
  end.

Definition punctuation : list (bytes * bytes) :=
  [ (lit "{", ansiDim ++ lit "{" ++ ansiReset);
    (lit "}", ansiDim ++ lit "}" ++ ansiReset);
    (lit "[", ansiDim ++ lit "[" ++ ansiReset);
    (lit "]", ansiDim ++ lit "]" ++ ansiReset);
    (lit ",", ansiDim ++ lit "," ++ ansiReset);
    (lit ": ", ansiDim ++ lit ": " ++ ansiReset) ].

Definition colorizeStructured (seg : bytes) (enable : bool) : bytes :=
  if negb enable then seg
  else
    let seg := ReplaceAllStringFunc reJSONKey seg colorJSONKey in
    let seg := ReplaceAllString reYAMLKey seg
                 [TSub 1; TLit ansiBlue; TSub 2; TLit ansiReset; TLit (lit ":")] in
    Replace punctuation seg.

(** The [switch] of the level pass. *)
Definition colorLevel (s : bytes) : bytes :=
  let u := ToUpper s in
  if bytes_eqb u (lit "DEBUG") then ansiBlue ++ s ++ ansiReset
  else if bytes_eqb u (lit "INFO") then ansiGreen ++ s ++ ansiReset
  else if bytes_eqb u (lit "WARN") || bytes_eqb u (lit "WARNING")
       then ansiYellow ++ s ++ ansiReset
  else if bytes_eqb u (lit "ERROR") || bytes_eqb u (lit "ERR") || bytes_eqb u (lit "CRIT")
          || bytes_eqb u (lit "FATAL") || bytes_eqb u (lit "FAIL")
       then ansiRed ++ s ++ ansiReset
  else s.

Definition wrap (color : bytes) (s : bytes) : bytes := color ++ s ++ ansiReset.

Definition colorizeGeneric (seg : bytes) (enable : bool) : bytes :=
  if negb enable then seg
  else
    let seg :=
      if MatchString reJSONLine seg || MatchString reYAMLKey seg
      then colorizeStructured seg enable else seg in
    let seg := ReplaceAllStringFunc reTS seg (wrap ansiDim) in
    let seg := ReplaceAllStringFunc reURL seg (wrap ansiMagenta) in
    let seg := ReplaceAllStringFunc reIP seg (wrap ansiCyan) in
    let seg := ReplaceAllStringFunc rePath seg (wrap ansiMagenta) in
    let seg := ReplaceAllStringFunc reLvl seg colorLevel in
    let seg := ReplaceAllStringFunc reNum seg (wrap ansiBold) in
    seg.

(** The body of the [for _, span := range idxs] loop: [out] and [last]
    are the loop's variables. *)
Definition renderSpan (raw : bytes) (enable : bool)
           (acc : bytes * nat) (span : nat * nat) : bytes * nat :=
  let '(out, last) := acc in
  let '(s, e) := span in
  let out := if last <? s then out ++ colorizeGeneric (slice raw last s) enable else out in
  let out := out ++ ansiCyan in
  let out := out ++ slice raw s e in
  let out := out ++ ansiReset in
  (out, e).

Definition renderLine (raw : bytes) (filter : option Regexp) (enable : bool) : bytes :=
  match filter with
  | None => colorizeGeneric raw enable
  | Some re =>
      if negb enable then colorizeGeneric raw enable
      else
        match FindAllStringIndex re raw with
        | [] => colorizeGeneric raw enable
        | idxs =>
            let '(out, last) := fold_left (renderSpan raw enable) idxs ([], 0) in
            if last <? length raw
            then out ++ colorizeGeneric (skipn last raw) enable
            else out
        end
  end.

(** ** Reading a file line by line: [bufio.Scanner]

    An opened file, read sequentially: the bytes it delivers, and whether
    the read after them fails (with an error other than [io.EOF]). *)

Record File : Type := { data : bytes; readFails : bool }.

Inductive error : Type :=
| ErrTooLong   (* bufio.ErrTooLong *)
| ErrRead      (* a read error other than io.EOF *)
| ErrOpen.     (* os.Open failed *)

(** [sc.Buffer(buf, max)] with [max = 1024 * 1024]. *)
Definition maxTokenSize : Z := 1024 * 1024.

(** [dropCR] of [bufio.ScanLines]. *)
Definition dropCR (l : bytes) : bytes :=
  match rev l with
  | c :: r => if Ascii.eqb c CR then rev r else l
  | [] => l
  end.

(** The lines [sc.Scan()] yields over [d], and the error that stops the
    scan, if any.  A line whose bytes fill the buffer before its
    terminator is found stops the scan with [ErrTooLong]; after a failed
    read the buffered bytes are still split, as at the end of input. *)
Fixpoint scanFrom (fuel : nat) (d : bytes) (readFails : bool) : list bytes * option error :=
  match fuel, d with
  | _, [] => ([], if readFails then Some ErrRead else None)
  | O, _ => ([], None)
  | S fuel', _ :: _ =>
      match IndexByte d NL with
      | Some i =>
          if (Z.of_nat i <? maxTokenSize)%Z then
            let '(ls, e) := scanFrom fuel' (skipn (i + 1) d) readFails in
            (dropCR (firstn i d) :: ls, e)
          else ([], Some ErrTooLong)
      | None =>
          if (Z.of_nat (length d) <? maxTokenSize)%Z
          then ([dropCR d], if readFails then Some ErrRead else None)
          else ([], Some ErrTooLong)
      end
  end.

Definition scan (f : File) : list bytes * option error :=
  scanFrom (length (data f)) (data f) (readFails f).

(** ** Selections *)

(** [rx == nil || rx.MatchString(s)] *)
Definition selected (rx : option Regexp) (s : bytes) : bool :=
  match rx with
  | None => true
  | Some re => MatchString re s
  end.

(** The lines [sc.Scan()] yields, each with the error the scanner holds
    once it has yielded the line, which is what [sc.Err()] returns after a
    [break] there.  A terminated line is cut from the bytes already read,
    before any further read is tried; the unterminated last line is only
    yielded after the read that follows the last byte, so that a failure
    of that read is held by the time the line is returned. *)
Fixpoint yieldsFrom (fuel : nat) (d : bytes) (readFails : bool)
  : list (bytes * option error) :=
  match fuel, d with
  | _, [] => []
  | O, _ => []
  | S fuel', _ :: _ =>
      match IndexByte d NL with
      | Some i =>
          if (Z.of_nat i <? maxTokenSize)%Z then
            (dropCR (firstn i d), None) :: yieldsFrom fuel' (skipn (i + 1) d) readFails
          else []
      | None =>
          if (Z.of_nat (length d) <? maxTokenSize)%Z
          then [(dropCR d, if readFails then Some ErrRead else None)]
          else []
      end
  end.

Definition yields (f : File) : list (bytes * option error) :=
  yieldsFrom (length (data f)) (data f) (readFails f).

(** The [for sc.Scan()] loop of [printFirstNFiltered] over the yielded
    lines; [err] is the error of a scan that runs to its end.  After
    [break] the scanner is not asked again: [sc.Err()] is the error held
    at the line just printed, and an error further on is never seen. *)
Fixpoint firstNLoop (rx : option Regexp) (enableColor : bool) (n : Z)
         (lines : list (bytes * option error)) (err : option error)
         (count : Z) (out : list bytes) : list bytes * Z * option error :=
  match lines with
  | [] => (out, count, err)
  | (s, held) :: rest =>
      if selected rx s then
        let out := out ++ [renderLine s rx enableColor] in
        let count := (count + 1)%Z in
        if (count >=? n)%Z then (out, count, held)
        else firstNLoop rx enableColor n rest err count out
      else firstNLoop rx enableColor n rest err count out
  end.

(** The printed lines, the returned count and the returned error. *)
Definition printFirstNFiltered (path : option File) (rx : option Regexp)
           (n : Z) (enableColor : bool) : list bytes * Z * option error :=
  match path with
  | None => ([], 0%Z, Some ErrOpen)
  | Some f => firstNLoop rx enableColor n (yields f) (snd (scan f)) 0%Z []
  end.

(** [ring[idx] = s] *)
Fixpoint setIndex (ring : list bytes) (idx : nat) (s : bytes) : list bytes :=
  match ring, idx with
  | [], _ => []
  | _ :: t, O => s :: t
  | a :: t, S j => a :: setIndex t j s
  end.

(** The loop variables of [printLastNFiltered]. *)
Record ringState : Type := { ring : list bytes; size : nat; idx : nat }.

Definition ringPut (rx : option Regexp) (n : nat) (st : ringState) (s : bytes) : ringState :=
  if selected rx s then
    {| ring := setIndex (ring st) (idx st) s;
       idx := (idx st + 1) mod n;
       size := if size st <? n then size st + 1 else size st |}
  else st.

(** The entries the print loop visits, oldest first: it starts at 0
    while the ring is not full and at the write cursor once it is. *)
Definition ringRead (n : nat) (st : ringState) : list bytes :=
  let start := if size st =? n then idx st else 0 in
  map (fun i => nth ((start + i) mod n) (ring st) []) (seq 0 (size st)).

Definition ringInit (n : nat) : ringState :=
  {| ring := repeat [] n; size := 0; idx := 0 |}.

(** [runtime.maxAlloc] and the size of a string header, with 64-bit
    words and 48 address bits (linux/amd64). *)
Definition maxAlloc : Z := 2 ^ 48.
Definition stringSize : Z := 16.

Section Alloc.
(** Whether the runtime finds the memory for a slice of [n] strings. *)
Variable grant : nat -> bool.

(** [make([]string, n)]: [runtime.makeslice] panics (len out of range)
    when the [n] strings exceed [maxAlloc]; below that the slice is there
    when the runtime finds the memory, and the program dies when it does
    not.  [None] is a call that does not return. *)
Definition makeStrings (n : nat) : option (list bytes) :=
  if (stringSize * Z.of_nat n >? maxAlloc)%Z then None
  else if grant n then Some (repeat [] n)
  else None.

(** [n] is the capacity [make([]string, n)], asked for once the file is
    open and before any line is read; [see] calls with [ne > 0].  With
    [n = 0] the first selected line panics in [ring[idx] = s].  [None] is
    a call that the runtime ends there, nothing printed. *)
Definition printLastNFiltered (path : option File) (rx : option Regexp)
           (n : nat) (enableColor : bool) : option (list bytes * nat * option error) :=
  match path with
  | None => Some ([], 0, Some ErrOpen)
  | Some f =>
      match makeStrings n with
      | None => None
      | Some r =>
          let '(lines, err) := scan f in
          if (n =? 0) && existsb (selected rx) lines then None
          else
            let st := fold_left (ringPut rx n) lines {| ring := r; size := 0; idx := 0 |} in
            match err with
            | Some e => Some ([], 0, Some e)
            | None =>
                Some (map (fun s => renderLine s rx enableColor) (ringRead n st),
                      size st, None)
            end
      end
  end.
End Alloc.

(** ** The initial print phase of [see] *)

(** What the file system shows of the path while [main] and [see] run. *)
Record FS : Type := {
  Stat : option Z;       (* os.Stat: the size, or an error *)
  IsDir : bool;
  Open : option File     (* os.Open *)
}.

Inductive outcome : Type :=
| Fatal (msg : string)                    (* log.Fatalf *)
| Failed (out : list bytes)               (* an error was logged, see returned *)
| Done (out : list bytes)                 (* no follow requested *)
| Tailing (out : list bytes) (offset : Z) (* tail mode entered at offset *)
| Panicked                                (* the runtime ended the program *).

Definition sizeOr (fs : FS) (offset : Z) : Z :=
  match Stat fs with
  | Some sz => sz
  | None => offset
  end.

Definition finish (tailPtr : bool) (out : list bytes) (offset : Z) : outcome :=
  if negb tailPtr then Done out
  else Tailing (out ++ [lit "Entering tail mode (Ctrl+C to stop)..."]) offset.

Section See.
(** [regexp.Compile]; [None] is a pattern that does not compile. *)
Variable Compile : bytes -> option Regexp.
(** [colorEnabled()], decided by the terminal and the environment. *)
Variable colorEnabled : bool.
(** Whether the runtime finds the memory for the ring of the last-N
    selection. *)
Variable grant : nat -> bool.

(** [rx]: [nil] for an empty pattern; the outer [None] is a pattern that
    does not compile. *)
Definition compileFilter (filterPtr : bytes) : option (option Regexp) :=
  match filterPtr with
  | [] => Some None
  | _ => match Compile filterPtr with
         | Some re => Some (Some re)
         | None => None
         end
  end.

(** The [default] case: print all selected lines. *)
Definition printAll (fs : FS) (rx : option Regexp) (tailPtr : bool) : outcome :=
  match Open fs with
  | None => Fatal "Error opening file"
  | Some f =>
      let banner := [lit "Reading existing lines..."] in
      let '(lines, err) := scan f in
      let out := banner ++
                 map (fun line => renderLine line rx colorEnabled)
                     (filter (selected rx) lines) in
      match err with
      | Some _ => Failed out
      | None => finish tailPtr out (Z.of_nat (length (data f)))
      end
  end.

(** The case [ns > 0]. *)
Definition printFirst (fs : FS) (rx : option Regexp) (tailPtr : bool) (ns : Z) : outcome :=
  match printFirstNFiltered (Open fs) rx ns colorEnabled with
  | (out, _, Some _) => Failed out
  | (out, _, None) => finish tailPtr out (sizeOr fs 0%Z)
  end.

(** The case [ne > 0]. *)
Definition printLast (fs : FS) (rx : option Regexp) (tailPtr : bool) (ne : Z) : outcome :=
  match printLastNFiltered grant (Open fs) rx (Z.to_nat ne) colorEnabled with
  | None => Panicked
  | Some (out, _, Some _) => Failed out
  | Some (out, _, None) => finish tailPtr out (sizeOr fs 0%Z)
  end.

Definition see (fs : FS) (filterPtr : bytes) (tailPtr : bool) (ns ne : Z) : outcome :=
  match compileFilter filterPtr with
  | None => Fatal "Invalid regex pattern"
  | Some rx =>
      if (ns >? 0)%Z && (ne >? 0)%Z then Fatal "Use either -ns or -ne, not both"
      else if (ns >? 0)%Z then printFirst fs rx tailPtr ns
      else if (ne >? 0)%Z then printLast fs rx tailPtr ne
      else printAll fs rx tailPtr
  end.

(** [main] once the flags are parsed. *)
Definition main (fs : FS) (filterPtr : bytes) (tailPtr : bool) (ns ne : Z) : outcome :=
  if (ns >? 0)%Z && (ne >? 0)%Z then Fatal "Use either -ns or -ne, not both"
  else
    match Stat fs with
    | None => Fatal "Cannot access file"
    | Some _ =>
        if IsDir fs then Fatal "Expected a file, but got a directory"
        else see fs filterPtr tailPtr ns ne
    end.
End See.

(** ** Follow mode: the drain step [readNew] *)

(** The variables [readNew] closes over. *)
Record FollowState : Type := { offset : Z; carry : bytes }.

(** The error of a positional read. *)
Inductive rerr : Type :=
| ErrNil
| EOF        (* io.EOF *)
| ErrOther.  (* any other error *)

(** A freshly opened handle: [ReadAt want off] gives the bytes read into
    [buf[:want]] at [off] and the error. *)
Record Handle : Type := { ReadAt : Z -> Z -> bytes * rerr }.

(** What one drain sees of the path. *)
Record View : Type := {
  StatSize : option Z;        (* fi.Size(), or the stat error *)
  OpenFile : option Handle    (* os.Open, or its error *)
}.

(** The path [readNew] returned by. *)
Inductive status : Type :=
| StatFailed   (* os.Stat failed *)
| UpToDate     (* cur == offset *)
| OpenFailed   (* os.Open failed *)
| Drained      (* the read loop ran to cur *)
| ReadFailed.  (* the read loop hit an error other than io.EOF *)

Definition chunk : Z := 64 * 1024.

Section Follow.
Variable rx : option Regexp.
Variable enableColor : bool.

(** What one complete line prints. *)
Definition emit (line : bytes) : list bytes :=
  if selected rx line then [renderLine line rx enableColor] else [].

(** The inner [for] loop: cut complete lines off the front of [carry].
    Every round removes at least one byte, so [length carry] rounds are
    enough. *)
Fixpoint emitLines (fuel : nat) (carry : bytes) (out : list bytes) : bytes * list bytes :=
  match fuel with
  | O => (carry, out)
  | S fuel' =>
      match IndexByte carry NL with
      | None => (carry, out)
      | Some nl => emitLines fuel' (skipn (nl + 1) carry) (out ++ emit (firstn nl carry))
      end
  end.

(** The loop [for start < cur].  A round that reads at least one byte
    moves [start] forward, so [cur - start] rounds are enough for those;
    a round that reads nothing and does not break repeats the same read
    for ever: [None]. *)
Fixpoint readLoop (fuel : nat) (f : Handle) (cur start : Z)
         (carry : bytes) (out : list bytes) : option (bytes * list bytes * status) :=
  if (start <? cur)%Z then
    match fuel with
    | O => None
    | S fuel' =>
        let want := (cur - start)%Z in
        let want := if (want >? chunk)%Z then chunk else want in
        let '(buf, e) := ReadAt f want start in
        let n := Z.of_nat (length buf) in
        if (n >? 0)%Z then
          let '(carry, out) := let c := carry ++ buf in emitLines (length c) c out in
          match e with
          | ErrOther => Some (carry, out, ReadFailed)
          | _ => readLoop fuel' f cur (start + n)%Z carry out
          end
        else
          match e with
          | ErrOther => Some (carry, out, ReadFailed)
          | _ => None
          end
    end
  else Some (carry, out, Drained).

Definition readNew (v : View) (st : FollowState) : option (FollowState * list bytes * status) :=
  match StatSize v with
  | None => Some (st, [], StatFailed)
  | Some cur =>
      let st := if (cur <? offset st)%Z then {| offset := 0; carry := [] |} else st in
      if (cur =? offset st)%Z then Some (st, [], UpToDate)
      else
        match OpenFile v with
        | None => Some (st, [], OpenFailed)
        | Some f =>
            match readLoop (Z.to_nat (cur - offset st)) f cur (offset st) (carry st) [] with
            | Some (carry, out, how) => Some ({| offset := cur; carry := carry |}, out, how)
            | None => None
            end
        end
  end.

(** Successive drains, each with its own view of the path. *)
Fixpoint drains (vs : list View) (st : FollowState) : option (FollowState * list bytes) :=
  match vs with
  | [] => Some (st, [])
  | v :: vs' =>
      match readNew v st with
      | Some (st1, out1, _) =>
          match drains vs' st1 with
          | Some (st2, out2) => Some (st2, out1 ++ out2)
          | None => None
          end
      | None => None
      end
  end.
End Follow.

(** A regular file holding [d] that nothing touches during the drain:
    [Stat] reports its length and reads deliver its bytes. *)
Definition fileReadAt (d : bytes) (want off : Z) : bytes * rerr :=
  let got := firstn (Z.to_nat want) (skipn (Z.to_nat off) d) in
  (got, if (Z.of_nat (length got) <? want)%Z then EOF else ErrNil).

Definition onDisk (d : bytes) : View :=
  {| StatSize := Some (Z.of_nat (length d));
     OpenFile := Some {| ReadAt := fileReadAt d |} |}.

(** The file after each of the appends [cs] to a file holding [pre]. *)
Fixpoint appends (pre : bytes) (cs : list bytes) : list View :=
  match cs with
  | [] => []
  | c :: cs' => onDisk (pre ++ c) :: appends (pre ++ c) cs'
  end.

(** ** The command line of [main] *)

(** [strconv.Atoi] where [int] has 64 bits: an optional sign, then one
    or more decimal digits, whose value fits; [None] is an error. *)
Definition maxInt : Z := 9223372036854775807.

Fixpoint digitsValue (s : bytes) (acc : Z) : option Z :=
  match s with
  | [] => Some acc
  | c :: s' =>
      if isDigit c then digitsValue s' (10 * acc + Z.of_nat (code c - 48))%Z else None
  end.

Definition parseDigits (neg : bool) (ds : bytes) : option Z :=
  match ds with
  | [] => None
  | _ =>
      match digitsValue ds 0 with
      | Some v =>
          let v := if neg then (- v)%Z else v in
          if ((- maxInt - 1 <=? v) && (v <=? maxInt))%Z then Some v else None
      | None => None
      end
  end.

Definition Atoi (s : bytes) : option Z :=
  match s with
  | [] => None
  | c :: s' =>
      if isByte "-" c then parseDigits true s'
      else if isByte "+" c then parseDigits false s'
      else parseDigits false s
  end.

(** The flag variables of [main], as [flag.Parse] leaves them. *)
Record Flags : Type := {
  versionFlag : bool;
  filePathPtr : bytes;
  filterPtr : bytes;
  tailPtr : bool;
  nsPtr : Z;
  nePtr : Z
}.

Definition setTail (fl : Flags) : Flags :=
  {| versionFlag := versionFlag fl; filePathPtr := filePathPtr fl;
     filterPtr := filterPtr fl; tailPtr := true; nsPtr := nsPtr fl; nePtr := nePtr fl |}.

Definition setNs (fl : Flags) (v : Z) : Flags :=
  {| versionFlag := versionFlag fl; filePathPtr := filePathPtr fl;
     filterPtr := filterPtr fl; tailPtr := tailPtr fl; nsPtr := v; nePtr := nePtr fl |}.

Definition setNe (fl : Flags) (v : Z) : Flags :=
  {| versionFlag := versionFlag fl; filePathPtr := filePathPtr fl;
     filterPtr := filterPtr fl; tailPtr := tailPtr fl; nsPtr := nsPtr fl; nePtr := v |}.

(** [-ns=N] and [-ne=N]: the count is stored when [N] is a number; the
    token is consumed either way. *)
Definition assigned (set : Flags -> Z -> Flags) (fl : Flags) (tok : bytes) : Flags :=
  match Atoi (skipn 4 tok) with
  | Some v => set fl v
  | None => fl
  end.

(** The post-parse sweep over [flag.Args()]: the slots of the tokens it
    consumes are set to the empty string, the others are left as they
    are.  The loop reads [args[i]] and [args[i+1]] only, and writes no
    slot it has yet to read. *)
Fixpoint sweep (args : list bytes) (fl : Flags) {struct args} : list bytes * Flags :=
  match args with
  | [] => ([], fl)
  | tok :: rest =>
      let consume (fl1 : Flags) :=
        let '(out, fl2) := sweep rest fl1 in ([] :: out, fl2) in
      let keep :=
        let '(out, fl2) := sweep rest fl in (tok :: out, fl2) in
      let ne :=
        if hasPrefix tok (lit "-ne=") then consume (assigned setNe fl tok)
        else
          match rest with
          | next :: rest' =>
              if bytes_eqb tok (lit "-ne") then
                match Atoi next with
                | Some v =>
                    let '(out, fl2) := sweep rest' (setNe fl v) in ([] :: [] :: out, fl2)
                | None => keep
                end
              else keep
          | [] => keep
          end in
      if bytes_eqb tok (lit "-t") || bytes_eqb tok (lit "--t") then consume (setTail fl)
      else if hasPrefix tok (lit "-ns=") then consume (assigned setNs fl tok)
      else
        match rest with
        | next :: rest' =>
            if bytes_eqb tok (lit "-ns") then
              match Atoi next with
              | Some v =>
                  let '(out, fl2) := sweep rest' (setNs fl v) in ([] :: [] :: out, fl2)
              | None => ne
              end
            else ne
        | [] => ne
        end
  end.

Definition isEmpty (a : bytes) : bool :=
  match a with
  | [] => true
  | _ => false
  end.

(** [clean]: the slots that are not empty. *)
Definition clean (args : list bytes) : list bytes :=
  filter (fun a => negb (isEmpty a)) args.

(** The file and the filter, from the flags and the remaining
    arguments; [None] is the fatal error of a missing file. *)
Definition resolve (fl : Flags) (args : list bytes) : option (bytes * bytes) :=
  let filterOr (args : list bytes) :=
    match filterPtr fl, args with
    | [], a :: _ => a
    | f, _ => f
    end in
  match filePathPtr fl, args with
  | [], a :: args' => Some (a, filterOr args')
  | [], [] => None
  | p, _ => Some (p, filterOr args)
  end.

(** ** Whether to color *)

(** The environment and the standard output of the process. *)
Record Env : Type := {
  Getenv : bytes -> bytes;     (* os.Getenv *)
  StdoutMode : option Z        (* fi.Mode() of os.Stdout.Stat(), or its error *)
}.

(** [os.ModeCharDevice] *)
Definition ModeCharDevice : Z := Z.shiftl 1 21.

Definition stdoutIsTTY (env : Env) : bool :=
  match StdoutMode env with
  | None => false
  | Some mode => negb (Z.land mode ModeCharDevice =? 0)%Z
  end.

Definition colorEnabled (env : Env) : bool :=
  if negb (isEmpty (Getenv env (lit "NO_COLOR"))) then false
  else if bytes_eqb (Getenv env (lit "TERM")) (lit "dumb") then false
  else stdoutIsTTY env.

(** ** [main], from the parsed flags and [flag.Args()] *)

Section Main.
Variable Compile : bytes -> option Regexp.
Variable env : Env.
(** The link-time variables [version] and [buildDate]. *)
Variables version buildDate : bytes.
(** What the file system shows of each path. *)
Variable fsOf : bytes -> FS.
(** Whether the runtime finds the memory for the ring of the last-N
    selection. *)
Variable grant : nat -> bool.

Definition mainArgs (fl : Flags) (args : list bytes) : outcome :=
  if versionFlag fl then
    Done [lit "see version " ++ version ++ lit " (built " ++ buildDate ++ lit ")"]
  else
    let '(args, fl) := sweep args fl in
    let args := clean args in
    match resolve fl args with
    | None => Fatal "Please provide a file path either as -file or as first argument"
    | Some (file, pattern) =>
        main Compile (colorEnabled env) grant (fsOf file) pattern (tailPtr fl) (nsPtr fl) (nePtr fl)
    end.
End Main.

(** ** Follow mode: the event loop *)

(** What the [select] of the loop receives.  An event that leads to a
    drain carries what that drain sees of the path. *)
Inductive event : Type :=
| CtxDone                                     (* <-ctx.Done() *)
| FsEvent (name : bytes) (op : Z) (v : View)  (* <-watcher.Events *)
| WatcherError                                (* <-watcher.Errors *)
| Tick (v : View).                            (* <-ticker.C *)

(** The operations of [fsnotify]. *)
Definition opCreate : Z := 1.
Definition opWrite : Z := 2.
Definition opRemove : Z := 4.
Definition opRename : Z := 8.
Definition opChmod : Z := 16.

(** [filepath.Base] where the separator is the slash. *)
Fixpoint dropSlashes (r : bytes) : bytes :=
  match r with
  | c :: r' => if isByte "/" c then dropSlashes r' else r
  | [] => []
  end.

Fixpoint untilSlash (r : bytes) : bytes :=
  match r with
  | c :: r' => if isByte "/" c then [] else c :: untilSlash r'
  | [] => []
  end.

Definition unixBase (path : bytes) : bytes :=
  match path with
  | [] => lit "."
  | _ =>
      match rev (untilSlash (dropSlashes (rev path))) with
      | [] => lit "/"
      | b => b
      end
  end.

Section Tail.
(** [filepath.Base] *)
Variable Base : bytes -> bytes.
Variable rx : option Regexp.
Variable enableColor : bool.

(** The [switch] on [evt.Op]; the second case sleeps before it drains. *)
Definition onEvent (op : Z) (v : View) (st : FollowState)
  : option (FollowState * list bytes * status) :=
  if negb (Z.land op (Z.lor opWrite opChmod) =? 0)%Z then readNew rx enableColor v st
  else if negb (Z.land op (Z.lor (Z.lor opRename opRemove) opCreate) =? 0)%Z
       then readNew rx enableColor v st
       else readNew rx enableColor v st.

(** The [for] loop around the [select]: the state, the lines printed,
    and whether the loop has returned; with no event left it waits. *)
Fixpoint tailLoop (base : bytes) (evs : list event) (st : FollowState) (out : list bytes)
  : option (FollowState * list bytes * bool) :=
  match evs with
  | [] => Some (st, out, false)
  | CtxDone :: _ => Some (st, out ++ [NL :: lit "Shutting down see"], true)
  | FsEvent name op v :: evs' =>
      if negb (bytes_eqb (Base name) base) then tailLoop base evs' st out
      else
        match onEvent op v st with
        | Some (st1, out1, _) => tailLoop base evs' st1 (out ++ out1)
        | None => None
        end
  | WatcherError :: evs' => tailLoop base evs' st out
  | Tick v :: evs' =>
      match readNew rx enableColor v st with
      | Some (st1, out1, _) => tailLoop base evs' st1 (out ++ out1)
      | None => None
      end
  end.

(** [see] from [fsnotify.NewWatcher()] on: [newWatcher] and [added] tell
    whether the watcher could be made and the directory added; [v0] is
    what the first drain sees. *)
Definition follow (filePathPtr : bytes) (newWatcher added : bool) (v0 : View)
           (evs : list event) (offset : Z) : option (FollowState * list bytes * bool) :=
  let st0 := {| offset := offset; carry := [] |} in
  if negb newWatcher then Some (st0, [], true)
  else if negb added then Some (st0, [], true)
  else
    match readNew rx enableColor v0 st0 with
    | Some (st1, out1, _) => tailLoop (Base filePathPtr) evs st1 out1
    | None => None
    end.
End Tail.

(** ** Reference definitions, following the specification's words *)

(** The complete lines of a byte sequence and the unterminated rest. *)
Fixpoint splitLines (cur : bytes) (d : bytes) : list bytes * bytes :=
  match d with
  | [] => ([], cur)
  | c :: d' =>
      if Ascii.eqb c NL
      then let '(ls, r) := splitLines [] d' in (cur :: ls, r)
      else splitLines (cur ++ [c]) d'
  end.

Definition completeLines (d : bytes) : list bytes := fst (splitLines [] d).
Definition fragment (d : bytes) : bytes := snd (splitLines [] d).

(** The last [k] elements. *)
Definition lastn (A : Type) (k : nat) (l : list A) : list A := skipn (length l - k) l.

(** [carry] holds no line terminator. *)
Definition noNL (l : bytes) : Prop := IndexByte l NL = None.

(** What the bytes [x] appended to a followed file holding [pre] come to,
    for a follower at the end of [pre] with [carry0] pending: every line
    that [x] completes is emitted, the unterminated rest is retained. *)
Definition afterAppend (rx : option Regexp) (enableColor : bool)
           (pre carry0 x : bytes) : FollowState * list bytes :=
  match x with
  | [] => ({| offset := Z.of_nat (length pre); carry := carry0 |}, [])
  | _ => ({| offset := Z.of_nat (length (pre ++ x)); carry := fragment (carry0 ++ x) |},
          flat_map (emit rx enableColor) (completeLines (carry0 ++ x)))
  end.

(** The file size observed by the last successful read step, once a
    drain with view [v] has returned by [how]; [seen] is the size the
    read steps before it had observed. *)
Definition lastObserved (v : View) (how : status) (seen : Z) : Z :=
  match how, StatSize v with
  | Drained, Some cur => cur
  | UpToDate, Some cur => cur
  | _, _ => seen
  end.

(** A line cut into alternating segments: text outside the match spans
    and the match spans themselves. *)
Inductive segment : Type :=
| Plain (t : bytes)
| Matched (t : bytes).

Definition segText (g : segment) : bytes :=
  match g with
  | Plain t => t
  | Matched t => t
  end.

Definition plain (t : bytes) : list segment :=
  match t with
  | [] => []
  | _ => [Plain t]
  end.

Fixpoint segments (raw : bytes) (last : nat) (spans : list (nat * nat)) : list segment :=
  match spans with
  | [] => plain (skipn last raw)
  | (s, e) :: rest =>
      plain (slice raw last s) ++ Matched (slice raw s e) :: segments raw e rest
  end.

(** Generic coloring outside the matches, the match color around each
    match, its bytes as they are. *)
Definition renderSegment (enable : bool) (g : segment) : bytes :=
  match g with
  | Plain t => colorizeGeneric t enable
  | Matched t => ansiCyan ++ t ++ ansiReset
  end.

(** A replacement applied to the matches only. *)
Definition applyTo (f : bytes -> bytes) (g : segment) : bytes :=
  match g with
  | Plain t => t
  | Matched t => f t
  end.

(** Spans in left-to-right order, not overlapping, inside the text. *)
Fixpoint spansOK (lo len : nat) (spans : list (nat * nat)) : Prop :=
  match spans with
  | [] => True
  | (s, e) :: rest => lo <= s /\ s <= e /\ e <= len /\ spansOK e len rest
  end.

(** The six passes of [colorizeGeneric] after the structured one, in
    their order. *)
Definition genericPasses : list (Regexp * (bytes -> bytes)) :=
  [ (reTS, wrap ansiDim); (reURL, wrap ansiMagenta); (reIP, wrap ansiCyan);
    (rePath, wrap ansiMagenta); (reLvl, colorLevel); (reNum, wrap ansiBold) ].

(** Removing the highlight markers: every occurrence of a color code or
    of the reset code, from left to right. *)
Definition markers : list bytes :=
  [ansiReset; ansiDim; ansiBold; ansiRed; ansiGreen; ansiYellow; ansiBlue;
   ansiMagenta; ansiCyan].

Definition stripPairs : list (bytes * bytes) := map (fun m => (m, [])) markers.

Definition stripMarkers (s : bytes) : bytes := Replace stripPairs s.

(** What a pattern matches, between two positions of a text, whatever
    the preference among the matches. *)
Inductive Matches (s : bytes) : regex -> nat -> nat -> Prop :=
| MEmpty i : Matches s Empty i i
| MClass p i c : nth_error s i = Some c -> p c = true -> Matches s (Class p) i (S i)
| MCat r1 r2 i j k : Matches s r1 i j -> Matches s r2 j k -> Matches s (Cat r1 r2) i k
| MAltL r1 r2 i j : Matches s r1 i j -> Matches s (Alt r1 r2) i j
| MAltR r1 r2 i j : Matches s r2 i j -> Matches s (Alt r1 r2) i j
| MStarO r i : Matches s (Star r) i i
| MStarS r i j k : Matches s r i j -> Matches s (Star r) j k -> Matches s (Star r) i k
| MBeginText : Matches s BeginText 0 0
| MWordBoundary i : atWordBoundary s i = true -> Matches s WordBoundary i i
| MCapture n r i j : Matches s r i j -> Matches s (Capture n r) i j.

(** Every byte class of a pattern lies within [P]. *)
Fixpoint classesIn (P : ascii -> bool) (r : regex) : Prop :=
  match r with
  | Class p => forall c, p c = true -> P c = true
  | Cat r1 r2 => classesIn P r1 /\ classesIn P r2
  | Alt r1 r2 => classesIn P r1 /\ classesIn P r2
  | Star r1 => classesIn P r1
  | Capture _ r1 => classesIn P r1
  | _ => True
  end.

(** The least number of bytes a pattern consumes. *)
Fixpoint minLen (r : regex) : nat :=
  match r with
  | Class _ => 1
  | Cat r1 r2 => minLen r1 + minLen r2
  | Alt r1 r2 => min (minLen r1) (minLen r2)
  | Capture _ r1 => minLen r1
  | _ => 0
  end.

(** The pattern starts, or ends, with [\b]. *)
Fixpoint startsWithWB (r : regex) : Prop :=
  match r with
  | WordBoundary => True
  | Cat r1 _ => startsWithWB r1
  | _ => False
  end.

Fixpoint endsWithWB (r : regex) : Prop :=
  match r with
  | WordBoundary => True
  | Cat _ r2 => endsWithWB r2
  | _ => False
  end.

(** The first byte a match consumes lies within [F]. *)
Fixpoint firstIn (F : ascii -> bool) (r : regex) : Prop :=
  match r with
  | Class p => forall c, p c = true -> F c = true
  | Cat r1 r2 => firstIn F r1 /\ (minLen r1 = 0 -> firstIn F r2)
  | Alt r1 r2 => firstIn F r1 /\ firstIn F r2
  | Star r1 => firstIn F r1
  | Capture _ r1 => firstIn F r1
  | _ => True
  end.

(** The pattern ends with the greedy repetition of the class [p]. *)
Fixpoint endsGreedy (p : ascii -> bool) (r : regex) : Prop :=
  match r with
  | Cat _ r2 => endsGreedy p r2
  | Star (Class q) => q = p
  | _ => False
  end.

(** Colored text as a sequence of tokens: a byte of the text, or a whole
    marker. *)
Inductive tok : Type :=
| Ch (c : ascii)
| Mk (m : bytes).

Definition tokBytes (t : tok) : bytes :=
  match t with
  | Ch c => [c]
  | Mk m => m
  end.

Definition flat (ts : list tok) : bytes := concat (map tokBytes ts).

Definition tokText (t : tok) : bytes :=
  match t with
  | Ch c => [c]
  | Mk _ => []
  end.

(** The text under the markers. *)
Definition text (ts : list tok) : bytes := concat (map tokText ts).

(** The text holds no escape byte, and every marker is one of the nine
    codes of [main.go]. *)
Definition tokOK (t : tok) : Prop :=
  match t with
  | Ch c => c <> ESC
  | Mk m => In m markers
  end.

(** Position [p] of [flat ts] lies between two tokens. *)
Fixpoint bnd (ts : list tok) (p : nat) : bool :=
  match ts with
  | [] => p =? 0
  | t :: ts' =>
      (p =? 0) || ((length (tokBytes t) <=? p) && bnd ts' (p - length (tokBytes t)))
  end.

(** The tokens before and after a position between two tokens. *)
Fixpoint takeT (ts : list tok) (p : nat) : list tok :=
  match ts with
  | [] => []
  | t :: ts' => if p =? 0 then [] else t :: takeT ts' (p - length (tokBytes t))
  end.

Fixpoint dropT (ts : list tok) (p : nat) : list tok :=
  match ts with
  | [] => []
  | t :: ts' => if p =? 0 then ts else dropT ts' (p - length (tokBytes t))
  end.

(** The true number of selected lines of a file. *)
Definition matchesSeen (rx : option Regexp) (f : File) : nat :=
  length (filter (selected rx) (fst (scan f))).

(** A file of five lines of which the second and the fourth hold an
    [x], and the filter [x]. *)
Definition fiveLines : File :=
  {| data := lit "a" ++ [NL] ++ lit "xb" ++ [NL] ++ lit "c" ++ [NL]
             ++ lit "xd" ++ [NL] ++ lit "e" ++ [NL];
     readFails := false |}.

Definition filterX : option Regexp := Some (MustCompile (Chr "x")).

(** The invariant of [FollowState] as the specification words it. *)
Definition FollowInvariant (st : FollowState) (seen : Z) : Prop :=
  offset st = seen /\ noNL (carry st).

(** ** Reference definitions for the command line, the scan and the event loop *)

(** The lines of a scan that meets no error: the complete lines, then
    the unterminated rest when there is one, each without a closing
    carriage return. *)
Definition lastLine (d : bytes) : list bytes :=
  match fragment d with
  | [] => []
  | r => [r]
  end.

Definition scanLines (d : bytes) : list bytes := map dropCR (completeLines d ++ lastLine d).

(** The views of the drains an event sequence leads to, up to the first
    cancellation, and whether it was cancelled. *)
Fixpoint drainViews (Base : bytes -> bytes) (base : bytes) (evs : list event)
  : list View * bool :=
  match evs with
  | [] => ([], false)
  | CtxDone :: _ => ([], true)
  | FsEvent name _ v :: evs' =>
      let '(vs, stop) := drainViews Base base evs' in
      if bytes_eqb (Base name) base then (v :: vs, stop) else (vs, stop)
  | WatcherError :: evs' => drainViews Base base evs'
  | Tick v :: evs' =>
      let '(vs, stop) := drainViews Base base evs' in (v :: vs, stop)
  end.

(** What the sweep does with one token, given the tokens after it. *)
Inductive action : Type :=
| Consume (fl : Flags)      (* the token is consumed *)
| ConsumeTwo (fl : Flags)   (* the token and the value after it are consumed *)
| Keep.                     (* the token stays where it is *)

Definition nextValue (rest : list bytes) : option Z :=
  match rest with
  | next :: _ => Atoi next
  | [] => None
  end.

Definition isTailToken (tok : bytes) : bool :=
  bytes_eqb tok (lit "-t") || bytes_eqb tok (lit "--t").

Definition classify (tok : bytes) (rest : list bytes) (fl : Flags) : action :=
  if isTailToken tok then Consume (setTail fl)
  else if hasPrefix tok (lit "-ns=") then Consume (assigned setNs fl tok)
  else
    match (if bytes_eqb tok (lit "-ns") then nextValue rest else None) with
    | Some v => ConsumeTwo (setNs fl v)
    | None =>
        if hasPrefix tok (lit "-ne=") then Consume (assigned setNe fl tok)
        else
          match (if bytes_eqb tok (lit "-ne") then nextValue rest else None) with
          | Some v => ConsumeTwo (setNe fl v)
          | None => Keep
          end
    end.

(** A token the sweep looks at. *)
Definition isFlagToken (tok : bytes) : bool :=
  isTailToken tok
  || hasPrefix tok (lit "-ns=") || hasPrefix tok (lit "-ne=")
  || bytes_eqb tok (lit "-ns") || bytes_eqb tok (lit "-ne").

(** A segment of a rendered line that takes no structured pass: a match,
    or a gap that neither starts like JSON nor with a YAML key. *)
Definition plainPass (g : segment) : bool :=
  match g with
  | Plain t => negb (MatchString reJSONLine t) && negb (MatchString reYAMLKey t)
  | Matched _ => true
  end.

(** What is printed of a sequence of lines: the selected ones, rendered. *)
Definition shown (rx : option Regexp) (enableColor : bool) (lines : list bytes) : list bytes :=
  map (fun l => renderLine l rx enableColor) (filter (selected rx) lines).

(** What a pattern matches between two positions, with the submatches
    recorded on the way, the latest first. *)
Inductive MatchesCap (s : bytes) : regex -> nat -> nat -> captures -> Prop :=
| CEmpty i : MatchesCap s Empty i i []
| CClass p i c : nth_error s i = Some c -> p c = true -> MatchesCap s (Class p) i (S i) []
| CCat r1 r2 i j k c1 c2 :
    MatchesCap s r1 i j c1 -> MatchesCap s r2 j k c2 -> MatchesCap s (Cat r1 r2) i k (c2 ++ c1)
| CAltL r1 r2 i j c : MatchesCap s r1 i j c -> MatchesCap s (Alt r1 r2) i j c
| CAltR r1 r2 i j c : MatchesCap s r2 i j c -> MatchesCap s (Alt r1 r2) i j c
| CStarO r i : MatchesCap s (Star r) i i []
| CStarS r i j k c1 c2 :
    MatchesCap s r i j c1 -> MatchesCap s (Star r) j k c2 -> MatchesCap s (Star r) i k (c2 ++ c1)
| CBeginText : MatchesCap s BeginText 0 0 []
| CWordBoundary i : atWordBoundary s i = true -> MatchesCap s WordBoundary i i []
| CCapture n r i j c :
    MatchesCap s r i j c -> MatchesCap s (Capture n r) i j ((n, (i, j)) :: c).

(** The pattern holds no group. *)
Fixpoint noCapture (r : regex) : Prop :=
  match r with
  | Cat r1 r2 => noCapture r1 /\ noCapture r2
  | Alt r1 r2 => noCapture r1 /\ noCapture r2
  | Star r1 => noCapture r1
  | Capture _ _ => False
  | _ => True
  end.

(** The replacement template of the YAML key pass. *)
Definition yamlTemplate : list tmpl :=
  [TSub 1; TLit ansiBlue; TSub 2; TLit ansiReset; TLit (lit ":")].

(** The bytes an old string of the punctuation replacer starts with. *)
Definition startsPunct (c : ascii) : bool :=
  existsb (fun a => Ascii.eqb a c) (lit "{}[],:").

(** * Properties *)

Unset Implicit Arguments.

(** ** Lines and fragments *)

Lemma IndexByte_lt (l : bytes) (c : ascii) (i : nat) :
  IndexByte l c = Some i -> i < length l.
Proof.
  revert i. induction l as [|a l IH]; intros i H; simpl in *.
  - discriminate.
  - destruct (Ascii.eqb a c).
    + inversion H. lia.
    + destruct (IndexByte l c) as [j|]; [|discriminate].
      inversion H. specialize (IH j eq_refl). lia.
Qed.

Lemma noNL_nil : noNL [].
Proof. reflexivity. Qed.

Lemma noNL_app (x y : bytes) : noNL x -> noNL y -> noNL (x ++ y).
Proof.
  unfold noNL. induction x as [|a x IH]; simpl; intros Hx Hy; [assumption|].
  destruct (Ascii.eqb a NL); [discriminate|].
  destruct (IndexByte x NL); [discriminate|].
  now rewrite IH.
Qed.

Lemma splitLines_noNL (d cur : bytes) :
  noNL d -> splitLines cur d = ([], cur ++ d).
Proof.
  unfold noNL. revert cur. induction d as [|c d IH]; intros cur H; simpl in *.
  - now rewrite app_nil_r.
  - destruct (Ascii.eqb c NL); [discriminate|].
    destruct (IndexByte d NL); [discriminate|].
    rewrite IH by reflexivity. now rewrite <- app_assoc.
Qed.

Lemma splitLines_index (d cur : bytes) (i : nat) :
  IndexByte d NL = Some i ->
  splitLines cur d =
    (let '(ls, r) := splitLines [] (skipn (i + 1) d) in ((cur ++ firstn i d) :: ls, r)).
Proof.
  revert cur i. induction d as [|c d IH]; intros cur i H; simpl in *.
  - discriminate.
  - destruct (Ascii.eqb c NL).
    + inversion H; subst i. simpl. now rewrite app_nil_r.
    + destruct (IndexByte d NL) as [j|]; [|discriminate].
      inversion H; subst i. rewrite (IH (cur ++ [c]) j eq_refl).
      simpl. now rewrite <- app_assoc.
Qed.

Lemma splitLines_app (a b cur : bytes) :
  splitLines cur (a ++ b) =
    (let '(l1, r1) := splitLines cur a in
     let '(l2, r2) := splitLines r1 b in (l1 ++ l2, r2)).
Proof.
  revert cur. induction a as [|c a IH]; intros cur; simpl.
  - now destruct (splitLines cur b).
  - destruct (Ascii.eqb c NL).
    + rewrite IH. destruct (splitLines [] a) as [l1 r1].
      now destruct (splitLines r1 b).
    + apply IH.
Qed.

Lemma splitLines_rest_noNL (d cur : bytes) :
  noNL cur -> noNL (snd (splitLines cur d)).
Proof.
  revert cur. induction d as [|c d IH]; intros cur H; simpl.
  - assumption.
  - destruct (Ascii.eqb c NL) eqn:E.
    + specialize (IH [] noNL_nil). now destruct (splitLines [] d).
    + apply IH. apply noNL_app; [assumption|]. unfold noNL. simpl. now rewrite E.
Qed.

Lemma fragment_noNL (d : bytes) : noNL (fragment d).
Proof. apply splitLines_rest_noNL, noNL_nil. Qed.

(** Splitting after a fragment is splitting with the fragment pending. *)
Lemma splitLines_pending (x b : bytes) :
  noNL x -> splitLines [] (x ++ b) = splitLines x b.
Proof.
  intros H. rewrite splitLines_app, (splitLines_noNL _ [] H). simpl.
  now destruct (splitLines x b).
Qed.

Lemma completeLines_app (a b : bytes) :
  completeLines (a ++ b) = completeLines a ++ completeLines (fragment a ++ b).
Proof.
  unfold completeLines, fragment.
  rewrite splitLines_app, (splitLines_pending _ _ (fragment_noNL a)).
  unfold fragment. destruct (splitLines [] a) as [l1 r1]; simpl.
  now destruct (splitLines r1 b).
Qed.

Lemma fragment_app (a b : bytes) :
  fragment (a ++ b) = fragment (fragment a ++ b).
Proof.
  unfold fragment at 1 2.
  rewrite splitLines_app, (splitLines_pending _ _ (fragment_noNL a)).
  unfold fragment. destruct (splitLines [] a) as [l1 r1]; simpl.
  now destruct (splitLines r1 b).
Qed.

Lemma fragment_of_noNL (x : bytes) : noNL x -> fragment x = x.
Proof. intros H. unfold fragment. now rewrite (splitLines_noNL _ [] H). Qed.

Lemma completeLines_of_noNL (x : bytes) : noNL x -> completeLines x = [].
Proof. intros H. unfold completeLines. now rewrite (splitLines_noNL _ [] H). Qed.

(** Nothing is lost in the cut: the complete lines with their terminators,
    then the fragment, are the bytes. *)
Lemma splitLines_join (d cur : bytes) :
  let '(ls, r) := splitLines cur d in
  match ls with
  | [] => r = cur ++ d
  | l :: ls' =>
      exists l0, l = cur ++ l0 /\
                 l0 ++ [NL] ++ concat (map (fun x => x ++ [NL]) ls') ++ r = d
  end.
Proof.
  revert cur. induction d as [|c d IH]; intros cur; cbn [splitLines].
  - now rewrite app_nil_r.
  - destruct (Ascii.eqb c NL) eqn:E.
    + apply Ascii.eqb_eq in E. subst c. specialize (IH []).
      destruct (splitLines [] d) as [ls r]. exists []. split; [now rewrite app_nil_r|].
      cbn [app]. f_equal. destruct ls as [|l ls'].
      * cbn. now subst r.
      * destruct IH as (l0 & Hl & IH). cbn [app] in Hl. subst l.
        cbn [app map concat]. rewrite <- !app_assoc. exact IH.
    + specialize (IH (cur ++ [c])). destruct (splitLines (cur ++ [c]) d) as [ls r].
      destruct ls as [|l ls'].
      * subst r. now rewrite <- app_assoc.
      * destruct IH as (l0 & Hl & IH). exists (c :: l0).
        split; [now rewrite Hl, <- app_assoc|]. cbn [app]. now f_equal.
Qed.

Lemma completeLines_join (d : bytes) :
  concat (map (fun x => x ++ [NL]) (completeLines d)) ++ fragment d = d.
Proof.
  unfold completeLines, fragment. pose proof (splitLines_join d []) as H.
  destruct (splitLines [] d) as [ls r]. cbn [fst snd]. destruct ls as [|l ls'].
  - now subst r.
  - destruct H as (l0 & Hl & H). cbn [app] in Hl. subst l.
    cbn [app map concat]. rewrite <- !app_assoc. exact H.
Qed.

(** ** The drain step *)

Section FollowFacts.
Variable rx : option Regexp.
Variable enableColor : bool.

(** The inner loop emits the complete lines of [carry], in order, and
    keeps the fragment. *)
Lemma emitLines_spec (fuel : nat) (carry : bytes) (out : list bytes) :
  length carry <= fuel ->
  emitLines rx enableColor fuel carry out =
    (fragment carry, out ++ flat_map (emit rx enableColor) (completeLines carry)).
Proof.
  revert carry out. induction fuel as [|fuel IH]; intros carry out Hlen.
  - destruct carry; [|simpl in Hlen; lia]. cbn. now rewrite app_nil_r.
  - simpl. destruct (IndexByte carry NL) as [nl|] eqn:E.
    + pose proof (IndexByte_lt _ _ _ E) as Hlt.
      rewrite IH by (rewrite length_skipn; lia).
      unfold fragment, completeLines. rewrite (splitLines_index _ [] _ E).
      destruct (splitLines [] (skipn (nl + 1) carry)) as [ls r]; simpl.
      now rewrite <- app_assoc.
    + rewrite fragment_of_noNL, completeLines_of_noNL by exact E.
      simpl. now rewrite app_nil_r.
Qed.

Lemma chunk_pos : (0 < chunk)%Z.
Proof. reflexivity. Qed.

(** One positional read of an untouched file: the next [w] bytes. *)
Lemma fileReadAt_full (d : bytes) (p w : nat) :
  p + w <= length d ->
  fileReadAt d (Z.of_nat w) (Z.of_nat p) = (firstn w (skipn p d), ErrNil).
Proof.
  intros H. unfold fileReadAt. rewrite !Nat2Z.id.
  assert (L : length (firstn w (skipn p d)) = w).
  { rewrite length_firstn, length_skipn. lia. }
  rewrite L. now rewrite Z.ltb_irrefl.
Qed.

(** The read loop over an untouched file holding [d], from position [p]:
    all complete lines of [carry] followed by the unread bytes are
    emitted, whatever the chunking. *)
Lemma readLoop_onDisk (d : bytes) (fuel p : nat) (carry : bytes) (out : list bytes) :
  p <= length d ->
  length d - p <= fuel ->
  p < length d \/ noNL carry ->
  readLoop rx enableColor fuel {| ReadAt := fileReadAt d |}
           (Z.of_nat (length d)) (Z.of_nat p) carry out =
    Some (fragment (carry ++ skipn p d),
          out ++ flat_map (emit rx enableColor) (completeLines (carry ++ skipn p d)),
          Drained).
Proof.
  revert p carry out. induction fuel as [|fuel IH]; intros p carry out Hp Hfuel Hc.
  - assert (p = length d) by lia. subst p.
    destruct Hc as [Hc|Hc]; [lia|].
    cbn [readLoop]. rewrite Z.ltb_irrefl, skipn_all, app_nil_r.
    now rewrite fragment_of_noNL, completeLines_of_noNL, app_nil_r.
  - cbn [readLoop].
    destruct (Z.of_nat p <? Z.of_nat (length d))%Z eqn:Elt.
    + apply Z.ltb_lt in Elt.
      set (want := if (Z.of_nat (length d) - Z.of_nat p >? chunk)%Z
                   then chunk else (Z.of_nat (length d) - Z.of_nat p)%Z).
      assert (Hw : (0 < want <= Z.of_nat (length d) - Z.of_nat p)%Z).
      { unfold want. pose proof chunk_pos.
        destruct (Z.of_nat (length d) - Z.of_nat p >? chunk)%Z eqn:E; [|lia].
        apply Z.gtb_lt in E. lia. }
      cbn [ReadAt].
      rewrite <- (Z2Nat.id want) by lia.
      set (w := Z.to_nat want). assert (Hw' : 0 < w /\ p + w <= length d) by lia.
      rewrite fileReadAt_full by lia.
      assert (L : length (firstn w (skipn p d)) = w).
      { rewrite length_firstn, length_skipn. lia. }
      rewrite L.
      destruct (Z.of_nat w >? 0)%Z eqn:E0; [|rewrite Z.gtb_ltb in E0; apply Z.ltb_ge in E0; lia].
      rewrite emitLines_spec by lia.
      rewrite <- Nat2Z.inj_add.
      rewrite IH; [|lia|lia|right; apply fragment_noNL].
      assert (S : skipn p d = firstn w (skipn p d) ++ skipn (p + w) d).
      { rewrite <- (firstn_skipn w (skipn p d)) at 1. f_equal.
        rewrite skipn_skipn. f_equal. lia. }
      remember (firstn w (skipn p d)) as buf eqn:Hbuf.
      remember (skipn (p + w) d) as rest eqn:Hrest.
      rewrite S, (app_assoc carry buf rest).
      rewrite (fragment_app (carry ++ buf) rest).
      rewrite (completeLines_app (carry ++ buf) rest).
      now rewrite flat_map_app, app_assoc.
    + apply Z.ltb_ge in Elt. assert (p = length d) by lia. subst p.
      destruct Hc as [Hc|Hc]; [lia|].
      rewrite skipn_all, app_nil_r.
      now rewrite fragment_of_noNL, completeLines_of_noNL, app_nil_r.
Qed.

(** A drain of an untouched file.  With nothing new it is a no-op;
    otherwise it emits the complete lines of [carry] followed by the new
    bytes and keeps the fragment. *)
Lemma readNew_onDisk (d : bytes) (p : nat) (c : bytes) :
  p <= length d ->
  readNew rx enableColor (onDisk d) {| offset := Z.of_nat p; carry := c |} =
    if p =? length d
    then Some ({| offset := Z.of_nat p; carry := c |}, [], UpToDate)
    else Some ({| offset := Z.of_nat (length d); carry := fragment (c ++ skipn p d) |},
               flat_map (emit rx enableColor) (completeLines (c ++ skipn p d)),
               Drained).
Proof.
  intros Hp. unfold readNew. cbn [StatSize onDisk offset carry].
  destruct (Z.of_nat (length d) <? Z.of_nat p)%Z eqn:E1; [apply Z.ltb_lt in E1; lia|].
  cbn [offset carry].
  destruct (p =? length d) eqn:E2.
  - apply Nat.eqb_eq in E2. subst p. now rewrite Z.eqb_refl.
  - apply Nat.eqb_neq in E2.
    destruct (Z.of_nat (length d) =? Z.of_nat p)%Z eqn:E3; [apply Z.eqb_eq in E3; lia|].
    unfold onDisk at 1. cbn [OpenFile].
    rewrite readLoop_onDisk; [reflexivity|lia|lia|left; lia].
Qed.

(** One drain after an append to a file the follower was at the end of. *)
Lemma readNew_append (pre c carry0 : bytes) :
  readNew rx enableColor (onDisk (pre ++ c))
          {| offset := Z.of_nat (length pre); carry := carry0 |} =
    Some (afterAppend rx enableColor pre carry0 c,
          match c with [] => UpToDate | _ => Drained end).
Proof.
  rewrite readNew_onDisk by (rewrite length_app; lia).
  destruct c as [|a c].
  - rewrite app_nil_r, Nat.eqb_refl. reflexivity.
  - destruct (length pre =? length (pre ++ a :: c)) eqn:E.
    + apply Nat.eqb_eq in E. rewrite length_app in E. simpl in E. lia.
    + rewrite skipn_app, skipn_all, Nat.sub_diag. reflexivity.
Qed.

(** Two appends drained one after the other come to the append of both. *)
Lemma afterAppend_app (pre carry0 x y : bytes) :
  let '(st1, out1) := afterAppend rx enableColor pre carry0 x in
  let '(st2, out2) := afterAppend rx enableColor (pre ++ x) (carry st1) y in
  afterAppend rx enableColor pre carry0 (x ++ y) = (st2, out1 ++ out2).
Proof.
  destruct x as [|a x].
  - cbn [afterAppend carry app]. rewrite app_nil_r.
    destruct (afterAppend rx enableColor pre carry0 y). reflexivity.
  - cbn [afterAppend carry]. destruct y as [|b y].
    + cbn [afterAppend]. rewrite !app_nil_r. reflexivity.
    + cbn [afterAppend app].
      change (a :: x ++ b :: y) with ((a :: x) ++ b :: y).
      rewrite (app_assoc carry0 (a :: x)), (app_assoc pre (a :: x)).
      rewrite (fragment_app (carry0 ++ a :: x)), (completeLines_app (carry0 ++ a :: x)).
      now rewrite flat_map_app.
Qed.

Lemma drains_appends (cs : list bytes) (pre carry0 : bytes) :
  drains rx enableColor (appends pre cs)
         {| offset := Z.of_nat (length pre); carry := carry0 |} =
    Some (afterAppend rx enableColor pre carry0 (concat cs)).
Proof.
  revert pre carry0. induction cs as [|c cs IH]; intros pre carry0.
  - reflexivity.
  - cbn [appends drains concat]. rewrite readNew_append.
    pose proof (afterAppend_app pre carry0 c (concat cs)) as H.
    destruct (afterAppend rx enableColor pre carry0 c) as [st1 out1] eqn:E1.
    assert (O1 : st1 = {| offset := Z.of_nat (length (pre ++ c)); carry := carry st1 |}).
    { destruct c; inversion E1; cbn; now rewrite ?app_nil_r. }
    rewrite O1, IH.
    destruct (afterAppend rx enableColor (pre ++ c) (carry st1) (concat cs)) as [st2 out2].
    now rewrite H.
Qed.

(** C1.  Chunk-boundary invariance: whatever the split of the appended
    bytes into successive drains, the drains emit together exactly the
    lines one single drain of all the bytes emits, and end in the same
    state; these are the lines the bytes complete, so that an
    unterminated trailing fragment is held back in [carry] until a later
    drain brings its terminator. *)
Theorem chunk_boundary (pre carry0 : bytes) (cs : list bytes) :
  let st0 := {| offset := Z.of_nat (length pre); carry := carry0 |} in
  drains rx enableColor (appends pre cs) st0 =
    drains rx enableColor [onDisk (pre ++ concat cs)] st0
  /\ drains rx enableColor (appends pre cs) st0 =
       Some (afterAppend rx enableColor pre carry0 (concat cs)).
Proof.
  cbn zeta. rewrite drains_appends. split; [|reflexivity].
  cbn [drains]. rewrite readNew_append.
  destruct (afterAppend rx enableColor pre carry0 (concat cs)) as [st out].
  now rewrite app_nil_r.
Qed.

(** The read loop returns as drained or on a failed read, and a [carry]
    without a line terminator stays so. *)
Lemma readLoop_returns (fuel : nat) (f : Handle) (cur start : Z)
      (c0 : bytes) (o0 : list bytes) (c : bytes) (o : list bytes) (h : status) :
  readLoop rx enableColor fuel f cur start c0 o0 = Some (c, o, h) ->
  (h = Drained \/ h = ReadFailed) /\ (noNL c0 -> noNL c).
Proof.
  revert start c0 o0. induction fuel as [|n IH]; intros start c0 o0; cbn [readLoop].
  - destruct (start <? cur)%Z; [discriminate|]. intros H; inversion H; subst; auto.
  - destruct (start <? cur)%Z; [|intros H; inversion H; subst; auto].
    destruct (ReadAt f _ start) as [buf e].
    destruct (Z.of_nat (length buf) >? 0)%Z.
    + rewrite emitLines_spec by lia.
      assert (F : noNL (fragment (c0 ++ buf))) by apply fragment_noNL.
      destruct e.
      * intros H. apply IH in H. tauto.
      * intros H. apply IH in H. tauto.
      * intros H; inversion H; subst. auto.
    + destruct e; try discriminate. intros H; inversion H; subst; auto.
Qed.

(** A drain that finds the size it already has is a no-op. *)
Lemma readNew_same_size (v : View) (st : FollowState) :
  StatSize v = Some (offset st) ->
  readNew rx enableColor v st = Some (st, [], UpToDate).
Proof.
  intros H. unfold readNew. rewrite H, Z.ltb_irrefl, Z.eqb_refl. reflexivity.
Qed.

(** C4.  Idempotence: a second drain with the same view of the file
    emits nothing and leaves [offset] and [carry] as the first drain left
    them. *)
Theorem readNew_idempotent (v : View) (st st1 : FollowState)
        (out1 : list bytes) (how : status) :
  readNew rx enableColor v st = Some (st1, out1, how) ->
  readNew rx enableColor v st1 =
    Some (st1, [], match how with
                   | StatFailed => StatFailed
                   | OpenFailed => OpenFailed
                   | _ => UpToDate
                   end).
Proof.
  unfold readNew at 1. destruct (StatSize v) as [cur|] eqn:Es.
  - set (st' := if (cur <? offset st)%Z then {| offset := 0; carry := [] |} else st).
    destruct (cur =? offset st')%Z eqn:Eeq.
    + intros H; inversion H; subst. apply Z.eqb_eq in Eeq.
      apply readNew_same_size. now rewrite Es, Eeq.
    + destruct (OpenFile v) as [f|] eqn:Eo.
      * destruct (readLoop rx enableColor _ f cur (offset st') (carry st') [])
          as [[[c o] h]|] eqn:El; [|discriminate].
        destruct (readLoop_returns _ _ _ _ _ _ _ _ _ El) as [Hh _].
        intros H; inversion H; subst.
        rewrite readNew_same_size by (now rewrite Es).
        destruct Hh as [Hh|Hh]; rewrite Hh; reflexivity.
      * intros H; inversion H; subst. unfold readNew. rewrite Es, Eo.
        assert (R : (if (cur <? offset st')%Z then {| offset := 0; carry := [] |} else st') = st').
        { unfold st'. destruct (cur <? offset st)%Z eqn:E1; cbn [offset].
          - now destruct (cur <? 0)%Z.
          - now rewrite E1. }
        rewrite R, Eeq. reflexivity.
  - intros H; inversion H; subst. unfold readNew. now rewrite Es.
Qed.

(** C5.  Truncation or rotation: when the file is smaller than [offset],
    the drain is the drain of a follower that starts at byte 0 with an
    empty [carry]; over the new content [d] it emits the lines of [d]
    alone and ends at the size of [d]. *)
Theorem readNew_truncation (d : bytes) (st : FollowState) :
  (Z.of_nat (length d) < offset st)%Z ->
  (forall v : View,
     StatSize v = Some (Z.of_nat (length d)) ->
     readNew rx enableColor v st =
       readNew rx enableColor v {| offset := 0; carry := [] |})
  /\ readNew rx enableColor (onDisk d) st =
       Some ({| offset := Z.of_nat (length d); carry := fragment d |},
             flat_map (emit rx enableColor) (completeLines d),
             match d with [] => UpToDate | _ => Drained end).
Proof.
  intros Hlt.
  assert (R : forall v : View,
             StatSize v = Some (Z.of_nat (length d)) ->
             readNew rx enableColor v st =
               readNew rx enableColor v {| offset := 0; carry := [] |}).
  { intros v Hs. unfold readNew. rewrite Hs. cbn [offset].
    apply Z.ltb_lt in Hlt. rewrite Hlt.
    now destruct (Z.of_nat (length d) <? 0)%Z. }
  split; [exact R|].
  rewrite (R (onDisk d) eq_refl).
  pose proof (readNew_append [] d []) as H. cbn [app length Z.of_nat] in H.
  rewrite H. destruct d; reflexivity.
Qed.

(** C6, as the code has it.  After every drain that returns, a [carry]
    free of line terminators is still free of them.  [offset] is the
    size the drain observed when the read loop ran to its end or there
    was nothing new; a failed stat leaves the state as it was; a failed
    open leaves it as it was or, after a detected truncation, reset to
    byte 0 with an empty [carry]. *)
Theorem readNew_invariant (v : View) (st st' : FollowState)
        (out : list bytes) (how : status) :
  noNL (carry st) ->
  readNew rx enableColor v st = Some (st', out, how) ->
  noNL (carry st') /\
  match how with
  | Drained | UpToDate => StatSize v = Some (offset st')
  | StatFailed => st' = st
  | OpenFailed =>
      st' = st \/
      (st' = {| offset := 0; carry := [] |} /\
       exists cur, StatSize v = Some cur /\ (cur < offset st)%Z)
  | ReadFailed => True
  end.
Proof.
  intros Hc. unfold readNew. destruct (StatSize v) as [cur|] eqn:Es.
  - set (st1 := if (cur <? offset st)%Z then {| offset := 0; carry := [] |} else st).
    assert (H1 : noNL (carry st1)).
    { unfold st1. destruct (cur <? offset st)%Z; [apply noNL_nil|exact Hc]. }
    destruct (cur =? offset st1)%Z eqn:Eeq.
    + intros H; inversion H; subst. apply Z.eqb_eq in Eeq.
      split; [exact H1|]. now rewrite Eeq.
    + destruct (OpenFile v) as [f|].
      * destruct (readLoop rx enableColor _ f cur (offset st1) (carry st1) [])
          as [[[c o] h]|] eqn:El; [|discriminate].
        destruct (readLoop_returns _ _ _ _ _ _ _ _ _ El) as [Hh Hn].
        intros H; inversion H; subst. cbn [carry offset].
        split; [auto|]. destruct Hh as [Hh|Hh]; rewrite Hh; auto.
      * intros H; inversion H; subst. split; [exact H1|].
        unfold st1. destruct (cur <? offset st)%Z eqn:E1; [|now left].
        right. split; [reflexivity|]. exists cur. apply Z.ltb_lt in E1. auto.
  - intros H; inversion H; subst. auto.
Qed.

End FollowFacts.

(** Three appends that cut a line in two and leave [de] unterminated,
    then the terminator: [abc] is emitted by the drains of the first
    three, [de] only once its terminator has come. *)
Lemma chunk_boundary_witness :
  drains None false
         (appends (lit "x" ++ [NL]) [lit "ab"; lit "c" ++ [NL] ++ lit "d"; lit "e"])
         {| offset := 2; carry := [] |} =
    Some ({| offset := 8; carry := lit "de" |}, [lit "abc"])
  /\ readNew None false
        (onDisk (lit "x" ++ [NL] ++ lit "abc" ++ [NL] ++ lit "de" ++ [NL]))
        {| offset := 8; carry := lit "de" |} =
      Some ({| offset := 9; carry := [] |}, [lit "de"], Drained).
Proof.
  split.
  - exact (proj2 (chunk_boundary None false (lit "x" ++ [NL]) []
                    [lit "ab"; lit "c" ++ [NL] ++ lit "d"; lit "e"])).
  - reflexivity.
Defined.

(** Whenever the read loop was entered, [offset] ends at the size the
    drain had observed, also when a read failed on the way. *)
Lemma readNew_offset_after_loop (rx : option Regexp) (enableColor : bool)
      (v : View) (st st' : FollowState) (out : list bytes) (how : status) :
  readNew rx enableColor v st = Some (st', out, how) ->
  how = Drained \/ how = ReadFailed ->
  StatSize v = Some (offset st').
Proof.
  unfold readNew. destruct (StatSize v) as [cur|]; [|intros H [E|E]; inversion H; congruence].
  set (st1 := if (cur <? offset st)%Z then {| offset := 0; carry := [] |} else st).
  destruct (cur =? offset st1)%Z; [intros H [E|E]; inversion H; congruence|].
  destruct (OpenFile v) as [f|]; [|intros H [E|E]; inversion H; congruence].
  destruct (readLoop rx enableColor _ f cur (offset st1) (carry st1) [])
    as [[[c o] h]|]; [|discriminate].
  intros H _. inversion H; subst. reflexivity.
Qed.

(** C3, at a failing input.  The file holds two lines; the read delivers
    the first and fails with an error other than end-of-input.  The drain
    still sets [offset] to the size it had observed, so the retry finds
    nothing new and the second line is never emitted, though a drain
    whose read succeeds emits both. *)
Theorem readNew_read_error_skips_bytes :
  let d := lit "a" ++ [NL] ++ lit "b" ++ [NL] in
  let failing :=
    {| StatSize := Some 4%Z;
       OpenFile := Some {| ReadAt := fun _ _ => (lit "a" ++ [NL], ErrOther) |} |} in
  let st0 := {| offset := 0; carry := [] |} in
  let st1 := {| offset := 4; carry := [] |} in
  readNew None false failing st0 = Some (st1, [lit "a"], ReadFailed)
  /\ readNew None false (onDisk d) st1 = Some (st1, [], UpToDate)
  /\ readNew None false (onDisk d) st0 = Some (st1, [lit "a"; lit "b"], Drained).
Proof. repeat split; reflexivity. Qed.

(** C6 as stated fails: a drain that detects a truncation and then cannot
    open the file leaves [offset] at 0, which is not the size the last
    successful read step observed. *)
Lemma invariant_broken_by_failed_open :
  let v := {| StatSize := Some 2%Z; OpenFile := None |} in
  let st := {| offset := 5; carry := lit "ab" |} in
  FollowInvariant st 5 /\
  exists st' : FollowState,
    readNew None false v st = Some (st', [], OpenFailed) /\
    ~ FollowInvariant st' (lastObserved v OpenFailed 5).
Proof.
  cbn zeta. split; [split; reflexivity|].
  exists {| offset := 0; carry := [] |}. split; [reflexivity|].
  intros [H _]. discriminate H.
Qed.

Lemma readNew_idempotent_witness :
  readNew None false (onDisk (lit "ab")) {| offset := 2; carry := lit "ab" |} =
    Some ({| offset := 2; carry := lit "ab" |}, [], UpToDate).
Proof.
  exact (readNew_idempotent None false (onDisk (lit "ab")) {| offset := 0; carry := [] |}
           {| offset := 2; carry := lit "ab" |} [] Drained eq_refl).
Defined.

Lemma readNew_truncation_witness :
  readNew None false (onDisk (lit "hi" ++ [NL] ++ lit "yo"))
          {| offset := 10; carry := lit "old" |} =
    Some ({| offset := 5; carry := lit "yo" |}, [lit "hi"], Drained).
Proof.
  exact (proj2 (readNew_truncation None false (lit "hi" ++ [NL] ++ lit "yo")
                  {| offset := 10; carry := lit "old" |} eq_refl)).
Defined.

Lemma readNew_invariant_witness :
  noNL (lit "yo") /\
  StatSize (onDisk (lit "hi" ++ [NL] ++ lit "yo")) = Some 5%Z.
Proof.
  exact (readNew_invariant None false (onDisk (lit "hi" ++ [NL] ++ lit "yo"))
           {| offset := 0; carry := [] |} {| offset := 5; carry := lit "yo" |}
           [lit "hi"] Drained eq_refl eq_refl).
Defined.

(** ** The last-N ring *)

Lemma setIndex_length (l : list bytes) (i : nat) (x : bytes) :
  length (setIndex l i x) = length l.
Proof.
  revert i. induction l as [|a l IH]; intros [|i]; simpl; auto.
Qed.

Lemma nth_setIndex_same (l : list bytes) (i : nat) (x d : bytes) :
  i < length l -> nth i (setIndex l i x) d = x.
Proof.
  revert i. induction l as [|a l IH]; intros [|i] H; simpl in *; try lia; auto.
  apply IH. lia.
Qed.

Lemma nth_setIndex_other (l : list bytes) (i j : nat) (x d : bytes) :
  i <> j -> nth j (setIndex l i x) d = nth j l d.
Proof.
  revert i j. induction l as [|a l IH]; intros [|i] [|j] H; simpl; auto; try lia.
Qed.

(** Two positions less than [n] apart fall into different slots. *)
Lemma mod_apart (n a b : nat) :
  a < b -> b - a < n -> a mod n <> b mod n.
Proof.
  intros Hab Hn E.
  pose proof (Nat.div_mod_eq a n) as Ha.
  pose proof (Nat.div_mod_eq b n) as Hb.
  rewrite E in Ha.
  assert (D : b - a = n * (b / n) - n * (a / n)) by lia.
  assert (Hq : a / n <= b / n) by (apply Nat.Div0.div_le_mono; lia).
  assert (D' : b - a = n * (b / n - a / n)) by nia.
  destruct (b / n - a / n) as [|q]; nia.
Qed.

(** Lines the filter does not select leave the ring as it is. *)
Lemma ringPut_filter (rx : option Regexp) (n : nat) (lines : list bytes) (st : ringState) :
  fold_left (ringPut rx n) lines st =
    fold_left (ringPut None n) (filter (selected rx) lines) st.
Proof.
  revert st. induction lines as [|s lines IH]; intros st; simpl; [reflexivity|].
  unfold ringPut at 2. destruct (selected rx s) eqn:E; simpl.
  - rewrite IH. unfold ringPut at 2. reflexivity.
  - apply IH.
Qed.

(** The ring after the selected lines [ms]: the slot of every line still
    retained holds that line. *)
Lemma ring_invariant (n : nat) (ms : list bytes) :
  1 <= n ->
  let st := fold_left (ringPut None n) ms (ringInit n) in
  length (ring st) = n /\
  size st = min (length ms) n /\
  idx st = length ms mod n /\
  forall j, length ms - size st <= j < length ms ->
            nth (j mod n) (ring st) [] = nth j ms [].
Proof.
  intros Hn. induction ms as [|x ms IH] using rev_ind; cbn zeta.
  - cbn. rewrite repeat_length, Nat.Div0.mod_0_l. repeat split; auto. intros j Hj. lia.
  - rewrite fold_left_app. cbn [fold_left].
    cbn zeta in IH. destruct IH as (Hl & Hs & Hi & Hr).
    set (st := fold_left (ringPut None n) ms (ringInit n)) in *.
    unfold ringPut. cbn [selected ring size idx].
    rewrite length_app. cbn [length].
    assert (Hidx : idx st < n) by (rewrite Hi; apply Nat.mod_upper_bound; lia).
    split; [now rewrite setIndex_length|].
    assert (Hs' : (if size st <? n then size st + 1 else size st) = min (length ms + 1) n).
    { destruct (size st <? n) eqn:E.
      - apply Nat.ltb_lt in E. lia.
      - apply Nat.ltb_ge in E. lia. }
    split; [exact Hs'|].
    split; [rewrite Hi, Nat.Div0.add_mod_idemp_l; reflexivity|].
    rewrite Hs'. intros j Hj.
    destruct (Nat.eq_dec j (length ms)) as [->|Hne].
    + rewrite <- Hi, nth_setIndex_same by lia.
      now rewrite nth_middle.
    + assert (Hjl : j < length ms) by lia.
      rewrite nth_setIndex_other.
      * rewrite app_nth1 by lia. apply Hr. lia.
      * rewrite Hi. intros E. symmetry in E. revert E. apply mod_apart; lia.
Qed.

(** Reading the ring from the oldest entry gives the last [size]
    selected lines, in their order. *)
Lemma ringRead_last (n : nat) (ms : list bytes) :
  1 <= n ->
  let st := fold_left (ringPut None n) ms (ringInit n) in
  ringRead n st = lastn (size st) ms.
Proof.
  intros Hn. pose proof (ring_invariant n ms Hn) as H. cbn zeta in *.
  destruct H as (Hl & Hs & Hi & Hr).
  set (st := fold_left (ringPut None n) ms (ringInit n)) in *.
  unfold ringRead, lastn.
  apply (nth_ext _ _ [] []).
  - rewrite length_map, length_seq, length_skipn. lia.
  - rewrite length_map, length_seq. intros i Hi'.
    rewrite nth_skipn.
    set (slot := fun k => nth (((if size st =? n then idx st else 0) + k) mod n)
                              (ring st) (@nil ascii)).
    rewrite (nth_indep _ [] (slot 0)) by (now rewrite length_map, length_seq).
    rewrite map_nth, seq_nth by exact Hi'. unfold slot. cbn [Nat.add].
    destruct (size st =? n) eqn:E.
    + apply Nat.eqb_eq in E. rewrite Hi, Nat.Div0.add_mod_idemp_l.
      replace (length ms + i) with ((length ms - size st + i) + 1 * n) by lia.
      rewrite Nat.Div0.mod_add. apply Hr. lia.
    + apply Nat.eqb_neq in E. cbn [Nat.add].
      replace (length ms - size st) with 0 by lia. apply Hr. lia.
Qed.

(** The ring after all the lines of a file went through [ringPut]. *)
Lemma ring_after_lines (rx : option Regexp) (n : nat) (lines : list bytes) :
  1 <= n ->
  let ms := filter (selected rx) lines in
  let st := fold_left (ringPut rx n) lines (ringInit n) in
  size st = min (length ms) n /\
  idx st = length ms mod n /\
  ringRead n st = lastn (size st) ms.
Proof.
  intros Hn. cbn zeta. rewrite ringPut_filter.
  pose proof (ring_invariant n (filter (selected rx) lines) Hn) as H.
  cbn zeta in H. destruct H as (_ & Hs & Hi & _).
  repeat split; auto. now apply ringRead_last.
Qed.

(** C7.  Iterating the ring from the oldest retained entry to the newest,
    from index 0 while it is not full and from the write cursor once it
    is, yields the last [count] selected lines in their original order,
    with [count = min(selected lines, n)], however often the ring
    wrapped around. *)
Theorem ring_yields_last_matches (rx : option Regexp) (n : nat) (lines : list bytes) :
  1 <= n ->
  let ms := filter (selected rx) lines in
  let st := fold_left (ringPut rx n) lines (ringInit n) in
  let count := min (length ms) n in
  size st = count /\
  map (fun i => nth (((if size st =? n then idx st else 0) + i) mod n) (ring st) [])
      (seq 0 (size st)) = lastn count ms.
Proof.
  intros Hn. cbn zeta.
  destruct (ring_after_lines rx n lines Hn) as (Hs & _ & Hr). cbn zeta in *.
  split; [exact Hs|]. rewrite <- Hs. exact Hr.
Qed.

(** C2, as the code has it.  Over a file that opens and scans without
    error, and with a ring of [n >= 1] strings that [make] returns,
    [printLastNFiltered] takes every line of the file through the ring,
    prints the last [min(m, n)] of the [m] selected lines in their order,
    and returns [min(m, n)], the number of lines it printed. *)
Theorem printLastNFiltered_count (grant : nat -> bool) (f : File) (rx : option Regexp)
        (n : nat) (enableColor : bool) (lines : list bytes) :
  1 <= n ->
  makeStrings grant n = Some (repeat [] n) ->
  scan f = (lines, None) ->
  let ms := filter (selected rx) lines in
  printLastNFiltered grant (Some f) rx n enableColor =
    Some (map (fun s => renderLine s rx enableColor) (lastn (min (length ms) n) ms),
          min (length ms) n, None).
Proof.
  intros Hn Hm Hs. cbn zeta. unfold printLastNFiltered. rewrite Hm, Hs.
  destruct (Nat.eqb_spec n 0) as [E|_]; [lia|]. cbn [andb].
  change {| ring := repeat [] n; size := 0; idx := 0 |} with (ringInit n).
  destruct (ring_after_lines rx n lines Hn) as (Hsz & _ & Hr).
  cbn zeta in *. now rewrite Hr, Hsz.
Qed.

Lemma ring_yields_last_matches_witness :
  ringRead 2 (fold_left (ringPut None 2) [lit "p"; lit "q"; lit "r"] (ringInit 2)) =
    [lit "q"; lit "r"].
Proof.
  exact (proj2 (ring_yields_last_matches None 2 [lit "p"; lit "q"; lit "r"]
                  (le_S 1 1 (le_n 1)))).
Defined.

(** The scenario of C2: last 1 of a five-line file whose lines 2 and 4
    are selected prints line 4 and returns 1. *)
Lemma printLastNFiltered_count_witness :
  printLastNFiltered (fun _ => true) (Some fiveLines) filterX 1 false =
    Some ([lit "xd"], 1, None).
Proof.
  exact (printLastNFiltered_count (fun _ => true) fiveLines filterX 1 false
           [lit "a"; lit "xb"; lit "c"; lit "xd"; lit "e"] (le_n 1) eq_refl eq_refl).
Defined.

(** C2 as stated fails: two lines are selected, the count returned is 1. *)
Lemma lastN_count_is_not_total :
  matchesSeen filterX fiveLines = 2 /\
  printLastNFiltered (fun _ => true) (Some fiveLines) filterX 1 false =
    Some ([lit "xd"], 1, None) /\
  1 <> matchesSeen filterX fiveLines.
Proof.
  repeat split; try reflexivity. vm_compute. discriminate.
Qed.

(** A ring beyond [maxAlloc] is not made: the call panics once the file
    is open, whatever the file holds. *)
Lemma printLastNFiltered_panics (grant : nat -> bool) (f : File) (rx : option Regexp)
      (n : nat) (enableColor : bool) :
  (maxAlloc < stringSize * Z.of_nat n)%Z ->
  printLastNFiltered grant (Some f) rx n enableColor = None.
Proof.
  intros H. unfold printLastNFiltered, makeStrings.
  apply Z.gtb_lt in H. now rewrite H.
Qed.

(** [-ne 9223372036854775807] on a file that opens: the ring is not
    made, and the program ends in the panic. *)
Lemma printLast_panics_at_maxInt (colorEnabled : bool) (grant : nat -> bool) (fs : FS)
      (f : File) (rx : option Regexp) (tailPtr : bool) :
  Open fs = Some f ->
  printLast colorEnabled grant fs rx tailPtr maxInt = Panicked.
Proof.
  intros H. unfold printLast. rewrite H, printLastNFiltered_panics; [reflexivity|].
  rewrite Z2Nat.id by (vm_compute; discriminate). reflexivity.
Qed.

(** A scan that stops on an error prints nothing and returns 0. *)
Lemma printLastNFiltered_error (grant : nat -> bool) (f : File) (rx : option Regexp)
      (n : nat) (enableColor : bool) (lines : list bytes) (e : error) :
  1 <= n ->
  makeStrings grant n = Some (repeat [] n) ->
  scan f = (lines, Some e) ->
  printLastNFiltered grant (Some f) rx n enableColor = Some ([], 0, Some e).
Proof.
  intros Hn Hm H. unfold printLastNFiltered. rewrite Hm, H.
  destruct (Nat.eqb_spec n 0) as [E|_]; [lia|]. reflexivity.
Qed.

Example scan_crlf :
  scan {| data := lit "a" ++ [CR; NL] ++ lit "b"; readFails := false |} =
    ([lit "a"; lit "b"], None).
Proof. reflexivity. Qed.

Example printFirstNFiltered_stops :
  printFirstNFiltered (Some fiveLines) filterX 1 false = ([lit "xb"], 1%Z, None).
Proof. reflexivity. Qed.

(** ** Which selection runs *)

Section SeeFacts.
Variable Compile : bytes -> option Regexp.
Variable colorEnabled : bool.
Variable grant : nat -> bool.

Lemma finish_not_fatal (tailPtr : bool) (out : list bytes) (off : Z) (msg : string) :
  finish tailPtr out off <> Fatal msg.
Proof. unfold finish. destruct tailPtr; discriminate. Qed.

(** C10.  A count that is zero or negative is a selection that was not
    requested: [see] and [main] behave as with the count 0, so two
    non-positive counts take the print-all path; the mutual-exclusion
    error is raised exactly when both counts are strictly positive, and
    [-ns -3 -ne 5] runs the last-N selection. *)
Theorem nonpositive_counts_not_requested
        (fs : FS) (filterPtr : bytes) (tailPtr : bool) (ns ne : Z) :
  see Compile colorEnabled grant fs filterPtr tailPtr ns ne =
    see Compile colorEnabled grant fs filterPtr tailPtr
        (if (ns >? 0)%Z then ns else 0%Z) (if (ne >? 0)%Z then ne else 0%Z)
  /\ ((ns <= 0)%Z -> (ne <= 0)%Z ->
       see Compile colorEnabled grant fs filterPtr tailPtr ns ne =
         match compileFilter Compile filterPtr with
         | None => Fatal "Invalid regex pattern"
         | Some rx => printAll colorEnabled fs rx tailPtr
         end)
  /\ (main Compile colorEnabled grant fs filterPtr tailPtr ns ne =
        Fatal "Use either -ns or -ne, not both" <-> (0 < ns)%Z /\ (0 < ne)%Z)
  /\ see Compile colorEnabled grant fs filterPtr tailPtr (-3) 5 =
       match compileFilter Compile filterPtr with
       | None => Fatal "Invalid regex pattern"
       | Some rx => printLast colorEnabled grant fs rx tailPtr 5
       end.
Proof.
  split; [|split; [|split]].
  - unfold see. destruct (compileFilter Compile filterPtr) as [rx|]; [|reflexivity].
    destruct (ns >? 0)%Z eqn:En, (ne >? 0)%Z eqn:Ee; cbn [andb];
      rewrite ?En, ?Ee; reflexivity.
  - intros Hn He. unfold see.
    destruct (compileFilter Compile filterPtr) as [rx|]; [|reflexivity].
    destruct (ns >? 0)%Z eqn:En; [rewrite Z.gtb_ltb in En; apply Z.ltb_lt in En; lia|].
    destruct (ne >? 0)%Z eqn:Ee; [rewrite Z.gtb_ltb in Ee; apply Z.ltb_lt in Ee; lia|].
    reflexivity.
  - split.
    + unfold main, see.
      destruct (ns >? 0)%Z eqn:En, (ne >? 0)%Z eqn:Ee; cbn [andb];
        try (intros _; rewrite Z.gtb_ltb in En, Ee;
             apply Z.ltb_lt in En; apply Z.ltb_lt in Ee; now split).
      all: destruct (Stat fs); [|discriminate].
      all: destruct (IsDir fs); [discriminate|].
      all: destruct (compileFilter Compile filterPtr) as [rx|]; [|discriminate].
      * unfold printFirst.
        destruct (printFirstNFiltered (Open fs) rx ns colorEnabled) as [[o c] [e|]];
          [discriminate|]. intros H. now apply finish_not_fatal in H.
      * unfold printLast.
        destruct (printLastNFiltered grant (Open fs) rx (Z.to_nat ne) colorEnabled)
          as [[[o c] [e|]]|]; [discriminate| |discriminate].
        intros H. now apply finish_not_fatal in H.
      * unfold printAll. destruct (Open fs) as [f|]; [|discriminate].
        destruct (scan f) as [ls [e|]]; [discriminate|].
        intros H. now apply finish_not_fatal in H.
    + intros [Hn He]. unfold main.
      apply Z.ltb_lt in Hn, He. rewrite <- Z.gtb_ltb in Hn, He.
      now rewrite Hn, He.
  - unfold see. destruct (compileFilter Compile filterPtr); reflexivity.
Qed.

End SeeFacts.

(** With no filter and no selection, [-ns 0 -ne -7] prints the file. *)
Lemma nonpositive_counts_not_requested_witness :
  see (fun _ => None) false (fun _ => true)
      {| Stat := Some 2%Z; IsDir := false;
         Open := Some {| data := lit "a" ++ [NL]; readFails := false |} |}
      [] false 0 (-7) =
    Done [lit "Reading existing lines..."; lit "a"].
Proof.
  refine (eq_trans
            (proj1 (proj2 (nonpositive_counts_not_requested (fun _ => None) false (fun _ => true)
               {| Stat := Some 2%Z; IsDir := false;
                  Open := Some {| data := lit "a" ++ [NL]; readFails := false |} |}
               [] false 0 (-7))) _ _) eq_refl).
  - discriminate.
  - discriminate.
Defined.

(** ** The matcher *)

(** A match found from position [i] ends between [i] and the end of the
    text. *)
Lemma step_sound (s : bytes) (A : Type) (r : regex) :
  forall (i : nat) (caps : captures) (k : nat -> captures -> option A) (res : A),
    i <= length s ->
    step s r i caps k = Some res ->
    exists j c, i <= j /\ j <= length s /\ k j c = Some res.
Proof.
  induction r as [|p|r1 IH1 r2 IH2|r1 IH1 r2 IH2|r1 IH1| | |n r1 IH1];
    intros i caps k res Hi H; cbn [step] in H.
  - exists i, caps. auto.
  - destruct (nth_error s i) as [c|] eqn:E; [|discriminate].
    destruct (p c); [|discriminate].
    assert (i < length s) by (apply nth_error_Some; congruence).
    exists (S i), caps. auto.
  - apply IH1 in H; [|exact Hi]. destruct H as (j & c & Hij & Hj & H).
    apply IH2 in H; [|exact Hj]. destruct H as (j' & c' & Hjj & Hj' & H).
    exists j', c'. split; [lia|auto].
  - destruct (step s r1 i caps k) as [a|] eqn:E.
    + inversion H; subst a. now apply IH1 in E.
    + now apply IH2 in H.
  - revert H. generalize (S (length s - i)) as n. intros n. revert i caps Hi.
    induction n as [|n IHn]; intros i caps Hi H; cbn [starLoop] in H.
    + exists i, caps. auto.
    + match type of H with
      | match ?X with _ => _ end = _ => destruct X as [a|] eqn:E
      end.
      * inversion H; subst a. apply IH1 in E; [|exact Hi].
        destruct E as (j & c & Hij & Hj & E).
        destruct (i <? j) eqn:Elt; [|discriminate].
        apply IHn in E; [|exact Hj]. destruct E as (j' & c' & Hjj & Hj' & E).
        exists j', c'. split; [lia|auto].
      * exists i, caps. auto.
  - destruct (i =? 0); [|discriminate]. exists i, caps. auto.
  - destruct (atWordBoundary s i); [|discriminate]. exists i, caps. auto.
  - apply IH1 in H; [|exact Hi]. destruct H as (j & c & Hij & Hj & H).
    exists j, ((n, (i, j)) :: c). auto.
Qed.

Lemma search_sound (s : bytes) (r : regex) (n i a0 a1 : nat) (c : captures) :
  i + n <= length s ->
  search s r n i = Some (a0, a1, c) ->
  i <= a0 /\ a0 <= a1 /\ a1 <= length s.
Proof.
  revert i. induction n as [|n IH]; intros i Hi H; cbn [search] in H.
  - destruct (matchAt s r i) as [[j c']|] eqn:E; [|discriminate].
    inversion H; subst. unfold matchAt in E.
    apply step_sound in E; [|lia]. destruct E as (j & c' & H1 & H2 & E).
    inversion E; subst. lia.
  - destruct (matchAt s r i) as [[j c']|] eqn:E.
    + inversion H; subst. unfold matchAt in E.
      apply step_sound in E; [|lia]. destruct E as (j & c' & H1 & H2 & E).
      inversion E; subst. lia.
    + apply IH in H; lia.
Qed.

(** Every compiled pattern keeps the contract of the package. *)
Lemma MustCompile_ok (r : regex) : exec_ok (MustCompile r).
Proof.
  intros s pos a0 a1 c H. cbn [doExecute MustCompile] in H.
  destruct (pos <=? length s) eqn:E; [|discriminate].
  apply Nat.leb_le in E. apply search_sound in H; [exact H|lia].
Qed.

(** ** Match spans *)

Lemma spansOK_weaken (lo lo' len : nat) (spans : list (nat * nat)) :
  lo <= lo' -> spansOK lo' len spans -> spansOK lo len spans.
Proof.
  destruct spans as [|[s e] rest]; cbn; [auto|]. intros H (H1 & H2 & H3 & H4).
  repeat split; auto. lia.
Qed.

Lemma allMatches_ok (re : Regexp) (s : bytes) :
  exec_ok re ->
  forall (fuel pos : nat) (prev : option nat),
    spansOK pos (length s) (allMatches re s fuel pos prev).
Proof.
  intros Hok. induction fuel as [|fuel IH]; intros pos prev; cbn [allMatches].
  - exact I.
  - destruct (pos <=? length s); [|exact I].
    destruct (doExecute re s pos) as [[[m0 m1] c]|] eqn:E; [|exact I].
    apply Hok in E. destruct E as (H0 & H1 & H2).
    set (pos' := if m1 =? pos
                 then (if 0 <? runeWidth (skipn pos s)
                       then pos + runeWidth (skipn pos s) else length s + 1)
                 else m1).
    assert (Hp : m1 <= pos' /\ pos <= pos').
    { unfold pos'. destruct (m1 =? pos) eqn:E1.
      - apply Nat.eqb_eq in E1. destruct (0 <? runeWidth (skipn pos s)); lia.
      - lia. }
    specialize (IH pos' (Some m1)).
    match goal with
    | |- spansOK _ _ (if ?b then _ else _) => destruct b
    end.
    + cbn [spansOK]. repeat split; auto.
      apply (spansOK_weaken m1 pos'); [lia|exact IH].
    + apply (spansOK_weaken pos pos'); [lia|exact IH].
Qed.

Lemma FindAllStringIndex_ok (re : Regexp) (s : bytes) :
  exec_ok re -> spansOK 0 (length s) (FindAllStringIndex re s).
Proof. intros H. apply allMatches_ok, H. Qed.

Lemma slice_skipn (s : bytes) (lo hi : nat) :
  lo <= hi -> slice s lo hi ++ skipn hi s = skipn lo s.
Proof.
  intros H. unfold slice.
  rewrite <- (firstn_skipn (hi - lo) (skipn lo s)) at 2.
  f_equal. rewrite skipn_skipn. f_equal. lia.
Qed.

Lemma slice_empty (s : bytes) (lo : nat) : slice s lo lo = [].
Proof. unfold slice. now rewrite Nat.sub_diag. Qed.

Lemma slice_nonempty (s : bytes) (lo hi : nat) :
  lo < hi -> hi <= length s -> slice s lo hi <> [].
Proof.
  intros H1 H2 E. apply (f_equal (@length ascii)) in E.
  unfold slice in E. rewrite length_firstn, length_skipn in E. simpl in E. lia.
Qed.

Lemma plain_text (t : bytes) : concat (map segText (plain t)) = t.
Proof. destruct t; cbn; [reflexivity|]. now rewrite app_nil_r. Qed.

(** The segments are the line, cut. *)
Lemma segments_text (raw : bytes) (spans : list (nat * nat)) :
  forall last, spansOK last (length raw) spans ->
               concat (map segText (segments raw last spans)) = skipn last raw.
Proof.
  induction spans as [|[s e] rest IH]; intros last H; cbn [segments].
  - apply plain_text.
  - cbn [spansOK] in H. destruct H as (H1 & H2 & H3 & H4).
    rewrite map_app, concat_app, plain_text. cbn [map concat segText].
    rewrite IH by exact H4.
    rewrite slice_skipn by lia. apply slice_skipn. lia.
Qed.

Example FindAllStringIndex_star :
  FindAllStringIndex (MustCompile (Star (Chr "x"))) (lit "axxb") = [(0, 0); (1, 3); (4, 4)].
Proof. reflexivity. Qed.

Example FindAllStringIndex_level :
  FindAllStringIndex reLvl (lit "warning: Err, info") = [(0, 7); (9, 12); (14, 18)].
Proof. vm_compute. reflexivity. Qed.

(** ** [renderLine] *)

Example colorizeGeneric_level :
  colorizeGeneric (lit "ERROR boom") true = ansiRed ++ lit "ERROR" ++ ansiReset ++ lit " boom".
Proof. vm_compute. reflexivity. Qed.

Example renderLine_gaps :
  renderLine (lit "an ERROR here") (Some (MustCompile (Str "ERROR"))) true =
    lit "an " ++ ansiCyan ++ lit "ERROR" ++ ansiReset ++ lit " here".
Proof. vm_compute. reflexivity. Qed.

Lemma colorizeGeneric_nil : colorizeGeneric [] true = [].
Proof. reflexivity. Qed.

Lemma plain_render (t : bytes) :
  t <> [] -> concat (map (renderSegment true) (plain t)) = colorizeGeneric t true.
Proof. destruct t; [congruence|]. intros _. cbn. now rewrite app_nil_r. Qed.

(** The span loop and the closing remainder render the segments from
    [last] on. *)
Lemma renderSpan_segments (raw : bytes) (spans : list (nat * nat)) :
  forall (out : bytes) (last : nat),
    spansOK last (length raw) spans ->
    (let '(out', last') := fold_left (renderSpan raw true) spans (out, last) in
     if last' <? length raw
     then out' ++ colorizeGeneric (skipn last' raw) true
     else out') =
    out ++ concat (map (renderSegment true) (segments raw last spans)).
Proof.
  induction spans as [|[s e] rest IH]; intros out last H.
  - cbn [fold_left segments]. destruct (last <? length raw) eqn:E.
    + apply Nat.ltb_lt in E. rewrite plain_render; [reflexivity|].
      intros E'. apply (f_equal (@length ascii)) in E'.
      rewrite length_skipn in E'. simpl in E'. lia.
    + apply Nat.ltb_ge in E. rewrite skipn_all2 by exact E. cbn.
      now rewrite app_nil_r.
  - cbn [spansOK] in H. destruct H as (H1 & H2 & H3 & H4).
    cbn [fold_left segments]. unfold renderSpan at 2.
    rewrite IH by exact H4.
    rewrite map_app, concat_app. cbn [map concat renderSegment].
    destruct (last <? s) eqn:E.
    + apply Nat.ltb_lt in E.
      rewrite plain_render by (apply slice_nonempty; lia).
      now rewrite <- !app_assoc.
    + apply Nat.ltb_ge in E. assert (s = last) by lia. subst s.
      rewrite slice_empty. cbn. now rewrite <- !app_assoc.
Qed.

(** The overlay of [renderLine].  With a filter and coloring on,
    [renderLine] cuts the raw line at
    the match spans found on the raw text: the segments are the line; the
    segments outside the matches get the generic coloring, each match is
    wrapped, its bytes as they are, in the match color and the reset
    code, so that it carries one wrapper and no color code inside; a line
    that is one match is the wrapped line, whatever level keyword it
    holds. *)
Theorem renderLine_overlay (re : Regexp) (raw : bytes) :
  exec_ok re ->
  let spans := FindAllStringIndex re raw in
  let segs := segments raw 0 spans in
  concat (map segText segs) = raw
  /\ renderLine raw (Some re) true = concat (map (renderSegment true) segs)
  /\ (forall t, count_occ ascii_dec t ESC = 0 ->
                count_occ ascii_dec (renderSegment true (Matched t)) ESC = 2)
  /\ (spans = [(0, length raw)] ->
      renderLine raw (Some re) true = ansiCyan ++ raw ++ ansiReset).
Proof.
  intros Hok. cbn zeta.
  pose proof (FindAllStringIndex_ok re raw Hok) as Hs.
  assert (R : renderLine raw (Some re) true =
              concat (map (renderSegment true)
                          (segments raw 0 (FindAllStringIndex re raw)))).
  { unfold renderLine. cbn [negb].
    destruct (FindAllStringIndex re raw) as [|sp rest] eqn:E.
    - cbn [segments skipn]. destruct raw as [|c raw].
      + reflexivity.
      + cbn. now rewrite app_nil_r.
    - exact (renderSpan_segments raw (sp :: rest) [] 0 Hs). }
  split; [|split; [|split]].
  - now rewrite segments_text.
  - exact R.
  - intros t Ht. cbn [renderSegment].
    rewrite !count_occ_app, Ht. reflexivity.
  - intros E. rewrite R, E. cbn [segments]. rewrite slice_empty.
    unfold slice. rewrite Nat.sub_0_r. cbn [skipn plain app].
    rewrite firstn_all, skipn_all. cbn. now rewrite app_nil_r.
Qed.

(** A line that is the level keyword [ERROR], matched by the filter
    [ERROR]: one wrapper, in the match color. *)
Lemma renderLine_overlay_witness :
  renderLine (lit "ERROR") (Some (MustCompile (Str "ERROR"))) true =
    ansiCyan ++ lit "ERROR" ++ ansiReset.
Proof.
  exact (proj2 (proj2 (proj2
           (renderLine_overlay (MustCompile (Str "ERROR")) (lit "ERROR")
              (MustCompile_ok (Str "ERROR"))))) eq_refl).
Defined.

(** C8.  The match color is not a color of its own.  On the line
    [10.0.0.1 x] with the filter [x] the line is cut into the gap
    [10.0.0.1 ] and the match [x]; the match is wrapped, its byte as it
    is, between [ansiCyan] and the reset code, and the address in the gap,
    which is no match, is opened by the same [ansiCyan], the color of the
    address pass of [colorizeGeneric]: in the output the match and the
    address carry the same highlight. *)
Theorem match_color_is_the_address_color :
  segments (lit "10.0.0.1 x") 0
           (FindAllStringIndex (MustCompile (Chr "x")) (lit "10.0.0.1 x")) =
    [Plain (lit "10.0.0.1 "); Matched (lit "x")]
  /\ renderLine (lit "10.0.0.1 x") (Some (MustCompile (Chr "x"))) true =
       (ansiCyan ++ lit "10." ++ (ansiBold ++ lit "0" ++ ansiReset) ++ lit "."
        ++ (ansiBold ++ lit "0" ++ ansiReset) ++ lit "."
        ++ (ansiBold ++ lit "1" ++ ansiReset) ++ ansiReset)
       ++ lit " " ++ (ansiCyan ++ lit "x" ++ ansiReset)
  /\ renderSegment true (Matched (lit "x")) = wrap ansiCyan (lit "x")
  /\ ReplaceAllStringFunc reIP (lit "10.0.0.1 ") (wrap ansiCyan) =
       wrap ansiCyan (lit "10.0.0.1") ++ lit " "
  /\ In (reIP, wrap ansiCyan) genericPasses.
Proof.
  split; [vm_compute; reflexivity|]. split; [vm_compute; reflexivity|].
  split; [reflexivity|]. split; [vm_compute; reflexivity|].
  right. right. left. reflexivity.
Qed.

(** ** [colorizeGeneric] *)

(** A replacement pass rewrites the matches and copies the text between
    them: its result is the source, cut into segments, with the
    replacement applied to the matched ones. *)
Lemma replaceAll_segments (re : Regexp) (src : bytes) (f : bytes -> bytes) :
  exec_ok re ->
  forall (fuel lastMatchEnd searchPos : nat) (buf : bytes),
    lastMatchEnd <= searchPos ->
    exists segs : list segment,
      concat (map segText segs) = skipn lastMatchEnd src /\
      replaceAll re src (fun m => let '(a0, a1, _) := m in f (slice src a0 a1))
                 fuel lastMatchEnd searchPos buf =
        buf ++ concat (map (applyTo f) segs).
Proof.
  intros Hok. induction fuel as [|fuel IH]; intros l sp buf Hl; cbn [replaceAll].
  - exists [Plain (skipn l src)]. cbn. now rewrite !app_nil_r.
  - destruct (sp <=? length src);
      [|exists [Plain (skipn l src)]; cbn; now rewrite !app_nil_r].
    destruct (doExecute re src sp) as [[[a0 a1] c]|] eqn:E;
      [|exists [Plain (skipn l src)]; cbn; now rewrite !app_nil_r].
    apply Hok in E. destruct E as (H0 & H1 & H2).
    set (sp' := if a1 <? sp + runeWidth (skipn sp src)
                then sp + runeWidth (skipn sp src)
                else if a1 <? sp + 1 then sp + 1 else a1).
    assert (Hsp : a1 <= sp').
    { unfold sp'. destruct (a1 <? sp + runeWidth (skipn sp src)) eqn:E1.
      - apply Nat.ltb_lt in E1. lia.
      - destruct (a1 <? sp + 1) eqn:E2; [apply Nat.ltb_lt in E2|]; lia. }
    destruct ((l <? a1) || (a0 =? 0)) eqn:Ec.
    + destruct (IH a1 sp' ((buf ++ slice src l a0) ++ f (slice src a0 a1)) Hsp)
        as (segs & Ht & Hr).
      exists (Plain (slice src l a0) :: Matched (slice src a0 a1) :: segs).
      split.
      * cbn [map concat segText]. rewrite Ht.
        rewrite slice_skipn by lia. apply slice_skipn. lia.
      * rewrite Hr. cbn [map concat applyTo]. now rewrite <- !app_assoc.
    + apply orb_false_iff in Ec. destruct Ec as [Ec _].
      apply Nat.ltb_ge in Ec. assert (a1 = l /\ a0 = l) as [-> ->] by lia.
      destruct (IH l sp' (buf ++ slice src l l) Hsp) as (segs & Ht & Hr).
      exists segs. split; [exact Ht|].
      rewrite Hr, slice_empty. now rewrite app_nil_r.
Qed.

Lemma ReplaceAllStringFunc_segments (re : Regexp) (src : bytes) (f : bytes -> bytes) :
  exec_ok re ->
  exists segs : list segment,
    concat (map segText segs) = src /\
    ReplaceAllStringFunc re src f = concat (map (applyTo f) segs).
Proof.
  intros Hok.
  destruct (replaceAll_segments re src f Hok (length src + 2) 0 0 [] (le_n 0))
    as (segs & Ht & Hr).
  exists segs. split; [exact Ht|exact Hr].
Qed.

Lemma genericPasses_ok (p : Regexp * (bytes -> bytes)) :
  In p genericPasses -> exec_ok (fst p).
Proof.
  cbn. intros H.
  repeat (destruct H as [<-|H]; [apply MustCompile_ok|]). destruct H.
Qed.

(** What a pass puts in the place of a match: the match itself, between
    a color code and the reset code (or, for the level pass and a word
    outside its vocabulary, the match as it is). *)
Lemma genericPasses_wrap (p : Regexp * (bytes -> bytes)) (x : bytes) :
  In p genericPasses ->
  snd p x = x \/ exists color, In color markers /\ snd p x = color ++ x ++ ansiReset.
Proof.
  cbn [genericPasses In]. intros H.
  destruct H as [<-|[<-|[<-|[<-|[<-|[<-|[]]]]]]]; cbn [snd]; unfold wrap.
  - right. exists ansiDim. split; [cbn; tauto|reflexivity].
  - right. exists ansiMagenta. split; [cbn; tauto|reflexivity].
  - right. exists ansiCyan. split; [cbn; tauto|reflexivity].
  - right. exists ansiMagenta. split; [cbn; tauto|reflexivity].
  - unfold colorLevel.
    destruct (bytes_eqb (ToUpper x) (lit "DEBUG"));
      [right; exists ansiBlue; split; [cbn; tauto|reflexivity]|].
    destruct (bytes_eqb (ToUpper x) (lit "INFO"));
      [right; exists ansiGreen; split; [cbn; tauto|reflexivity]|].
    destruct (bytes_eqb (ToUpper x) (lit "WARN") || bytes_eqb (ToUpper x) (lit "WARNING"));
      [right; exists ansiYellow; split; [cbn; tauto|reflexivity]|].
    destruct (bytes_eqb (ToUpper x) (lit "ERROR") || bytes_eqb (ToUpper x) (lit "ERR")
              || bytes_eqb (ToUpper x) (lit "CRIT") || bytes_eqb (ToUpper x) (lit "FATAL")
              || bytes_eqb (ToUpper x) (lit "FAIL"));
      [right; exists ansiRed; split; [cbn; tauto|reflexivity]|].
    now left.
  - right. exists ansiBold. split; [cbn; tauto|reflexivity].
Qed.

(** ** What the matcher finds *)

Lemma step_matches (s : bytes) (A : Type) (r : regex) :
  forall (i : nat) (caps : captures) (k : nat -> captures -> option A) (res : A),
    step s r i caps k = Some res ->
    exists j c, Matches s r i j /\ k j c = Some res.
Proof.
  induction r as [|p|r1 IH1 r2 IH2|r1 IH1 r2 IH2|r1 IH1| | |n r1 IH1];
    intros i caps k res H; cbn [step] in H.
  - exists i, caps. split; [constructor|exact H].
  - destruct (nth_error s i) as [c|] eqn:E; [|discriminate].
    destruct (p c) eqn:Ep; [|discriminate].
    exists (S i), caps. split; [eapply MClass; eauto|exact H].
  - apply IH1 in H. destruct H as (j & c & M1 & H).
    apply IH2 in H. destruct H as (j' & c' & M2 & H).
    exists j', c'. split; [eapply MCat; eauto|exact H].
  - destruct (step s r1 i caps k) as [a|] eqn:E.
    + inversion H; subst a. apply IH1 in E. destruct E as (j & c & M & E).
      exists j, c. split; [now apply MAltL|exact E].
    + apply IH2 in H. destruct H as (j & c & M & H).
      exists j, c. split; [now apply MAltR|exact H].
  - revert H. generalize (S (length s - i)) as n. intros n. revert i caps.
    induction n as [|n IHn]; intros i caps H; cbn [starLoop] in H.
    + exists i, caps. split; [constructor|exact H].
    + match type of H with
      | match ?X with _ => _ end = _ => destruct X as [a|] eqn:E
      end.
      * inversion H; subst a. apply IH1 in E. destruct E as (j & c & M & E).
        destruct (i <? j); [|discriminate].
        apply IHn in E. destruct E as (j' & c' & M' & E).
        exists j', c'. split; [eapply MStarS; eauto|exact E].
      * exists i, caps. split; [constructor|exact H].
  - destruct (i =? 0) eqn:E; [|discriminate]. apply Nat.eqb_eq in E. subst i.
    exists 0, caps. split; [constructor|exact H].
  - destruct (atWordBoundary s i) eqn:E; [|discriminate].
    exists i, caps. split; [now constructor|exact H].
  - apply IH1 in H. destruct H as (j & c & M & H).
    exists j, ((n, (i, j)) :: c). split; [now constructor|exact H].
Qed.

Lemma search_matches (s : bytes) (r : regex) (n i a0 a1 : nat) (c : captures) :
  search s r n i = Some (a0, a1, c) -> Matches s r a0 a1.
Proof.
  revert i. induction n as [|n IH]; intros i H; cbn [search] in H.
  - destruct (matchAt s r i) as [[j c']|] eqn:E; [|discriminate].
    inversion H; subst. unfold matchAt in E.
    apply step_matches in E. destruct E as (j & c' & M & E). now inversion E; subst.
  - destruct (matchAt s r i) as [[j c']|] eqn:E.
    + inversion H; subst. unfold matchAt in E.
      apply step_matches in E. destruct E as (j & c' & M & E). now inversion E; subst.
    + now apply IH in H.
Qed.

(** A match found by a compiled pattern is a match of the pattern. *)
Lemma doExecute_matches (r : regex) (s : bytes) (pos a0 a1 : nat) (c : captures) :
  doExecute (MustCompile r) s pos = Some (a0, a1, c) -> Matches s r a0 a1.
Proof.
  cbn [doExecute MustCompile]. destruct (pos <=? length s); [|discriminate].
  apply search_matches.
Qed.

(** The bytes of a match lie in the classes of the pattern. *)
Lemma Matches_chars (s : bytes) (P : ascii -> bool) (r : regex) (i j : nat) :
  Matches s r i j ->
  classesIn P r ->
  i <= j /\ forall k, i <= k < j -> exists c, nth_error s k = Some c /\ P c = true.
Proof.
  induction 1 as [i|p i c Hc Hp|r1 r2 i j k _ IH1 _ IH2|r1 r2 i j _ IH|r1 r2 i j _ IH
                 |r i|r i j k _ IH1 _ IH2| |i Hb|n r i j _ IH]; cbn [classesIn]; intros HP.
  - split; [lia|]. intros k Hk. lia.
  - split; [lia|]. intros k Hk. assert (k = i) by lia. subst k. exists c. auto.
  - destruct HP as [H1 H2]. destruct (IH1 H1) as [L1 C1]. destruct (IH2 H2) as [L2 C2].
    split; [lia|]. intros x Hx. destruct (Nat.lt_ge_cases x j); [apply C1|apply C2]; lia.
  - destruct HP as [H1 _]. auto.
  - destruct HP as [_ H2]. auto.
  - split; [lia|]. intros k Hk. lia.
  - destruct (IH1 HP) as [L1 C1]. destruct (IH2 HP) as [L2 C2].
    split; [lia|]. intros x Hx. destruct (Nat.lt_ge_cases x j); [apply C1|apply C2]; lia.
  - split; [lia|]. intros k Hk. lia.
  - split; [lia|]. intros k Hk. lia.
  - auto.
Qed.

Lemma Matches_minLen (s : bytes) (r : regex) (i j : nat) :
  Matches s r i j -> i + minLen r <= j.
Proof.
  induction 1; cbn [minLen]; lia.
Qed.

Lemma Matches_starts (s : bytes) (r : regex) (i j : nat) :
  Matches s r i j -> startsWithWB r -> atWordBoundary s i = true.
Proof.
  induction 1; cbn [startsWithWB]; intros W; try contradiction; auto.
Qed.

Lemma Matches_ends (s : bytes) (r : regex) (i j : nat) :
  Matches s r i j -> endsWithWB r -> atWordBoundary s j = true.
Proof.
  induction 1; cbn [endsWithWB]; intros W; try contradiction; auto.
Qed.

Lemma Matches_first (s : bytes) (F : ascii -> bool) (r : regex) (i j : nat) :
  Matches s r i j -> i < j -> firstIn F r ->
  exists c, nth_error s i = Some c /\ F c = true.
Proof.
  induction 1 as [i|p i c Hc Hp|r1 r2 i j k M1 IH1 M2 IH2|r1 r2 i j _ IH|r1 r2 i j _ IH
                 |r i|r i j k M1 IH1 M2 IH2| |i Hb|n r i j _ IH];
    cbn [firstIn]; intros Hlt HF; try lia.
  - exists c. auto.
  - destruct HF as [F1 F2]. destruct (Nat.eq_dec i j) as [->|Hne].
    + apply IH2; [exact Hlt|]. apply F2.
      pose proof (Matches_minLen _ _ _ _ M1). lia.
    + apply IH1; [|exact F1]. pose proof (Matches_minLen _ _ _ _ M1). lia.
  - destruct HF as [F1 _]. auto.
  - destruct HF as [_ F2]. auto.
  - destruct (Nat.eq_dec i j) as [->|Hne].
    + apply IH2; auto.
    + apply IH1; [|exact HF]. pose proof (Matches_minLen _ _ _ _ M1). lia.
  - auto.
Qed.

(** ** Colored text *)

Lemma flat_app (a b : list tok) : flat (a ++ b) = flat a ++ flat b.
Proof. unfold flat. now rewrite map_app, concat_app. Qed.

Lemma text_app (a b : list tok) : text (a ++ b) = text a ++ text b.
Proof. unfold text. now rewrite map_app, concat_app. Qed.

Lemma flat_cons (t : tok) (ts : list tok) : flat (t :: ts) = tokBytes t ++ flat ts.
Proof. reflexivity. Qed.

Lemma bnd_0 (ts : list tok) : bnd ts 0 = true.
Proof. destruct ts; reflexivity. Qed.

Lemma bnd_split (ts : list tok) (p : nat) :
  bnd ts p = true ->
  takeT ts p ++ dropT ts p = ts /\ length (flat (takeT ts p)) = p.
Proof.
  revert p. induction ts as [|t ts IH]; intros p H; cbn [bnd takeT dropT] in *.
  - apply Nat.eqb_eq in H. subst p. auto.
  - destruct (p =? 0) eqn:E.
    + apply Nat.eqb_eq in E. subst p. auto.
    + cbn [orb] in H. apply andb_true_iff in H. destruct H as [Hl Hb].
      apply Nat.leb_le in Hl. destruct (IH _ Hb) as [H1 H2].
      split; [cbn [app]; now rewrite H1|].
      rewrite flat_cons, length_app, H2. lia.
Qed.

Lemma skipn_flat (ts : list tok) (p : nat) :
  bnd ts p = true -> skipn p (flat ts) = flat (dropT ts p).
Proof.
  intros H. destruct (bnd_split ts p H) as [H1 H2].
  rewrite <- H1 at 1. rewrite flat_app.
  rewrite skipn_app, H2, Nat.sub_diag, skipn_all2 by lia. reflexivity.
Qed.

Lemma firstn_flat (ts : list tok) (p : nat) :
  bnd ts p = true -> firstn p (flat ts) = flat (takeT ts p).
Proof.
  intros H. destruct (bnd_split ts p H) as [H1 H2].
  rewrite <- H1 at 1. rewrite flat_app.
  rewrite firstn_app, H2, Nat.sub_diag, firstn_all2 by lia.
  cbn. now rewrite app_nil_r.
Qed.

(** Two positions between tokens: the part between them is made of
    whole tokens. *)
Lemma bnd_between (ts : list tok) (a b : nat) :
  bnd ts a = true -> bnd ts b = true -> a <= b ->
  bnd (dropT ts a) (b - a) = true /\
  dropT (dropT ts a) (b - a) = dropT ts b /\
  takeT ts b = takeT ts a ++ takeT (dropT ts a) (b - a).
Proof.
  revert a b. induction ts as [|t ts IH]; intros a b Ha Hb Hab.
  - cbn in Ha, Hb. apply Nat.eqb_eq in Ha, Hb. subst. auto.
  - destruct (a =? 0) eqn:Ea.
    + apply Nat.eqb_eq in Ea. subst a. rewrite Nat.sub_0_r.
      cbn [dropT takeT Nat.eqb app]. auto.
    + assert (Eb : (b =? 0) = false).
      { apply Nat.eqb_neq. apply Nat.eqb_neq in Ea. lia. }
      cbn [bnd] in Ha, Hb. rewrite Ea in Ha. rewrite Eb in Hb. cbn [orb] in Ha, Hb.
      apply andb_true_iff in Ha, Hb. destruct Ha as [La Ha], Hb as [Lb Hb].
      apply Nat.leb_le in La, Lb.
      cbn [dropT takeT]. rewrite Ea, Eb.
      destruct (IH (a - length (tokBytes t)) (b - length (tokBytes t)) Ha Hb)
        as (H1 & H2 & H3); [lia|].
      replace (b - length (tokBytes t) - (a - length (tokBytes t))) with (b - a)
        in H1, H2, H3 by lia.
      repeat split; auto. cbn [app]. now rewrite H3.
Qed.

Lemma slice_flat (ts : list tok) (a b : nat) :
  bnd ts a = true -> bnd ts b = true -> a <= b ->
  slice (flat ts) a b = flat (takeT (dropT ts a) (b - a)).
Proof.
  intros Ha Hb Hab. unfold slice. rewrite skipn_flat by exact Ha.
  apply firstn_flat. now apply bnd_between.
Qed.

Lemma tokOK_split (ts : list tok) (p : nat) :
  bnd ts p = true -> Forall tokOK ts ->
  Forall tokOK (takeT ts p) /\ Forall tokOK (dropT ts p).
Proof.
  intros H F. destruct (bnd_split ts p H) as [H1 _]. rewrite <- H1 in F.
  now apply Forall_app in F.
Qed.

(** A text without markers: every position lies between tokens. *)
Lemma bnd_chars (l : bytes) (p : nat) : p <= length l -> bnd (map Ch l) p = true.
Proof.
  revert p. induction l as [|c l IH]; intros p H; cbn [map bnd].
  - cbn in H. apply Nat.eqb_eq. lia.
  - destruct (p =? 0) eqn:E; [reflexivity|]. apply Nat.eqb_neq in E.
    cbn [orb tokBytes length]. cbn [length] in H.
    apply andb_true_iff. split; [apply Nat.leb_le; lia|]. apply IH. lia.
Qed.

Lemma flat_chars (l : bytes) : flat (map Ch l) = l.
Proof. induction l as [|c l IH]; [reflexivity|]. rewrite map_cons, flat_cons, IH. reflexivity. Qed.

Lemma text_chars (l : bytes) : text (map Ch l) = l.
Proof.
  induction l as [|c l IH]; [reflexivity|].
  unfold text in *. cbn [map concat tokText app]. now rewrite IH.
Qed.

Lemma tokOK_chars (l : bytes) : ~ In ESC l -> Forall tokOK (map Ch l).
Proof.
  induction l as [|c l IH]; intros H; cbn [map]; constructor.
  - cbn. intros ->. apply H. now left.
  - apply IH. intros H'. apply H. now right.
Qed.

(** The nine markers: escape, bracket, one or two digits, [m]. *)
Lemma marker_shape (m : bytes) :
  In m markers ->
  exists d, isDigit d = true /\
            (m = [ESC; "["%char; d; "m"%char] \/
             exists d2, isDigit d2 = true /\ m = [ESC; "["%char; d; d2; "m"%char]).
Proof.
  cbn [markers In]. intros H.
  destruct H as [<-|[<-|[<-|[<-|[<-|[<-|[<-|[<-|[<-|[]]]]]]]]]].
  - exists "0"%char. split; [reflexivity|left; reflexivity].
  - exists "2"%char. split; [reflexivity|left; reflexivity].
  - exists "1"%char. split; [reflexivity|left; reflexivity].
  - exists "3"%char. split; [reflexivity|right]. exists "1"%char. split; reflexivity.
  - exists "3"%char. split; [reflexivity|right]. exists "2"%char. split; reflexivity.
  - exists "3"%char. split; [reflexivity|right]. exists "3"%char. split; reflexivity.
  - exists "3"%char. split; [reflexivity|right]. exists "4"%char. split; reflexivity.
  - exists "3"%char. split; [reflexivity|right]. exists "5"%char. split; reflexivity.
  - exists "3"%char. split; [reflexivity|right]. exists "6"%char. split; reflexivity.
Qed.

Lemma tokOK_length (t : tok) : tokOK t -> 1 <= length (tokBytes t).
Proof.
  destruct t as [c|m]; cbn [tokOK tokBytes]; [cbn; lia|].
  intros H. destruct (marker_shape m H) as (d & _ & [->|(d2 & _ & ->)]); cbn; lia.
Qed.

(** ** Removing the markers *)

Lemma firstPair_In (pairs : list (bytes * bytes)) (s old new : bytes) :
  firstPair pairs s = Some (old, new) -> In (old, new) pairs /\ hasPrefix s old = true.
Proof.
  induction pairs as [|[o n] rest IH]; cbn [firstPair]; [discriminate|].
  destruct (hasPrefix s o) eqn:E.
  - intros H. inversion H; subst. split; [now left|exact E].
  - intros H. destruct (IH H). split; [now right|assumption].
Qed.

Lemma replacerFrom_enough (pairs : list (bytes * bytes)) :
  (forall old new, In (old, new) pairs -> old <> []) ->
  forall (f1 f2 : nat) (s : bytes),
    length s <= f1 -> length s <= f2 ->
    replacerFrom f1 pairs s = replacerFrom f2 pairs s.
Proof.
  intros Hne. induction f1 as [|f1 IH]; intros f2 s H1 H2.
  - destruct s; [|cbn in H1; lia]. destruct f2; reflexivity.
  - destruct s as [|c s]; [destruct f2; reflexivity|].
    destruct f2 as [|f2]; [cbn in H2; lia|].
    cbn [replacerFrom]. cbn [length] in H1, H2.
    destruct (firstPair pairs (c :: s)) as [[old new]|] eqn:E.
    + f_equal. apply firstPair_In in E. destruct E as [E _].
      apply Hne in E. destruct old as [|o old]; [congruence|].
      cbn [length skipn]. apply IH; rewrite length_skipn; lia.
    + f_equal. apply IH; lia.
Qed.

Lemma stripPairs_nonempty (old new : bytes) : In (old, new) stripPairs -> old <> [].
Proof.
  unfold stripPairs. intros H. apply in_map_iff in H. destruct H as (m & E & H).
  inversion E; subst. destruct (marker_shape _ H) as (d & _ & [->|(d2 & _ & ->)]); discriminate.
Qed.

Lemma stripMarkers_marker (m rest : bytes) :
  In m markers -> stripMarkers (m ++ rest) = stripMarkers rest.
Proof.
  intros H. unfold stripMarkers, Replace.
  assert (F : firstPair stripPairs (m ++ rest) = Some (m, [])).
  { cbn [markers In] in H.
    destruct H as [<-|[<-|[<-|[<-|[<-|[<-|[<-|[<-|[<-|[]]]]]]]]]]; reflexivity. }
  assert (L : exists c t, m = c :: t).
  { destruct (marker_shape m H) as (d & _ & [->|(d2 & _ & ->)]); eauto. }
  destruct L as (c & t & ->).
  rewrite length_app. cbn [length Nat.add app replacerFrom].
  cbn [app] in F. rewrite F. cbn [app].
  change (c :: t ++ rest) with ((c :: t) ++ rest).
  rewrite skipn_app, skipn_all, Nat.sub_diag. cbn [app skipn].
  apply replacerFrom_enough; [exact stripPairs_nonempty|lia|lia].
Qed.

Lemma firstPair_other (pairs : list (bytes * bytes)) (c : ascii) (rest : bytes) :
  Forall (fun pr => exists t, fst pr = ESC :: t) pairs ->
  c <> ESC -> firstPair pairs (c :: rest) = None.
Proof.
  intros F Hc. assert (E : Ascii.eqb ESC c = false) by (apply Ascii.eqb_neq; congruence).
  induction F as [|[old new] pairs (t & Ht) _ IH]; [reflexivity|].
  cbn [fst] in Ht. subst old. cbn [firstPair hasPrefix]. now rewrite E.
Qed.

Lemma stripMarkers_char (c : ascii) (rest : bytes) :
  c <> ESC -> stripMarkers (c :: rest) = c :: stripMarkers rest.
Proof.
  intros H. unfold stripMarkers, Replace.
  assert (F : firstPair stripPairs (c :: rest) = None).
  { apply firstPair_other; [|exact H].
    repeat constructor; eexists; reflexivity. }
  cbn [length replacerFrom]. now rewrite F.
Qed.

(** Removing the markers of colored text leaves the text. *)
Lemma stripMarkers_flat (ts : list tok) :
  Forall tokOK ts -> stripMarkers (flat ts) = text ts.
Proof.
  induction 1 as [|t ts Ht _ IH]; [reflexivity|].
  rewrite flat_cons. destruct t as [c|m]; cbn [tokOK tokBytes] in *.
  - cbn [app]. rewrite stripMarkers_char by exact Ht. now rewrite IH.
  - rewrite stripMarkers_marker by exact Ht. exact IH.
Qed.

(** A position that does not lie between tokens lies inside a marker,
    as all the positions inside that marker do. *)
Lemma inside_marker (ts : list tok) :
  Forall tokOK ts ->
  forall p, bnd ts p = false -> p <= length (flat ts) ->
    exists q m, In m markers /\ q < p /\ p < q + length m /\
                (forall k, k < length m -> nth_error (flat ts) (q + k) = nth_error m k) /\
                (forall p', q < p' < q + length m -> bnd ts p' = false).
Proof.
  induction 1 as [|t ts Ht Hts IH]; intros p Hb Hp.
  - cbn in Hb, Hp. apply Nat.eqb_neq in Hb. lia.
  - cbn [bnd] in Hb. apply orb_false_iff in Hb. destruct Hb as [H0 Hb].
    apply Nat.eqb_neq in H0. apply andb_false_iff in Hb.
    rewrite flat_cons, length_app in Hp.
    destruct (Nat.lt_ge_cases p (length (tokBytes t))) as [Hlt|Hge].
    + destruct t as [c|m]; cbn [tokBytes tokOK length] in *; [lia|].
      exists 0, m. repeat split; auto; try lia.
      * intros k Hk. rewrite flat_cons. cbn [tokBytes Nat.add].
        now rewrite nth_error_app1.
      * intros p' Hp'. cbn [bnd tokBytes].
        apply orb_false_iff. split; [apply Nat.eqb_neq; lia|].
        apply andb_false_iff. left. apply Nat.leb_gt. lia.
    + destruct Hb as [Hb|Hb]; [apply Nat.leb_gt in Hb; lia|].
      destruct (IH _ Hb) as (q & m & Hm & Hq & Hq' & Hk & Hin); [lia|].
      exists (length (tokBytes t) + q), m. repeat split; auto; try lia.
      * intros k Hlt. rewrite flat_cons, nth_error_app2 by lia.
        replace (length (tokBytes t) + q + k - length (tokBytes t)) with (q + k) by lia.
        now apply Hk.
      * intros p' Hp'. cbn [bnd].
        apply orb_false_iff. split; [apply Nat.eqb_neq; lia|].
        apply andb_false_iff. right. apply Hin. lia.
Qed.

(** ** Where a pass can cut colored text *)

Lemma ascii_all (f : ascii -> bool) :
  forallb f (map ascii_of_nat (seq 0 256)) = true -> forall c, f c = true.
Proof.
  intros H c. rewrite forallb_forall in H. apply H.
  rewrite <- (ascii_nat_embedding c). apply in_map, in_seq.
  pose proof (nat_ascii_bounded c). lia.
Qed.

Lemma isDigit_word (c : ascii) : isDigit c = true -> isWordChar c = true.
Proof.
  revert c. intros c H.
  assert (G : implb (isDigit c) (isWordChar c) = true).
  { revert c H. intros c _. revert c. apply ascii_all. vm_compute. reflexivity. }
  rewrite H in G. exact G.
Qed.

(** The bytes of a marker after its escape byte. *)
Lemma marker_inner (m : bytes) (o : nat) :
  In m markers -> 1 <= o < length m ->
  exists x, nth_error m o = Some x /\
            (x = "["%char \/ x = "m"%char \/ isDigit x = true).
Proof.
  intros H Ho. destruct (marker_shape m H) as (d & Hd & [->|(d2 & Hd2 & ->)]);
    cbn [length] in Ho.
  - assert (C : o = 1 \/ o = 2 \/ o = 3) by lia.
    destruct C as [-> | [-> | ->]]; cbn; eauto.
  - assert (C : o = 1 \/ o = 2 \/ o = 3 \/ o = 4) by lia.
    destruct C as [-> | [-> | [-> | ->]]]; cbn; eauto.
Qed.

Lemma marker_first (m : bytes) : In m markers -> nth_error m 0 = Some ESC.
Proof.
  intros H. destruct (marker_shape m H) as (d & Hd & [->|(d2 & Hd2 & ->)]); reflexivity.
Qed.

(** A position before a byte that no marker holds after its escape byte
    lies between tokens. *)
Lemma bnd_by_char (ts : list tok) (p : nat) :
  Forall tokOK ts -> p <= length (flat ts) ->
  (forall x, nth_error (flat ts) p = Some x ->
             x <> "["%char /\ x <> "m"%char /\ isDigit x = false) ->
  bnd ts p = true.
Proof.
  intros F Hp Hx. destruct (bnd ts p) eqn:E; [reflexivity|].
  destruct (inside_marker ts F p E Hp) as (q & m & Hm & Hq & Hq' & Hk & _).
  destruct (marker_inner m (p - q) Hm) as (x & Hn & Hc); [lia|].
  specialize (Hk (p - q)). replace (q + (p - q)) with p in Hk by lia.
  rewrite Hn in Hk. destruct (Hx x) as (H1 & H2 & H3); [apply Hk; lia|].
  destruct Hc as [->|[->|Hd]]; congruence.
Qed.

Lemma no_boundary_in_word (s : bytes) (j : nat) (x y : ascii) :
  nth_error s j = Some x -> nth_error s (S j) = Some y ->
  isWordChar x = true -> isWordChar y = true ->
  atWordBoundary s (S j) = false.
Proof.
  intros Hx Hy Wx Wy. unfold atWordBoundary, isWordAt. now rewrite Hx, Hy, Wx, Wy.
Qed.

(** Inside a marker, [\b] holds only between the bracket and the first
    digit. *)
Lemma inside_neighbours (ts : list tok) (p : nat) :
  Forall tokOK ts -> bnd ts p = false -> p <= length (flat ts) ->
  atWordBoundary (flat ts) p = true ->
  exists j d, p = S j /\ isDigit d = true /\
    nth_error (flat ts) j = Some "["%char /\
    nth_error (flat ts) p = Some d /\
    (nth_error (flat ts) (p + 1) = Some "m"%char \/
     exists d2, isDigit d2 = true /\
                nth_error (flat ts) (p + 1) = Some d2 /\
                nth_error (flat ts) (p + 2) = Some "m"%char).
Proof.
  intros F E Hp Hb.
  destruct (inside_marker ts F p E Hp) as (q & m & Hm & Hq & Hq' & Hk & _).
  set (s := flat ts) in *.
  assert (K : forall o x, nth_error m o = Some x -> nth_error s (q + o) = Some x).
  { intros o x Hx. rewrite Hk; [exact Hx|]. apply nth_error_Some. congruence. }
  destruct (marker_shape m Hm) as (d & Hd & [->|(d2 & Hd2 & ->)]); cbn [length] in Hq'.
  - pose proof (K 0 _ eq_refl) as K0. pose proof (K 1 _ eq_refl) as K1.
    pose proof (K 2 _ eq_refl) as K2. pose proof (K 3 _ eq_refl) as K3.
    pose proof (isDigit_word d Hd) as Wd.
    assert (C : p = S (q + 0) \/ p = S (q + 1) \/ p = S (q + 2)) by lia.
    destruct C as [-> | [-> | ->]].
    + exfalso. replace (q + 1) with (S (q + 0)) in K1 by lia.
      unfold atWordBoundary, isWordAt in Hb. rewrite K0, K1 in Hb. discriminate.
    + exists (q + 1), d. replace (q + 2) with (S (q + 1)) in K2 by lia.
      repeat split; auto. left. rewrite <- K3. f_equal. lia.
    + exfalso. replace (q + 3) with (S (q + 2)) in K3 by lia.
      rewrite (no_boundary_in_word s (q + 2) d "m" K2 K3 Wd eq_refl) in Hb. discriminate.
  - pose proof (K 0 _ eq_refl) as K0. pose proof (K 1 _ eq_refl) as K1.
    pose proof (K 2 _ eq_refl) as K2. pose proof (K 3 _ eq_refl) as K3.
    pose proof (K 4 _ eq_refl) as K4.
    pose proof (isDigit_word d Hd) as Wd. pose proof (isDigit_word d2 Hd2) as Wd2.
    assert (C : p = S (q + 0) \/ p = S (q + 1) \/ p = S (q + 2) \/ p = S (q + 3)) by lia.
    destruct C as [-> | [-> | [-> | ->]]].
    + exfalso. replace (q + 1) with (S (q + 0)) in K1 by lia.
      unfold atWordBoundary, isWordAt in Hb. rewrite K0, K1 in Hb. discriminate.
    + exists (q + 1), d. replace (q + 2) with (S (q + 1)) in K2 by lia.
      repeat split; auto. right. exists d2. repeat split; auto.
      * rewrite <- K3. f_equal. lia.
      * rewrite <- K4. f_equal. lia.
    + exfalso. replace (q + 3) with (S (q + 2)) in K3 by lia.
      rewrite (no_boundary_in_word s (q + 2) d d2 K2 K3 Wd Wd2) in Hb. discriminate.
    + exfalso. replace (q + 4) with (S (q + 3)) in K4 by lia.
      rewrite (no_boundary_in_word s (q + 3) d2 "m" K3 K4 Wd2 eq_refl) in Hb. discriminate.
Qed.

(** A match between two [\b], of bytes among which the bracket is not,
    and either [m] or the digits are not: both ends lie between tokens. *)
Lemma wordbounded_bnd (ts : list tok) (P : ascii -> bool) (a0 a1 : nat) :
  Forall tokOK ts ->
  a0 < a1 -> a1 <= length (flat ts) ->
  atWordBoundary (flat ts) a0 = true ->
  atWordBoundary (flat ts) a1 = true ->
  (forall k, a0 <= k < a1 -> exists c, nth_error (flat ts) k = Some c /\ P c = true) ->
  P "["%char = false ->
  (P "m"%char = false \/ forall c, isDigit c = true -> P c = false) ->
  bnd ts a0 = true /\ bnd ts a1 = true.
Proof.
  intros F Hlt Hlen B0 B1 HP Pb Pm.
  assert (E1 : bnd ts a1 = true).
  { destruct (bnd ts a1) eqn:E; [reflexivity|exfalso].
    destruct (inside_neighbours ts a1 F E Hlen B1) as (j & d & -> & _ & Hj & _).
    destruct (HP j) as (c & Hc & Hpc); [lia|]. congruence. }
  split; [|exact E1].
  destruct (bnd ts a0) eqn:E; [reflexivity|exfalso].
  destruct (inside_neighbours ts a0 F E) as (j & d & -> & Hd & _ & H0 & Hn); [lia|exact B0|].
  set (s := flat ts) in *. pose proof (isDigit_word d Hd) as Wd.
  destruct (HP (S j)) as (c & Hc & Hpc); [lia|].
  assert (c = d) by congruence. subst c.
  destruct Pm as [Pm|Pm]; [|rewrite (Pm d Hd) in Hpc; discriminate].
  destruct Hn as [Hm|(d2 & Hd2 & H1 & Hm)].
  - replace (S j + 1) with (S (S j)) in Hm by lia.
    destruct (Nat.eq_dec a1 (S (S j))) as [->|Hne].
    + rewrite (no_boundary_in_word s (S j) d "m" H0 Hm Wd eq_refl) in B1. discriminate.
    + destruct (HP (S (S j))) as (c & Hc' & Hpc'); [lia|]. congruence.
  - replace (S j + 1) with (S (S j)) in H1 by lia.
    replace (S j + 2) with (S (S (S j))) in Hm by lia.
    pose proof (isDigit_word d2 Hd2) as Wd2.
    destruct (Nat.eq_dec a1 (S (S j))) as [->|Hne].
    + rewrite (no_boundary_in_word s (S j) d d2 H0 H1 Wd Wd2) in B1. discriminate.
    + destruct (Nat.eq_dec a1 (S (S (S j)))) as [->|Hne'].
      * rewrite (no_boundary_in_word s (S (S j)) d2 "m" H1 Hm Wd2 eq_refl) in B1.
        discriminate.
      * destruct (HP (S (S (S j)))) as (c & Hc' & Hpc'); [lia|]. congruence.
Qed.

(** A run of bytes among which the escape byte is not, from a position
    between tokens: its end lies between tokens. *)
Lemma run_bnd (ts : list tok) (P : ascii -> bool) (a0 a1 : nat) :
  Forall tokOK ts ->
  a0 <= a1 -> a1 <= length (flat ts) ->
  bnd ts a0 = true ->
  (forall k, a0 <= k < a1 -> exists c, nth_error (flat ts) k = Some c /\ P c = true) ->
  P ESC = false ->
  bnd ts a1 = true.
Proof.
  intros F Hle Hlen B0 HP Pe.
  destruct (bnd ts a1) eqn:E; [reflexivity|exfalso].
  destruct (inside_marker ts F a1 E Hlen) as (q & m & Hm & Hq & Hq' & Hk & Hin).
  destruct (Nat.le_gt_cases a0 q) as [Hge|Hlt].
  - destruct (HP q) as (c & Hc & Hpc); [lia|].
    specialize (Hk 0). rewrite Nat.add_0_r, (marker_first m Hm) in Hk.
    rewrite Hk in Hc by lia. congruence.
  - rewrite Hin in B0 by lia. discriminate.
Qed.

(** ** Greedy repetition *)

Lemma step_Class (s : bytes) (A : Type) (p : ascii -> bool) (i : nat) (caps : captures)
      (k : nat -> captures -> option A) :
  step s (Class p) i caps k =
    match nth_error s i with
    | Some c => if p c then k (S i) caps else None
    | None => None
    end.
Proof. reflexivity. Qed.

Lemma starLoop_class_total (s : bytes) (p : ascii -> bool) (n i : nat) (caps : captures) :
  starLoop (step s (Class p)) (fun j c => Some (j, c)) n i caps <> None.
Proof.
  revert i caps. induction n as [|n IH]; intros i caps; cbn [starLoop]; [discriminate|].
  match goal with
  | |- match ?X with _ => _ end <> None => destruct X
  end; discriminate.
Qed.

(** With nothing to match after it, the repetition of a class stops only
    at a byte outside the class, or at the end of the text. *)
Lemma starLoop_class_max (s : bytes) (p : ascii -> bool) (n i : nat)
      (caps : captures) (res : nat * captures) :
  starLoop (step s (Class p)) (fun j c => Some (j, c)) n i caps = Some res ->
  length s - i < n ->
  forall x, nth_error s (fst res) = Some x -> p x = false.
Proof.
  revert i caps. induction n as [|n IH]; intros i caps H Hn; [lia|].
  cbn [starLoop] in H. rewrite step_Class in H.
  destruct (nth_error s i) as [y|] eqn:E.
  - destruct (p y) eqn:Ep.
    + assert (Elt : (i <? S i) = true) by (apply Nat.ltb_lt; lia).
      rewrite Elt in H.
      destruct (starLoop (step s (Class p)) (fun j c => Some (j, c)) n (S i) caps)
        as [a|] eqn:L.
      * inversion H; subst. apply (IH (S i) caps L).
        assert (i < length s) by (apply nth_error_Some; congruence). lia.
      * exfalso. revert L. apply starLoop_class_total.
    + inversion H; subst res. cbn [fst]. intros x Hx. congruence.
  - inversion H; subst res. cbn [fst]. intros x Hx. congruence.
Qed.

Lemma step_greedy (s : bytes) (p : ascii -> bool) (r : regex) :
  endsGreedy p r ->
  forall (i : nat) (caps : captures) (res : nat * captures),
    step s r i caps (fun j c => Some (j, c)) = Some res ->
    forall x, nth_error s (fst res) = Some x -> p x = false.
Proof.
  induction r as [|q|r1 _ r2 IH2|r1 _ r2 _|r1 _| | |n r1 _];
    cbn [endsGreedy]; intros G i caps res H; try contradiction.
  - cbn [step] in H. apply step_matches in H. destruct H as (j & c & _ & H).
    now apply (IH2 G j c res).
  - destruct r1; try contradiction. subst p0.
    cbn [step] in H. apply (starLoop_class_max s p _ i caps res H). lia.
Qed.

Lemma search_matchAt (s : bytes) (r : regex) (n i a0 a1 : nat) (c : captures) :
  search s r n i = Some (a0, a1, c) -> matchAt s r a0 = Some (a1, c).
Proof.
  revert i. induction n as [|n IH]; intros i H; cbn [search] in H.
  - destruct (matchAt s r i) as [[j c']|] eqn:E; [|discriminate].
    inversion H; subst. exact E.
  - destruct (matchAt s r i) as [[j c']|] eqn:E.
    + inversion H; subst. exact E.
    + now apply IH in H.
Qed.

Lemma doExecute_greedy (r : regex) (p : ascii -> bool) (s : bytes)
      (pos a0 a1 : nat) (c : captures) :
  endsGreedy p r ->
  doExecute (MustCompile r) s pos = Some (a0, a1, c) ->
  forall x, nth_error s a1 = Some x -> p x = false.
Proof.
  intros G H. cbn [doExecute MustCompile] in H.
  destruct (pos <=? length s); [|discriminate].
  apply search_matchAt in H. unfold matchAt in H.
  exact (step_greedy s p r G a0 [] (a1, c) H).
Qed.

(** ** A pass over colored text *)

Lemma dropT_0 (ts : list tok) : dropT ts 0 = ts.
Proof. destruct ts; reflexivity. Qed.

Lemma dropT_between (ts : list tok) (a b : nat) :
  bnd ts a = true -> bnd ts b = true -> a <= b ->
  dropT ts a = takeT (dropT ts a) (b - a) ++ dropT ts b.
Proof.
  intros Ha Hb Hab. destruct (bnd_between ts a b Ha Hb Hab) as (H1 & H2 & _).
  destruct (bnd_split _ _ H1) as [H3 _]. now rewrite H2 in H3.
Qed.

Lemma tokOK_between (ts : list tok) (a b : nat) :
  Forall tokOK ts -> bnd ts a = true -> bnd ts b = true -> a <= b ->
  Forall tokOK (takeT (dropT ts a) (b - a)).
Proof.
  intros F Ha Hb Hab. destruct (bnd_between ts a b Ha Hb Hab) as (H1 & _ & _).
  apply (tokOK_split _ _ H1). now apply (tokOK_split ts a Ha).
Qed.

(** A pass that cuts only between tokens, and puts a match back as it is
    or between a color code and the reset code, keeps every marker whole
    and the text under the markers as it was. *)
Lemma replaceAll_tokens (re : Regexp) (ts : list tok) (f : bytes -> bytes) :
  Forall tokOK ts ->
  exec_ok re ->
  (forall pos a0 a1 c, doExecute re (flat ts) pos = Some (a0, a1, c) ->
                       bnd ts a0 = true /\ bnd ts a1 = true) ->
  (forall x, f x = x \/ exists color, In color markers /\ f x = color ++ x ++ ansiReset) ->
  forall (fuel l sp : nat) (bufT : list tok),
    l <= sp -> bnd ts l = true -> Forall tokOK bufT ->
    exists ts',
      Forall tokOK ts' /\
      text ts' = text bufT ++ text (dropT ts l) /\
      replaceAll re (flat ts) (fun m => let '(a0, a1, _) := m in f (slice (flat ts) a0 a1))
                 fuel l sp (flat bufT) = flat ts'.
Proof.
  intros F Hok Hcut Hf.
  assert (Stop : forall l bufT, bnd ts l = true -> Forall tokOK bufT ->
            exists ts', Forall tokOK ts' /\
                        text ts' = text bufT ++ text (dropT ts l) /\
                        flat bufT ++ skipn l (flat ts) = flat ts').
  { intros l bufT Hl Hb. exists (bufT ++ dropT ts l). repeat split.
    - apply Forall_app. split; [exact Hb|]. now apply (tokOK_split ts l Hl).
    - apply text_app.
    - rewrite flat_app. now rewrite skipn_flat. }
  induction fuel as [|fuel IH]; intros l sp bufT Hl Bl Hb; cbn [replaceAll].
  - now apply Stop.
  - destruct (sp <=? length (flat ts)); [|now apply Stop].
    destruct (doExecute re (flat ts) sp) as [[[a0 a1] c]|] eqn:E; [|now apply Stop].
    destruct (Hcut _ _ _ _ E) as [B0 B1].
    apply Hok in E. destruct E as (H0 & H1 & H2).
    set (sp' := if a1 <? sp + runeWidth (skipn sp (flat ts))
                then sp + runeWidth (skipn sp (flat ts))
                else if a1 <? sp + 1 then sp + 1 else a1).
    assert (Hsp : a1 <= sp').
    { unfold sp'. destruct (a1 <? sp + runeWidth (skipn sp (flat ts))) eqn:E1.
      - apply Nat.ltb_lt in E1. lia.
      - destruct (a1 <? sp + 1) eqn:E2; [apply Nat.ltb_lt in E2|]; lia. }
    set (G := takeT (dropT ts l) (a0 - l)).
    set (M := takeT (dropT ts a0) (a1 - a0)).
    assert (FG : Forall tokOK G) by (apply tokOK_between; auto; lia).
    assert (FM : Forall tokOK M) by (apply tokOK_between; auto; lia).
    assert (DG : dropT ts l = G ++ dropT ts a0) by (apply dropT_between; auto; lia).
    assert (DM : dropT ts a0 = M ++ dropT ts a1) by (apply dropT_between; auto; lia).
    rewrite (slice_flat ts l a0) by (auto; lia). fold G.
    destruct ((l <? a1) || (a0 =? 0)) eqn:Ec.
    + rewrite (slice_flat ts a0 a1) by (auto; lia). fold M.
      destruct (Hf (flat M)) as [Ef|(color & Hc & Ef)]; rewrite Ef.
      * destruct (IH a1 sp' (bufT ++ G ++ M)) as (ts' & F' & T' & R'); auto.
        { repeat (apply Forall_app; split); auto. }
        exists ts'. split; [exact F'|]. split.
        -- rewrite T', DG, DM, !text_app. now rewrite <- !app_assoc.
        -- rewrite <- R'. f_equal. rewrite !flat_app. now rewrite <- !app_assoc.
      * assert (FC : Forall tokOK [Mk color]) by (constructor; [exact Hc|constructor]).
        assert (FR : Forall tokOK [Mk ansiReset]).
        { constructor; [cbn; tauto|constructor]. }
        destruct (IH a1 sp' (bufT ++ G ++ [Mk color] ++ M ++ [Mk ansiReset]))
          as (ts' & F' & T' & R'); auto.
        { repeat (apply Forall_app; split); assumption. }
        exists ts'. split; [exact F'|]. split.
        -- rewrite T', DG, DM, !text_app. cbn [text map concat tokText app].
           rewrite !app_nil_r. now rewrite <- !app_assoc.
        -- rewrite <- R'. f_equal. rewrite !flat_app.
           cbn [flat map concat tokBytes]. rewrite !app_nil_r.
           now rewrite <- !app_assoc.
    + apply orb_false_iff in Ec. destruct Ec as [Ec _]. apply Nat.ltb_ge in Ec.
      assert (a1 = l /\ a0 = l) as [-> ->] by lia.
      unfold G. rewrite Nat.sub_diag.
      assert (Z : flat (takeT (dropT ts l) 0) = []).
      { destruct (dropT ts l); reflexivity. }
      rewrite Z, app_nil_r.
      apply (IH l sp' bufT); auto.
Qed.

Lemma pass_tokens (re : Regexp) (ts : list tok) (f : bytes -> bytes) :
  Forall tokOK ts ->
  exec_ok re ->
  (forall pos a0 a1 c, doExecute re (flat ts) pos = Some (a0, a1, c) ->
                       bnd ts a0 = true /\ bnd ts a1 = true) ->
  (forall x, f x = x \/ exists color, In color markers /\ f x = color ++ x ++ ansiReset) ->
  exists ts', Forall tokOK ts' /\ text ts' = text ts /\
              ReplaceAllStringFunc re (flat ts) f = flat ts'.
Proof.
  intros F Hok Hcut Hf.
  destruct (replaceAll_tokens re ts f F Hok Hcut Hf (length (flat ts) + 2) 0 0 [])
    as (ts' & F' & T' & R'); auto using bnd_0.
  exists ts'. split; [exact F'|]. split.
  - rewrite T', dropT_0. reflexivity.
  - exact R'.
Qed.

(** ** The cuts of the six passes *)

Lemma implb_all (f g : ascii -> bool) :
  forallb (fun c => implb (f c) (g c)) (map ascii_of_nat (seq 0 256)) = true ->
  forall c, f c = true -> g c = true.
Proof.
  intros H c Hf. pose proof (ascii_all _ H c) as G. cbn beta in G.
  now rewrite Hf in G.
Qed.

Lemma digit_not_letter (c : ascii) : isDigit c = true -> isLetter c = false.
Proof.
  intros H. apply negb_true_iff. revert c H. apply implb_all. vm_compute. reflexivity.
Qed.

(** Under [(?i)] a letter matches letters only. *)
Lemma fold_letter (a c : ascii) :
  isLetter a = true -> isByte (lower a) (lower c) = true -> isLetter c = true.
Proof.
  intros Ha Hc.
  assert (G : forall a, (fun a => forallb (fun c =>
                implb (isLetter a && isByte (lower a) (lower c)) (isLetter c))
                (map ascii_of_nat (seq 0 256))) a = true).
  { apply ascii_all. vm_compute. reflexivity. }
  specialize (G a). cbn beta in G.
  pose proof (ascii_all _ G c) as G'. cbn beta in G'.
  now rewrite Ha, Hc in G'.
Qed.

Lemma space_or_slash_outside (x : ascii) :
  isSpaceOrQuote x || isByte "/" x = true ->
  x <> "["%char /\ x <> "m"%char /\ isDigit x = false.
Proof.
  intros H.
  assert (G : negb (isByte "[" x) && negb (isByte "m" x) && negb (isDigit x) = true).
  { revert x H. apply implb_all. vm_compute. reflexivity. }
  apply andb_true_iff in G. destruct G as [G G3].
  apply andb_true_iff in G. destruct G as [G1 G2].
  apply negb_true_iff in G1, G2, G3. unfold isByte in G1, G2.
  apply Ascii.eqb_neq in G1, G2. repeat split; congruence.
Qed.

Lemma space_outside (x : ascii) :
  notSpace x = false ->
  x <> "["%char /\ x <> "m"%char /\ isDigit x = false.
Proof.
  intros H.
  assert (G : negb (isByte "[" x) && negb (isByte "m" x) && negb (isDigit x) = true).
  { apply negb_true_iff in H. revert x H. apply implb_all. vm_compute. reflexivity. }
  apply andb_true_iff in G. destruct G as [G G3].
  apply andb_true_iff in G. destruct G as [G1 G2].
  apply negb_true_iff in G1, G2, G3. unfold isByte in G1, G2.
  apply Ascii.eqb_neq in G1, G2. repeat split; congruence.
Qed.

(** The first pass runs on the bare text. *)
Lemma cut_bare (re : Regexp) (seg : bytes) :
  exec_ok re ->
  forall pos a0 a1 c,
    doExecute re (flat (map Ch seg)) pos = Some (a0, a1, c) ->
    bnd (map Ch seg) a0 = true /\ bnd (map Ch seg) a1 = true.
Proof.
  intros Hok pos a0 a1 c H. apply Hok in H. rewrite flat_chars in H.
  split; apply bnd_chars; lia.
Qed.

(** The passes whose pattern lies between two [\b]. *)
Lemma cut_wordbounded (r : regex) (P : ascii -> bool) (ts : list tok) :
  Forall tokOK ts ->
  startsWithWB r -> endsWithWB r -> classesIn P r -> 1 <= minLen r ->
  P "["%char = false ->
  (P "m"%char = false \/ forall c, isDigit c = true -> P c = false) ->
  forall pos a0 a1 c,
    doExecute (MustCompile r) (flat ts) pos = Some (a0, a1, c) ->
    bnd ts a0 = true /\ bnd ts a1 = true.
Proof.
  intros F Hs He Hc Hm Pb Pm pos a0 a1 c H.
  pose proof (MustCompile_ok r _ _ _ _ _ H) as (_ & _ & Hlen).
  apply doExecute_matches in H.
  pose proof (Matches_minLen _ _ _ _ H).
  apply (wordbounded_bnd ts P a0 a1); auto; try lia.
  - now apply (Matches_starts _ _ _ _ H).
  - now apply (Matches_ends _ _ _ _ H).
  - now apply (Matches_chars _ P _ _ _ H).
Qed.

Lemma cut_Num (ts : list tok) :
  Forall tokOK ts ->
  forall pos a0 a1 c,
    doExecute reNum (flat ts) pos = Some (a0, a1, c) ->
    bnd ts a0 = true /\ bnd ts a1 = true.
Proof.
  intros F. apply (cut_wordbounded patNum isDigit ts F); try exact I.
  - cbn [patNum Seq Plus Digit classesIn]. repeat split; auto.
  - cbn. lia.
  - reflexivity.
  - left. reflexivity.
Qed.

Lemma cut_IP (ts : list tok) :
  Forall tokOK ts ->
  forall pos a0 a1 c,
    doExecute reIP (flat ts) pos = Some (a0, a1, c) ->
    bnd ts a0 = true /\ bnd ts a1 = true.
Proof.
  intros F.
  apply (cut_wordbounded patIP (fun c => isDigit c || isByte "." c) ts F); try exact I.
  - cbn [patIP Seq Rep RepRange UpTo Quest Nat.sub Digit Chr classesIn].
    repeat split; try exact I; intros c H; rewrite H; auto using orb_true_r.
  - cbn. lia.
  - reflexivity.
  - left. reflexivity.
Qed.

Lemma cut_Lvl (ts : list tok) :
  Forall tokOK ts ->
  forall pos a0 a1 c,
    doExecute reLvl (flat ts) pos = Some (a0, a1, c) ->
    bnd ts a0 = true /\ bnd ts a1 = true.
Proof.
  intros F. apply (cut_wordbounded patLvl isLetter ts F); try exact I.
  - cbn [patLvl Seq Alts map StrFold lit list_ascii_of_string classesIn].
    repeat split; try exact I;
      intros c H; (eapply fold_letter; [|exact H]); reflexivity.
  - cbn. lia.
  - reflexivity.
  - right. exact digit_not_letter.
Qed.

Lemma cut_URL (ts : list tok) :
  Forall tokOK ts ->
  forall pos a0 a1 c,
    doExecute reURL (flat ts) pos = Some (a0, a1, c) ->
    bnd ts a0 = true /\ bnd ts a1 = true.
Proof.
  intros F pos a0 a1 c H.
  pose proof (MustCompile_ok patURL _ _ _ _ _ H) as (_ & Hle & Hlen).
  pose proof (doExecute_greedy patURL notSpace _ _ _ _ _ eq_refl H) as G.
  apply doExecute_matches in H.
  pose proof (Matches_minLen _ _ _ _ H) as L.
  assert (E : minLen patURL = 8) by reflexivity. rewrite E in L.
  split.
  - apply bnd_by_char; [exact F|lia|]. intros x Hx.
    destruct (Matches_first _ (isByte "h") _ _ _ H) as (y & Hy & Hh); [lia| |].
    + cbn [patURL Seq Str map lit list_ascii_of_string Chr firstIn minLen].
      repeat split; auto; intros; try discriminate; try lia.
    + assert (x = "h"%char).
      { unfold isByte in Hh. apply Ascii.eqb_eq in Hh. congruence. }
      subst x. repeat split; discriminate.
  - apply bnd_by_char; [exact F|exact Hlen|]. intros x Hx.
    apply space_outside. now apply G.
Qed.

Lemma cut_Path (ts : list tok) :
  Forall tokOK ts ->
  forall pos a0 a1 c,
    doExecute rePath (flat ts) pos = Some (a0, a1, c) ->
    bnd ts a0 = true /\ bnd ts a1 = true.
Proof.
  intros F pos a0 a1 c H.
  pose proof (MustCompile_ok patPath _ _ _ _ _ H) as (_ & Hle & Hlen).
  apply doExecute_matches in H.
  pose proof (Matches_minLen _ _ _ _ H) as L.
  assert (E : minLen patPath = 2) by reflexivity. rewrite E in L.
  assert (B0 : bnd ts a0 = true).
  { apply bnd_by_char; [exact F|lia|]. intros x Hx.
    destruct (Matches_first _ (fun c => isSpaceOrQuote c || isByte "/" c) _ _ _ H)
      as (y & Hy & Hf); [lia| |].
    - cbn [patPath Seq Chr firstIn minLen].
      split; [split; [exact I|intros c0 Hc0; now rewrite Hc0]|].
      intros _. split; [intros c0 Hc0; rewrite Hc0; apply orb_true_r|].
      intros Z. discriminate Z.
    - apply space_or_slash_outside. congruence. }
  split; [exact B0|].
  apply (run_bnd ts (fun c => isSpaceOrQuote c || isByte "/" c || isPathByte c) a0 a1);
    [exact F|lia|exact Hlen|exact B0| |reflexivity].
  apply (Matches_chars _ _ _ _ _ H).
  cbn [patPath Seq Plus Chr classesIn]. repeat split; try exact I;
    intros c0 Hc0; rewrite Hc0; rewrite ?orb_true_r; reflexivity.
Qed.

(** A segment without escape byte that takes no structured pass: the
    output is the segment with whole markers put in. *)
Lemma colorizeGeneric_tokens (seg : bytes) :
  ~ In ESC seg ->
  MatchString reJSONLine seg = false ->
  MatchString reYAMLKey seg = false ->
  exists ts, Forall tokOK ts /\ text ts = seg /\ colorizeGeneric seg true = flat ts.
Proof.
  intros He Hj Hy. unfold colorizeGeneric. cbn [negb]. rewrite Hj, Hy. cbn [orb].
  assert (W : forall color, In color markers ->
            forall x, wrap color x = x \/
                      exists c, In c markers /\ wrap color x = c ++ x ++ ansiReset).
  { intros color Hc x. right. exists color. auto. }
  pose proof (tokOK_chars seg He) as F0.
  destruct (pass_tokens reTS (map Ch seg) (wrap ansiDim) F0 (MustCompile_ok _)
              (cut_bare reTS seg (MustCompile_ok _)) (W ansiDim ltac:(cbn; tauto)))
    as (ts1 & F1 & T1 & R1).
  rewrite flat_chars in R1. rewrite text_chars in T1. rewrite R1.
  destruct (pass_tokens reURL ts1 (wrap ansiMagenta) F1 (MustCompile_ok _)
              (cut_URL ts1 F1) (W ansiMagenta ltac:(cbn; tauto)))
    as (ts2 & F2 & T2 & R2). rewrite R2.
  destruct (pass_tokens reIP ts2 (wrap ansiCyan) F2 (MustCompile_ok _)
              (cut_IP ts2 F2) (W ansiCyan ltac:(cbn; tauto)))
    as (ts3 & F3 & T3 & R3). rewrite R3.
  destruct (pass_tokens rePath ts3 (wrap ansiMagenta) F3 (MustCompile_ok _)
              (cut_Path ts3 F3) (W ansiMagenta ltac:(cbn; tauto)))
    as (ts4 & F4 & T4 & R4). rewrite R4.
  destruct (pass_tokens reLvl ts4 colorLevel F4 (MustCompile_ok _)
              (cut_Lvl ts4 F4)
              (fun x => genericPasses_wrap (reLvl, colorLevel) x ltac:(cbn; tauto)))
    as (ts5 & F5 & T5 & R5). rewrite R5.
  destruct (pass_tokens reNum ts5 (wrap ansiBold) F5 (MustCompile_ok _)
              (cut_Num ts5 F5) (W ansiBold ltac:(cbn; tauto)))
    as (ts6 & F6 & T6 & R6). rewrite R6.
  exists ts6. split; [exact F6|]. split; [congruence|reflexivity].
Qed.

(** ** C9 *)

(** The passes of [colorizeGeneric].  With coloring off
    [colorizeGeneric] is the identity.  With coloring on it runs its passes one after the other,
    each on the output of the one before, markers included, and each of
    the six generic passes copies the text it is given and wraps its
    matches between a color code and the reset code; a later pass can
    thus color inside a span an earlier pass has tagged, as the number
    pass does inside an address.  For a segment that holds no escape byte
    and takes no structured pass, no pass breaks a marker put in before
    it: the output is the segment with whole markers put in, and removing
    the markers gives the segment back. *)
Theorem colorizeGeneric_passes (seg : bytes) :
  colorizeGeneric seg false = seg
  /\ colorizeGeneric seg true =
       fold_left (fun t p => ReplaceAllStringFunc (fst p) t (snd p)) genericPasses
                 (if MatchString reJSONLine seg || MatchString reYAMLKey seg
                  then colorizeStructured seg true else seg)
  /\ (forall p t, In p genericPasses ->
        exists segs : list segment,
          concat (map segText segs) = t /\
          ReplaceAllStringFunc (fst p) t (snd p) = concat (map (applyTo (snd p)) segs))
  /\ (count_occ ascii_dec seg ESC = 0 ->
      MatchString reJSONLine seg = false ->
      MatchString reYAMLKey seg = false ->
      (exists ts, Forall tokOK ts /\ text ts = seg /\ colorizeGeneric seg true = flat ts)
      /\ stripMarkers (colorizeGeneric seg true) = seg)
  /\ colorizeGeneric (lit "10.0.0.1") true =
       ansiCyan ++ lit "10." ++ (ansiBold ++ lit "0" ++ ansiReset) ++ lit "."
       ++ (ansiBold ++ lit "0" ++ ansiReset) ++ lit "."
       ++ (ansiBold ++ lit "1" ++ ansiReset) ++ ansiReset.
Proof.
  split; [reflexivity|]. split; [reflexivity|]. split; [|split].
  - intros p t Hp. apply ReplaceAllStringFunc_segments, genericPasses_ok, Hp.
  - intros He Hj Hy.
    assert (He' : ~ In ESC seg) by (now apply count_occ_not_In in He).
    destruct (colorizeGeneric_tokens seg He' Hj Hy) as (ts & F & T & R).
    split; [exists ts; auto|].
    rewrite R, stripMarkers_flat by exact F. exact T.
  - vm_compute. reflexivity.
Qed.

(** A line with a level, an address and a number. *)
Lemma colorizeGeneric_passes_witness :
  stripMarkers (colorizeGeneric (lit "ERROR 10.0.0.1 x=5") true) = lit "ERROR 10.0.0.1 x=5".
Proof.
  exact (proj2 (proj1 (proj2 (proj2 (proj2
           (colorizeGeneric_passes (lit "ERROR 10.0.0.1 x=5")))))
           eq_refl eq_refl eq_refl)).
Defined.

(** C9.  The structured pass corrupts the markers and the text.  The
    segment [a :1] starts like a YAML key: the key pass drops the blank
    before the colon, and the punctuation pass then rewrites the bracket
    inside the two markers the key pass had inserted.  No blank is left
    in the output, neither marker of the key pass is left whole, and
    removing the markers does not give the segment back. *)
Lemma colorizeGeneric_corrupts_segment :
  colorizeGeneric (lit "a :1") true =
    [ESC] ++ (ansiDim ++ lit "[" ++ ansiReset) ++ lit "34ma"
    ++ [ESC] ++ (ansiDim ++ lit "[" ++ ansiReset) ++ lit "0m:"
    ++ (ansiBold ++ lit "1" ++ ansiReset)
  /\ count_occ ascii_dec (colorizeGeneric (lit "a :1") true) " "%char = 0
  /\ stripMarkers (colorizeGeneric (lit "a :1") true) <> lit "a :1".
Proof.
  split; [vm_compute; reflexivity|]. split; [vm_compute; reflexivity|].
  vm_compute. discriminate.
Qed.

(** ** The command line *)

Lemma bytes_eqb_eq (x y : bytes) : bytes_eqb x y = true <-> x = y.
Proof.
  revert y. induction x as [|a x IH]; intros [|c y]; cbn; split; intros H;
    try reflexivity; try discriminate.
  - apply andb_true_iff in H. destruct H as [H1 H2].
    apply Ascii.eqb_eq in H1. apply IH in H2. congruence.
  - inversion H; subst. rewrite Ascii.eqb_refl. cbn. now apply IH.
Qed.

Lemma bytes_eqb_refl (x : bytes) : bytes_eqb x x = true.
Proof. now apply bytes_eqb_eq. Qed.

(** One round of the sweep. *)
Lemma sweep_cons (tok : bytes) (rest : list bytes) (fl : Flags) :
  sweep (tok :: rest) fl =
    match classify tok rest fl with
    | Consume f => let '(out, fl2) := sweep rest f in ([] :: out, fl2)
    | ConsumeTwo f => let '(out, fl2) := sweep (tl rest) f in ([] :: [] :: out, fl2)
    | Keep => let '(out, fl2) := sweep rest fl in (tok :: out, fl2)
    end.
Proof.
  unfold classify, isTailToken, nextValue. cbn [sweep].
  destruct (bytes_eqb tok (lit "-t") || bytes_eqb tok (lit "--t")); [reflexivity|].
  destruct (hasPrefix tok (lit "-ns=")); [reflexivity|].
  destruct rest as [|next rest'];
    destruct (bytes_eqb tok (lit "-ns")), (hasPrefix tok (lit "-ne=")),
             (bytes_eqb tok (lit "-ne"));
    try reflexivity; destruct (Atoi next); reflexivity.
Qed.

(** A value is consumed only when there is one, and it is a number. *)
Lemma classify_two (tok : bytes) (rest : list bytes) (fl f : Flags) :
  classify tok rest fl = ConsumeTwo f ->
  exists next rest' v, rest = next :: rest' /\ Atoi next = Some v /\
                       (f = setNs fl v \/ f = setNe fl v).
Proof.
  unfold classify, nextValue.
  destruct (isTailToken tok); [discriminate|].
  destruct (hasPrefix tok (lit "-ns=")); [discriminate|].
  destruct rest as [|next rest'].
  - destruct (bytes_eqb tok (lit "-ns")), (hasPrefix tok (lit "-ne=")),
             (bytes_eqb tok (lit "-ne")); discriminate.
  - intros H. exists next, rest'.
    destruct (bytes_eqb tok (lit "-ns")).
    + destruct (Atoi next) as [v|] eqn:E.
      * exists v. inversion H. auto.
      * destruct (hasPrefix tok (lit "-ne=")); [discriminate|].
        destruct (bytes_eqb tok (lit "-ne")); discriminate.
    + destruct (hasPrefix tok (lit "-ne=")); [discriminate|].
      destruct (bytes_eqb tok (lit "-ne")); [|discriminate].
      destruct (Atoi next) as [v|] eqn:E; [|discriminate].
      exists v. inversion H. auto.
Qed.

Lemma classify_keep (tok : bytes) (rest : list bytes) (fl : Flags) :
  classify tok rest fl = Keep ->
  isTailToken tok = false /\ hasPrefix tok (lit "-ns=") = false
  /\ hasPrefix tok (lit "-ne=") = false.
Proof.
  unfold classify.
  destruct (isTailToken tok); [discriminate|].
  destruct (hasPrefix tok (lit "-ns=")); [discriminate|].
  destruct (if bytes_eqb tok (lit "-ns") then nextValue rest else None); [discriminate|].
  destruct (hasPrefix tok (lit "-ne=")); [discriminate|]. auto.
Qed.

Lemma classify_plain (tok : bytes) (rest : list bytes) (fl : Flags) :
  isFlagToken tok = false -> classify tok rest fl = Keep.
Proof.
  unfold isFlagToken, classify. intros H.
  apply orb_false_iff in H. destruct H as [H H4].
  apply orb_false_iff in H. destruct H as [H H3].
  apply orb_false_iff in H. destruct H as [H H2].
  apply orb_false_iff in H. destruct H as [H0 H1].
  now rewrite H0, H1, H2, H3, H4.
Qed.

(** The tokens after the next one do not matter to a round. *)
Lemma classify_app (tok : bytes) (rest post : list bytes) (fl : Flags) :
  nextValue post = None ->
  classify tok (rest ++ post) fl = classify tok rest fl.
Proof.
  intros H. unfold classify.
  assert (E : nextValue (rest ++ post) = nextValue rest).
  { destruct rest; [exact H|reflexivity]. }
  now rewrite E.
Qed.

(** The sweep of a command line cut before a token that is not a number
    is the sweep of the two parts, one after the other. *)
Lemma sweep_app (pre post : list bytes) (fl : Flags) :
  nextValue post = None ->
  sweep (pre ++ post) fl =
    (let '(o1, f1) := sweep pre fl in
     let '(o2, f2) := sweep post f1 in (o1 ++ o2, f2)).
Proof.
  intros Hp. remember (length pre) as n eqn:Hn.
  assert (Hle : length pre <= n) by lia. clear Hn.
  revert pre fl Hle. induction n as [|n IH]; intros pre fl Hle.
  - destruct pre; [|cbn in Hle; lia]. cbn [app sweep].
    now destruct (sweep post fl).
  - destruct pre as [|tok rest].
    + cbn [app sweep]. now destruct (sweep post fl).
    + cbn [app]. rewrite !sweep_cons, (classify_app _ _ _ _ Hp).
      cbn [length] in Hle.
      destruct (classify tok rest fl) as [f|f|] eqn:Ec.
      * rewrite IH by lia. destruct (sweep rest f) as [o1 f1].
        now destruct (sweep post f1).
      * destruct (classify_two _ _ _ _ Ec) as (next & rest' & v & -> & _ & _).
        cbn [tl app]. cbn [length] in Hle. rewrite IH by lia.
        destruct (sweep rest' f) as [o1 f1]. now destruct (sweep post f1).
      * rewrite IH by lia. destruct (sweep rest fl) as [o1 f1].
        now destruct (sweep post f1).
Qed.

Lemma sweep_plain (args : list bytes) (fl : Flags) :
  forallb (fun a => negb (isFlagToken a)) args = true -> sweep args fl = (args, fl).
Proof.
  induction args as [|a args IH]; [reflexivity|].
  cbn [forallb]. intros H. apply andb_true_iff in H. destruct H as [Ha H].
  apply negb_true_iff in Ha. rewrite sweep_cons, (classify_plain _ _ _ Ha), IH by exact H.
  reflexivity.
Qed.

(** X1.  What the sweep leaves for the positional arguments: tokens of
    the command line, none of them empty, none of them [-t] or [--t],
    and none of the form [-ns=...] or [-ne=...]; hence the file and the
    filter are never taken from such a token. *)
Theorem sweep_leaves_no_flag (args : list bytes) (fl : Flags) (a : bytes) :
  In a (clean (fst (sweep args fl))) ->
  In a args /\ a <> [] /\ a <> lit "-t" /\ a <> lit "--t"
  /\ hasPrefix a (lit "-ns=") = false /\ hasPrefix a (lit "-ne=") = false.
Proof.
  remember (length args) as n eqn:Hn.
  assert (Hle : length args <= n) by lia. clear Hn.
  revert args fl Hle. induction n as [|n IH]; intros args fl Hle.
  - destruct args; [|cbn in Hle; lia]. cbn. tauto.
  - destruct args as [|tok rest]; [cbn; tauto|].
    cbn [length] in Hle. rewrite sweep_cons.
    destruct (classify tok rest fl) as [f|f|] eqn:Ec.
    + specialize (IH rest f ltac:(lia)). destruct (sweep rest f) as [o1 f1].
      cbn [fst clean filter isEmpty negb] in *. intros H.
      destruct (IH H) as (H1 & H2). split; [now right|exact H2].
    + destruct (classify_two _ _ _ _ Ec) as (next & rest' & v & -> & _ & _).
      cbn [tl length] in *. specialize (IH rest' f ltac:(lia)).
      destruct (sweep rest' f) as [o1 f1].
      cbn [fst clean filter isEmpty negb] in *. intros H.
      destruct (IH H) as (H1 & H2). split; [now right; right|exact H2].
    + specialize (IH rest fl ltac:(lia)). destruct (sweep rest fl) as [o1 f1].
      cbn [fst clean filter] in *.
      destruct (classify_keep _ _ _ Ec) as (Ht & Hs & He).
      destruct tok as [|c tok].
      * cbn [isEmpty negb]. intros H. destruct (IH H) as (H1 & H2).
        split; [now right|exact H2].
      * cbn [isEmpty negb In]. intros [<-|H].
        -- split; [now left|]. split; [discriminate|].
           unfold isTailToken in Ht. apply orb_false_iff in Ht. destruct Ht as [T1 T2].
           repeat split; auto; intros E; rewrite E in *; discriminate.
        -- destruct (IH H) as (H1 & H2). split; [now right|exact H2].
Qed.

Lemma Atoi_tail (tok : bytes) (v : Z) : Atoi tok = Some v -> isTailToken tok = false.
Proof.
  intros H. unfold isTailToken.
  destruct (bytes_eqb tok (lit "-t")) eqn:E1.
  - apply bytes_eqb_eq in E1. subst tok. discriminate H.
  - destruct (bytes_eqb tok (lit "--t")) eqn:E2; [|reflexivity].
    apply bytes_eqb_eq in E2. subst tok. discriminate H.
Qed.

(** The flags after one round. *)
Lemma classify_flags (tok : bytes) (rest : list bytes) (fl : Flags) :
  match classify tok rest fl with
  | Consume f | ConsumeTwo f =>
      tailPtr f = tailPtr fl || isTailToken tok
      /\ versionFlag f = versionFlag fl
      /\ filePathPtr f = filePathPtr fl
      /\ filterPtr f = filterPtr fl
  | Keep => isTailToken tok = false
  end.
Proof.
  unfold classify, assigned. destruct (isTailToken tok).
  - cbn. rewrite orb_true_r. auto.
  - rewrite orb_false_r.
    destruct (hasPrefix tok (lit "-ns=")).
    { destruct (Atoi (skipn 4 tok)); cbn; auto. }
    destruct (if bytes_eqb tok (lit "-ns") then nextValue rest else None); [cbn; auto|].
    destruct (hasPrefix tok (lit "-ne=")).
    { destruct (Atoi (skipn 4 tok)); cbn; auto. }
    destruct (if bytes_eqb tok (lit "-ne") then nextValue rest else None); cbn; auto.
Qed.

(** The flags after the sweep. *)
Lemma sweep_flags (args : list bytes) (fl : Flags) :
  let fl' := snd (sweep args fl) in
  tailPtr fl' = tailPtr fl || existsb isTailToken args
  /\ versionFlag fl' = versionFlag fl
  /\ filePathPtr fl' = filePathPtr fl
  /\ filterPtr fl' = filterPtr fl.
Proof.
  cbn zeta. remember (length args) as n eqn:Hn.
  assert (Hle : length args <= n) by lia. clear Hn.
  revert args fl Hle. induction n as [|n IH]; intros args fl Hle.
  - destruct args; [|cbn in Hle; lia]. cbn. now rewrite orb_false_r.
  - destruct args as [|tok rest]; [cbn; now rewrite orb_false_r|].
    cbn [length] in Hle. rewrite sweep_cons. cbn [existsb].
    pose proof (classify_flags tok rest fl) as Hf.
    destruct (classify tok rest fl) as [f|f|] eqn:Ec.
    + destruct Hf as (F1 & F2 & F3 & F4).
      destruct (IH rest f ltac:(lia)) as (I1 & I2 & I3 & I4).
      destruct (sweep rest f) as [o1 f1]. cbn [snd] in *.
      rewrite I1, I2, I3, I4, F1, F2, F3, F4, orb_assoc. auto.
    + destruct Hf as (F1 & F2 & F3 & F4).
      destruct (classify_two _ _ _ _ Ec) as (next & rest' & v & -> & Hv & _).
      cbn [tl length existsb] in *.
      destruct (IH rest' f ltac:(lia)) as (I1 & I2 & I3 & I4).
      destruct (sweep rest' f) as [o1 f1]. cbn [snd] in *.
      rewrite I1, I2, I3, I4, F1, F2, F3, F4, (Atoi_tail _ _ Hv), orb_assoc. auto.
    + destruct (IH rest fl ltac:(lia)) as (I1 & I2 & I3 & I4).
      destruct (sweep rest fl) as [o1 f1]. cbn [snd] in *.
      rewrite I1, I2, I3, I4, Hf. auto.
Qed.

(** X2.  [-t] anywhere after the file turns follow mode on, and nothing
    in the arguments turns it off: after the sweep [tailPtr] is set
    exactly when it was set before or some argument is [-t] or [--t].
    The sweep touches no other flag than the two counts. *)
Theorem sweep_tail (args : list bytes) (fl : Flags) :
  let fl' := snd (sweep args fl) in
  tailPtr fl' = tailPtr fl || existsb isTailToken args
  /\ versionFlag fl' = versionFlag fl
  /\ filePathPtr fl' = filePathPtr fl
  /\ filterPtr fl' = filterPtr fl.
Proof. exact (sweep_flags args fl). Qed.

Lemma sweep_one_assign (s : bytes) (v : Z) (fl : Flags) :
  Atoi s = Some v ->
  sweep [lit "-ns=" ++ s] fl = ([[]], setNs fl v)
  /\ sweep [lit "-ns"; s] fl = ([[]; []], setNs fl v)
  /\ sweep [lit "-ne=" ++ s] fl = ([[]], setNe fl v)
  /\ sweep [lit "-ne"; s] fl = ([[]; []], setNe fl v).
Proof.
  intros H. repeat split.
  - cbn. unfold assigned. cbn. now rewrite H.
  - cbn. now rewrite H.
  - cbn. unfold assigned. cbn. now rewrite H.
  - cbn. now rewrite H.
Qed.

(** X3.  A count given last on the command line wins: whatever comes
    before it, also a count that [flag.Parse] had stored, [-ns=N] or
    [-ns N] at the end sets the first-N count to [N], and likewise for
    [-ne]. *)
Theorem sweep_last_count_wins (args : list bytes) (fl : Flags) (s : bytes) (v : Z) :
  Atoi s = Some v ->
  nsPtr (snd (sweep (args ++ [lit "-ns=" ++ s]) fl)) = v
  /\ nsPtr (snd (sweep (args ++ [lit "-ns"; s]) fl)) = v
  /\ nePtr (snd (sweep (args ++ [lit "-ne=" ++ s]) fl)) = v
  /\ nePtr (snd (sweep (args ++ [lit "-ne"; s]) fl)) = v.
Proof.
  intros H.
  repeat split; rewrite sweep_app by reflexivity; destruct (sweep args fl) as [o1 f1];
    destruct (sweep_one_assign s v f1 H) as (E1 & E2 & E3 & E4);
    rewrite ?E1, ?E2, ?E3, ?E4; reflexivity.
Qed.

Lemma sweep_last_count_wins_witness :
  nsPtr (snd (sweep [lit "app.log"; lit "-ns"; lit "3"; lit "-ns=7"]
                    {| versionFlag := false; filePathPtr := []; filterPtr := [];
                       tailPtr := false; nsPtr := 5; nePtr := 0 |})) = 7%Z.
Proof.
  exact (proj1 (sweep_last_count_wins [lit "app.log"; lit "-ns"; lit "3"]
                  {| versionFlag := false; filePathPtr := []; filterPtr := [];
                     tailPtr := false; nsPtr := 5; nePtr := 0 |}
                  (lit "7") 7 eq_refl)).
Defined.

Lemma sweep_leaves_no_flag_witness :
  In (lit "ERROR") [lit "app.log"; lit "-t"; lit "ERROR"] /\ lit "ERROR" <> lit "-t".
Proof.
  pose proof (sweep_leaves_no_flag [lit "app.log"; lit "-t"; lit "ERROR"]
                {| versionFlag := false; filePathPtr := []; filterPtr := [];
                   tailPtr := false; nsPtr := 0; nePtr := 0 |}
                (lit "ERROR") (or_intror (or_introl eq_refl))) as H.
  split; [exact (proj1 H)|exact (proj1 (proj2 (proj2 H)))].
Defined.

Section MainFacts.
Variable Compile : bytes -> option Regexp.
Variable env : Env.
Variables version buildDate : bytes.
Variable fsOf : bytes -> FS.
Variable grant : nat -> bool.

(** X4.  A count flag without a number after it is no flag: a closing
    [-ns] or [-ne], alone or followed by a token that is neither a number
    nor a flag, stays among the positional arguments and no count is
    set, so that [see FILE -ns] filters by the pattern [-ns]. *)
Theorem count_without_value (flag : bytes) :
  flag = lit "-ns" \/ flag = lit "-ne" ->
  (forall args fl,
     sweep (args ++ [flag]) fl = (fst (sweep args fl) ++ [flag], snd (sweep args fl)))
  /\ (forall args fl x,
        Atoi x = None -> isFlagToken x = false ->
        sweep (args ++ [flag; x]) fl =
          (fst (sweep args fl) ++ [flag; x], snd (sweep args fl)))
  /\ (forall fl file,
        versionFlag fl = false -> filePathPtr fl = [] -> filterPtr fl = [] ->
        isFlagToken file = false -> file <> [] ->
        mainArgs Compile env version buildDate fsOf grant fl [file; flag] =
          main Compile (colorEnabled env) grant (fsOf file) flag
               (tailPtr fl) (nsPtr fl) (nePtr fl)).
Proof.
  intros Hflag.
  assert (N : nextValue [flag] = None) by (destruct Hflag as [-> | ->]; reflexivity).
  assert (S1 : forall fl, sweep [flag] fl = ([flag], fl))
    by (destruct Hflag as [-> | ->]; reflexivity).
  split; [|split].
  - intros args fl. rewrite sweep_app by exact N.
    destruct (sweep args fl) as [o1 f1]. now rewrite S1.
  - intros args fl x Hx Hp.
    assert (N2 : nextValue [flag; x] = None) by exact N.
    rewrite sweep_app by exact N2. destruct (sweep args fl) as [o1 f1].
    assert (S2 : sweep [flag; x] f1 = ([flag; x], f1)).
    { rewrite sweep_cons. unfold classify, nextValue. rewrite Hx.
      rewrite sweep_cons, (classify_plain _ _ _ Hp).
      destruct Hflag as [-> | ->]; reflexivity. }
    now rewrite S2.
  - intros fl file Hv Hf Hr Hp Hne. unfold mainArgs. rewrite Hv.
    rewrite sweep_cons, (classify_plain _ _ _ Hp), S1. cbv beta iota zeta.
    destruct file as [|c file]; [congruence|].
    unfold resolve. rewrite Hf, Hr. destruct Hflag as [-> | ->]; reflexivity.
Qed.

(** X5.  Arguments that hold no flag token are the positional
    arguments, empty strings dropped: without [-file] the first is the
    file and the second, if any, the filter; with [-file] the first is
    the filter.  Further arguments are ignored, and no file at all is a
    fatal error. *)
Theorem positional_arguments (fl : Flags) (args : list bytes) :
  versionFlag fl = false -> filterPtr fl = [] ->
  forallb (fun a => negb (isFlagToken a)) args = true ->
  mainArgs Compile env version buildDate fsOf grant fl args =
    match filePathPtr fl, clean args with
    | [], [] => Fatal "Please provide a file path either as -file or as first argument"
    | [], file :: rest =>
        main Compile (colorEnabled env) grant (fsOf file) (hd [] rest)
             (tailPtr fl) (nsPtr fl) (nePtr fl)
    | p, rest =>
        main Compile (colorEnabled env) grant (fsOf p) (hd [] rest)
             (tailPtr fl) (nsPtr fl) (nePtr fl)
    end.
Proof.
  intros Hv Hr Hp. unfold mainArgs. rewrite Hv, (sweep_plain _ _ Hp).
  unfold resolve. rewrite Hr.
  destruct (filePathPtr fl) as [|c p].
  - destruct (clean args) as [|file rest]; [reflexivity|]. now destruct rest.
  - now destruct (clean args).
Qed.

End MainFacts.

Lemma count_without_value_witness :
  mainArgs (fun _ => None) {| Getenv := fun _ => []; StdoutMode := None |} [] []
           (fun _ => {| Stat := None; IsDir := false; Open := None |}) (fun _ => true)
           {| versionFlag := false; filePathPtr := []; filterPtr := [];
              tailPtr := false; nsPtr := 0; nePtr := 0 |}
           [lit "app.log"; lit "-ns"] =
    Fatal "Cannot access file".
Proof.
  exact (proj2 (proj2 (count_without_value (fun _ => None)
           {| Getenv := fun _ => []; StdoutMode := None |} [] []
           (fun _ => {| Stat := None; IsDir := false; Open := None |}) (fun _ => true)
           (lit "-ns") (or_introl eq_refl)))
           {| versionFlag := false; filePathPtr := []; filterPtr := [];
              tailPtr := false; nsPtr := 0; nePtr := 0 |}
           (lit "app.log") eq_refl eq_refl eq_refl eq_refl ltac:(discriminate)).
Defined.

Lemma positional_arguments_witness :
  mainArgs (fun _ => None) {| Getenv := fun _ => []; StdoutMode := None |} [] []
           (fun _ => {| Stat := Some 2%Z; IsDir := false;
                        Open := Some {| data := lit "a" ++ [NL]; readFails := false |} |}) (fun _ => true)
           {| versionFlag := false; filePathPtr := []; filterPtr := [];
              tailPtr := false; nsPtr := 0; nePtr := 0 |}
           [[]; lit "app.log"] =
    Done [lit "Reading existing lines..."; lit "a"].
Proof.
  exact (positional_arguments (fun _ => None)
           {| Getenv := fun _ => []; StdoutMode := None |} [] []
           (fun _ => {| Stat := Some 2%Z; IsDir := false;
                        Open := Some {| data := lit "a" ++ [NL]; readFails := false |} |}) (fun _ => true)
           {| versionFlag := false; filePathPtr := []; filterPtr := [];
              tailPtr := false; nsPtr := 0; nePtr := 0 |}
           [[]; lit "app.log"] eq_refl eq_refl eq_refl).
Defined.

(** ** Whether to color *)

Lemma land_ModeCharDevice (m : Z) :
  Z.land m ModeCharDevice = 0%Z <-> Z.testbit m 21 = false.
Proof.
  change ModeCharDevice with (2 ^ 21)%Z. split; intros H.
  - assert (T : Z.testbit (Z.land m (2 ^ 21)) 21 = false) by (rewrite H; apply Z.bits_0).
    rewrite Z.land_spec, Z.pow2_bits_true, andb_true_r in T by lia. exact T.
  - apply Z.bits_inj'. intros n Hn. rewrite Z.land_spec, Z.bits_0.
    rewrite Z.pow2_bits_eqb by lia.
    destruct (Z.eqb_spec 21 n) as [<-|Hne]; [now rewrite H|apply andb_false_r].
Qed.

(** X6.  Colors are on exactly when [NO_COLOR] is unset or empty, [TERM]
    is not [dumb] and the standard output is a character device; with
    colors off, whatever the filter, a line is printed as it is. *)
Theorem color_off_prints_raw (env : Env) :
  (colorEnabled env = true <->
     Getenv env (lit "NO_COLOR") = [] /\ Getenv env (lit "TERM") <> lit "dumb"
     /\ exists m, StdoutMode env = Some m /\ Z.testbit m 21 = true)
  /\ (colorEnabled env = false ->
      forall (raw : bytes) (rx : option Regexp), renderLine raw rx (colorEnabled env) = raw).
Proof.
  split.
  - unfold colorEnabled, stdoutIsTTY.
    destruct (Getenv env (lit "NO_COLOR")) as [|c n] eqn:En; cbn [isEmpty negb].
    + destruct (bytes_eqb (Getenv env (lit "TERM")) (lit "dumb")) eqn:Et.
      * apply bytes_eqb_eq in Et. split; [discriminate|]. intros (_ & H & _). contradiction.
      * assert (Hne : Getenv env (lit "TERM") <> lit "dumb").
        { intros E. rewrite E in Et. discriminate. }
        destruct (StdoutMode env) as [m|].
        -- destruct (Z.eqb_spec (Z.land m ModeCharDevice) 0) as [E|E]; cbn [negb].
           ++ apply land_ModeCharDevice in E. split; [discriminate|].
              intros (_ & _ & m' & Hm & Hb). inversion Hm; subst. congruence.
           ++ split; [|reflexivity]. intros _. repeat split; auto. exists m. split; [reflexivity|].
              destruct (Z.testbit m 21) eqn:B; [reflexivity|].
              apply land_ModeCharDevice in B. contradiction.
        -- split; [discriminate|]. intros (_ & _ & m' & Hm & _). discriminate.
    + split; [discriminate|]. intros (H & _). discriminate.
  - intros H raw rx. rewrite H. unfold renderLine, colorizeGeneric. cbn [negb].
    now destruct rx.
Qed.

Lemma color_off_prints_raw_witness :
  renderLine (lit "ERROR 42") None
    (colorEnabled {| Getenv := fun k => if bytes_eqb k (lit "NO_COLOR") then lit "1" else [];
                     StdoutMode := Some (Z.shiftl 1 21) |}) = lit "ERROR 42".
Proof.
  exact (proj2 (color_off_prints_raw
           {| Getenv := fun k => if bytes_eqb k (lit "NO_COLOR") then lit "1" else [];
              StdoutMode := Some (Z.shiftl 1 21) |}) eq_refl (lit "ERROR 42") None).
Defined.

(** ** The first-N selection *)

(** The yielded lines are the lines of the scan. *)
Lemma yieldsFrom_lines (rf : bool) (fuel : nat) (d : bytes) :
  map fst (yieldsFrom fuel d rf) = fst (scanFrom fuel d rf).
Proof.
  revert d. induction fuel as [|fuel IH]; intros d.
  - destruct d; reflexivity.
  - destruct d as [|c d']; [reflexivity|].
    cbn [yieldsFrom scanFrom].
    destruct (IndexByte (c :: d') NL) as [i|].
    + destruct (Z.of_nat i <? maxTokenSize)%Z; [|reflexivity].
      specialize (IH (skipn (i + 1) (c :: d'))).
      destruct (scanFrom fuel (skipn (i + 1) (c :: d')) rf) as [ls e].
      cbn [map fst] in *. now rewrite IH.
    + destruct (Z.of_nat (length (c :: d')) <? maxTokenSize)%Z; reflexivity.
Qed.

(** An error is held at the last yielded line only, and it is the error
    of the scan: the failure of the read after the last byte. *)
Lemma yieldsFrom_held (rf : bool) (fuel : nat) :
  forall (d : bytes) (i : nat) (s : bytes) (e : error),
    nth_error (yieldsFrom fuel d rf) i = Some (s, Some e) ->
    S i = length (yieldsFrom fuel d rf) /\ rf = true /\
    snd (scanFrom fuel d rf) = Some e.
Proof.
  induction fuel as [|fuel IH]; intros d i s e H.
  - destruct d, i; discriminate.
  - destruct d as [|c d']; [destruct i; discriminate|].
    cbn [yieldsFrom scanFrom] in *.
    destruct (IndexByte (c :: d') NL) as [j|].
    + destruct (Z.of_nat j <? maxTokenSize)%Z; [|destruct i; discriminate].
      destruct i as [|i]; [discriminate|]. cbn [nth_error] in H.
      destruct (IH _ _ _ _ H) as (H1 & H2 & H3).
      destruct (scanFrom fuel (skipn (j + 1) (c :: d')) rf) as [ls e'].
      cbn [length snd] in *. auto.
    + destruct (Z.of_nat (length (c :: d')) <? maxTokenSize)%Z; [|destruct i; discriminate].
      destruct i as [|[|i]]; try discriminate.
      cbn [nth_error] in H. destruct rf; [|discriminate].
      injection H as _ He. cbn [length snd]. now rewrite He.
Qed.

Lemma yields_lines (f : File) : map fst (yields f) = fst (scan f).
Proof. apply yieldsFrom_lines. Qed.

Lemma yields_held (f : File) (i : nat) (s : bytes) (e : error) :
  nth_error (yields f) i = Some (s, Some e) ->
  S i = length (yields f) /\ readFails f = true /\ snd (scan f) = Some e.
Proof. apply yieldsFrom_held. Qed.

(** Over a file whose lines all fit the buffer, every complete line is
    yielded with no error held, and the unterminated rest, when there is
    one, with the failure of the read behind it. *)
Lemma yieldsFrom_fit (rf : bool) (fuel : nat) (d : bytes) :
  length d <= fuel ->
  Forall (fun l => (Z.of_nat (length l) < maxTokenSize)%Z) (completeLines d ++ [fragment d]) ->
  yieldsFrom fuel d rf =
    map (fun l => (dropCR l, None)) (completeLines d)
    ++ map (fun l => (dropCR l, if rf then Some ErrRead else None)) (lastLine d).
Proof.
  revert d. induction fuel as [|fuel IH]; intros d Hlen Hs.
  - destruct d; [reflexivity|cbn in Hlen; lia].
  - destruct d as [|c d']; [reflexivity|].
    cbn [yieldsFrom]. remember (c :: d') as d eqn:Hd in *.
    assert (Hd' : d <> []) by (subst d; discriminate). clear Hd c d'.
    destruct (IndexByte d NL) as [i|] eqn:E.
    + pose proof (IndexByte_lt _ _ _ E) as Hi.
      assert (C : completeLines d = firstn i d :: completeLines (skipn (i + 1) d)
                  /\ fragment d = fragment (skipn (i + 1) d)).
      { unfold completeLines, fragment. rewrite (splitLines_index d [] i E).
        destruct (splitLines [] (skipn (i + 1) d)); auto. }
      destruct C as [C1 C2]. rewrite C1, C2 in Hs. cbn [app] in Hs.
      inversion Hs as [|? ? H1 H2]; subst.
      rewrite length_firstn, Nat.min_l in H1 by lia.
      apply Z.ltb_lt in H1. rewrite H1.
      rewrite IH; [|rewrite length_skipn; lia|exact H2].
      unfold lastLine. now rewrite C1, C2.
    + assert (N : noNL d) by exact E.
      unfold lastLine.
      rewrite (completeLines_of_noNL d N), (fragment_of_noNL d N) in *.
      cbn [app] in Hs. inversion Hs as [|? ? H1 _]; subst.
      apply Z.ltb_lt in H1. rewrite H1. now destruct d.
Qed.

(** The selected lines among the yielded ones. *)
Lemma filter_yields (rx : option Regexp) (ys : list (bytes * option error)) :
  map fst (filter (fun y => selected rx (fst y)) ys) = filter (selected rx) (map fst ys).
Proof.
  induction ys as [|[s h] ys IH]; [reflexivity|].
  cbn [filter map fst]. destruct (selected rx s); cbn [map fst]; now rewrite IH.
Qed.

(** The loop in closed form: [need] more selected lines are printed, and
    the error is the one held at the last of them. *)
Lemma firstNLoop_spec (rx : option Regexp) (enableColor : bool) (n : Z)
      (lines : list (bytes * option error)) (err : option error) :
  forall (count : Z) (out : list bytes),
    let need := Z.to_nat (Z.max 1 (n - count)) in
    let ys := filter (fun y => selected rx (fst y)) lines in
    firstNLoop rx enableColor n lines err count out =
      (out ++ map (fun y => renderLine (fst y) rx enableColor) (firstn need ys),
       (count + Z.of_nat (min need (length ys)))%Z,
       match nth_error ys (need - 1) with
       | Some y => snd y
       | None => err
       end).
Proof.
  induction lines as [|[s h] lines IH]; intros count out; cbn zeta.
  - cbn [firstNLoop filter length]. rewrite firstn_nil, app_nil_r, Nat.min_0_r, Z.add_0_r.
    now destruct (Z.to_nat (Z.max 1 (n - count)) - 1).
  - cbn [firstNLoop filter fst]. destruct (selected rx s) eqn:Es.
    + destruct (count + 1 >=? n)%Z eqn:Ec.
      * apply Z.geb_le in Ec.
        replace (Z.to_nat (Z.max 1 (n - count))) with 1 by lia.
        cbn [firstn map length Nat.min Nat.sub nth_error fst snd]. repeat f_equal.
      * rewrite Z.geb_leb in Ec. apply Z.leb_gt in Ec.
        rewrite IH. cbn zeta.
        replace (Z.to_nat (Z.max 1 (n - count)))
          with (S (Z.to_nat (Z.max 1 (n - (count + 1))))) by lia.
        destruct (Z.to_nat (Z.max 1 (n - (count + 1)))) as [|m] eqn:Em; [lia|].
        cbn [firstn map length Nat.min Nat.sub nth_error fst snd].
        rewrite Nat.sub_0_r, <- app_assoc. cbn [app]. f_equal. f_equal. lia.
    + apply IH.
Qed.

(** X7.  [printFirstNFiltered] prints the first [k] selected lines of
    the file, in order, and returns how many it printed, where [k] is
    [n], or 1 when [n] is not positive (the loop tests the count only
    after a line has been printed).  With fewer than [k] selected lines
    the scan runs to its end and its error is returned with the count.
    Once [k] lines are printed the scan is not continued: the error
    returned is the one the scanner holds at the [k]-th selected line,
    and an error further on is not reported.  An error is held at a line
    only when that line is the last one yielded and the read behind the
    last byte of the file fails; over a file whose lines fit the buffer
    it is held at the unterminated last line exactly. *)
Theorem printFirstNFiltered_first (f : File) (rx : option Regexp) (n : Z)
        (enableColor : bool) :
  let k := Z.to_nat (Z.max 1 n) in
  let ms := filter (selected rx) (fst (scan f)) in
  printFirstNFiltered (Some f) rx n enableColor =
    (map (fun s => renderLine s rx enableColor) (firstn k ms),
     Z.of_nat (min k (length ms)),
     match nth_error (filter (fun y => selected rx (fst y)) (yields f)) (k - 1) with
     | Some y => snd y
     | None => snd (scan f)
     end)
  /\ map fst (yields f) = fst (scan f)
  /\ (forall (i : nat) (s : bytes) (e : error),
        nth_error (yields f) i = Some (s, Some e) ->
        S i = length (yields f) /\ readFails f = true /\ snd (scan f) = Some e)
  /\ (Forall (fun l => (Z.of_nat (length l) < maxTokenSize)%Z)
             (completeLines (data f) ++ [fragment (data f)]) ->
      yields f =
        map (fun l => (dropCR l, None)) (completeLines (data f))
        ++ map (fun l => (dropCR l, if readFails f then Some ErrRead else None))
               (lastLine (data f))).
Proof.
  cbn zeta. split; [|split; [apply yields_lines|split; [apply yields_held|]]].
  - unfold printFirstNFiltered. rewrite firstNLoop_spec. cbn zeta.
    rewrite Z.sub_0_r, <- yields_lines, <- filter_yields.
    rewrite firstn_map, map_map, length_map. reflexivity.
  - intros H. unfold yields. now apply yieldsFrom_fit.
Qed.

(** The file [a], newline, [b], whose next read fails, and [n = 2]: the
    second line is the unterminated last line; it is printed, and the
    error is returned with the count. *)
Lemma printFirstNFiltered_first_witness :
  printFirstNFiltered (Some {| data := lit "a" ++ [NL] ++ lit "b"; readFails := true |})
                      None 2 false = ([lit "a"; lit "b"], 2%Z, Some ErrRead).
Proof.
  exact (proj1 (printFirstNFiltered_first
                  {| data := lit "a" ++ [NL] ++ lit "b"; readFails := true |}
                  None 2 false)).
Defined.

(** X8.  On a file whose scan stops on an error after at least [n]
    selected lines, the first-N selection prints [n] lines and returns
    the error held at the [n]-th of them, which is none unless that line
    is the unterminated last line of the file, while the last-N selection
    prints nothing and returns the error of the scan. *)
Theorem selections_differ_on_error (grant : nat -> bool) (f : File) (rx : option Regexp)
        (n : nat) (enableColor : bool) (lines : list bytes) (e : error)
        (s : bytes) (h : option error) :
  scan f = (lines, Some e) ->
  1 <= n ->
  makeStrings grant n = Some (repeat [] n) ->
  nth_error (filter (fun y => selected rx (fst y)) (yields f)) (n - 1) = Some (s, h) ->
  printFirstNFiltered (Some f) rx (Z.of_nat n) enableColor =
    (map (fun s => renderLine s rx enableColor) (firstn n (filter (selected rx) lines)),
     Z.of_nat n, h)
  /\ printLastNFiltered grant (Some f) rx n enableColor = Some ([], 0, Some e)
  /\ (h = None \/
      h = Some e /\ readFails f = true /\ last (yields f) ([], None) = (s, Some e)).
Proof.
  intros Hs Hn Hm Hy. split; [|split].
  - unfold printFirstNFiltered. rewrite firstNLoop_spec. cbn zeta.
    replace (Z.to_nat (Z.max 1 (Z.of_nat n - 0))) with n by lia.
    rewrite Hy. cbn [snd app].
    assert (L : n <= length (filter (fun y => selected rx (fst y)) (yields f))).
    { assert (n - 1 < length (filter (fun y => selected rx (fst y)) (yields f)))
        by (apply nth_error_Some; now rewrite Hy). lia. }
    rewrite Nat.min_l by exact L.
    replace lines with (fst (scan f)) by now rewrite Hs.
    rewrite <- yields_lines, <- filter_yields, firstn_map, map_map. reflexivity.
  - now apply printLastNFiltered_error with (lines := lines).
  - destruct h as [e'|]; [right|now left].
    assert (I : In (s, Some e') (yields f)).
    { apply nth_error_In in Hy. now apply filter_In in Hy. }
    apply In_nth_error in I. destruct I as [i Hi].
    destruct (yields_held f i s e' Hi) as (H1 & H2 & H3).
    rewrite Hs in H3. cbn [snd] in H3. injection H3 as <-.
    split; [reflexivity|]. split; [exact H2|].
    apply nth_error_split in Hi. destruct Hi as (l1 & l2 & E & Hl).
    rewrite E, length_app in H1. cbn [length] in H1.
    assert (l2 = []) by (destruct l2; [reflexivity|cbn [length] in H1; lia]). subst l2.
    rewrite E. apply last_last.
Qed.

Lemma selections_differ_on_error_witness :
  printFirstNFiltered (Some {| data := lit "a" ++ [NL] ++ lit "b" ++ [NL]; readFails := true |})
                      None 1 false = ([lit "a"], 1%Z, None)
  /\ printLastNFiltered (fun _ => true)
       (Some {| data := lit "a" ++ [NL] ++ lit "b" ++ [NL]; readFails := true |})
       None 1 false = Some ([], 0, Some ErrRead).
Proof.
  pose proof (selections_differ_on_error (fun _ => true)
           {| data := lit "a" ++ [NL] ++ lit "b" ++ [NL]; readFails := true |}
           None 1 false [lit "a"; lit "b"] ErrRead (lit "a") None
           eq_refl (le_n 1) eq_refl eq_refl) as H.
  exact (conj (proj1 H) (proj1 (proj2 H))).
Defined.

(** ** The lines of a scan *)

Lemma lines_of_terminated (x : bytes) :
  noNL x -> completeLines (x ++ [NL]) = [x] /\ fragment (x ++ [NL]) = [].
Proof.
  intros H. unfold completeLines, fragment.
  rewrite (splitLines_pending x [NL] H). cbn. auto.
Qed.

Lemma dropCR_CR (l : bytes) : dropCR (l ++ [CR]) = l.
Proof. unfold dropCR. rewrite rev_app_distr. cbn. apply rev_involutive. Qed.

(** A scan whose lines all fit the buffer yields the complete lines and
    the unterminated rest; a failing read is reported after them. *)
Lemma scanFrom_lines (rf : bool) (fuel : nat) (d : bytes) :
  length d <= fuel ->
  Forall (fun l => (Z.of_nat (length l) < maxTokenSize)%Z) (completeLines d ++ [fragment d]) ->
  scanFrom fuel d rf = (scanLines d, if rf then Some ErrRead else None).
Proof.
  revert d. induction fuel as [|fuel IH]; intros d Hlen Hs.
  - destruct d; [reflexivity|cbn in Hlen; lia].
  - destruct d as [|c d']; [reflexivity|].
    cbn [scanFrom]. remember (c :: d') as d eqn:Hd in *.
    assert (Hd' : d <> []) by (subst d; discriminate). clear Hd c d'.
    destruct (IndexByte d NL) as [i|] eqn:E.
    + pose proof (IndexByte_lt _ _ _ E) as Hi.
      assert (C : completeLines d = firstn i d :: completeLines (skipn (i + 1) d)
                  /\ fragment d = fragment (skipn (i + 1) d)).
      { unfold completeLines, fragment. rewrite (splitLines_index d [] i E).
        destruct (splitLines [] (skipn (i + 1) d)); auto. }
      destruct C as [C1 C2]. rewrite C1, C2 in Hs. cbn [app] in Hs.
      inversion Hs as [|? ? H1 H2]; subst.
      rewrite length_firstn, Nat.min_l in H1 by lia.
      apply Z.ltb_lt in H1. rewrite H1.
      rewrite IH; [|rewrite length_skipn; lia|exact H2].
      unfold scanLines, lastLine. now rewrite C1, C2.
    + assert (N : noNL d) by exact E.
      unfold scanLines, lastLine.
      rewrite (completeLines_of_noNL d N), (fragment_of_noNL d N) in *.
      cbn [app] in Hs. inversion Hs as [|? ? H1 _]; subst.
      apply Z.ltb_lt in H1. rewrite H1. now destruct d.
Qed.

Lemma scan_lines (d : bytes) (rf : bool) :
  Forall (fun l => (Z.of_nat (length l) < maxTokenSize)%Z) (completeLines d ++ [fragment d]) ->
  scan {| data := d; readFails := rf |} = (scanLines d, if rf then Some ErrRead else None).
Proof. intros H. unfold scan. cbn [data readFails]. now apply scanFrom_lines. Qed.



(** X10.  A line that ends in CR LF is printed without the carriage
    return by the initial scan, and with it by follow mode: the drain
    cuts at the line feed only, and the filter is matched against the
    line with its carriage return. *)
Theorem follow_keeps_carriage_return (rx : option Regexp) (enableColor : bool) (l : bytes) :
  noNL l -> (Z.of_nat (length l) + 1 < maxTokenSize)%Z ->
  scan {| data := l ++ [CR; NL]; readFails := false |} = ([l], None)
  /\ readNew rx enableColor (onDisk (l ++ [CR; NL])) {| offset := 0; carry := [] |} =
       Some ({| offset := Z.of_nat (length l + 2); carry := [] |},
             emit rx enableColor (l ++ [CR]), Drained).
Proof.
  intros Hl Hlen.
  assert (N : noNL (l ++ [CR])) by (apply noNL_app; [exact Hl|reflexivity]).
  assert (E : l ++ [CR; NL] = (l ++ [CR]) ++ [NL]) by now rewrite <- app_assoc.
  destruct (lines_of_terminated _ N) as [C F].
  split.
  - rewrite scan_lines.
    + unfold scanLines, lastLine. rewrite E, C, F. cbn [app map]. now rewrite dropCR_CR.
    + rewrite E, C, F. cbn [app].
      apply Forall_cons; [|apply Forall_cons; [reflexivity|apply Forall_nil]].
      rewrite length_app. cbn [length]. lia.
  - pose proof (readNew_onDisk rx enableColor (l ++ [CR; NL]) 0 [] ltac:(lia)) as H.
    cbn [Z.of_nat] in H. rewrite H.
    destruct (0 =? length (l ++ [CR; NL])) eqn:E0.
    + apply Nat.eqb_eq in E0. rewrite length_app in E0. cbn in E0. lia.
    + cbn [skipn app]. rewrite E, C, F. cbn [flat_map]. rewrite app_nil_r.
      replace (length ((l ++ [CR]) ++ [NL])) with (length l + 2)
        by (rewrite !length_app; cbn [length]; lia).
      reflexivity.
Qed.

Lemma follow_keeps_carriage_return_witness :
  scan {| data := lit "ab" ++ [CR; NL]; readFails := false |} = ([lit "ab"], None)
  /\ readNew None false (onDisk (lit "ab" ++ [CR; NL])) {| offset := 0; carry := [] |} =
       Some ({| offset := 4; carry := [] |}, [lit "ab" ++ [CR]], Drained).
Proof.
  exact (follow_keeps_carriage_return None false (lit "ab") eq_refl eq_refl).
Defined.

(** ** Follow mode *)

Section TailFacts.
Variable Base : bytes -> bytes.
Variable rx : option Regexp.
Variable enableColor : bool.

(** Every case of the [switch] drains. *)
Lemma onEvent_readNew (op : Z) (v : View) (st : FollowState) :
  onEvent rx enableColor op v st = readNew rx enableColor v st.
Proof.
  unfold onEvent.
  destruct (negb (Z.land op (Z.lor opWrite opChmod) =? 0)%Z); [reflexivity|].
  now destruct (negb (Z.land op (Z.lor (Z.lor opRename opRemove) opCreate) =? 0)%Z).
Qed.

(** The loop is the sequence of the drains its events lead to. *)
Lemma tailLoop_spec (base : bytes) (evs : list event) :
  forall (st : FollowState) (out : list bytes),
    tailLoop Base rx enableColor base evs st out =
      (let '(vs, stop) := drainViews Base base evs in
       match drains rx enableColor vs st with
       | Some (st', o) =>
           Some (st', out ++ o ++ (if stop then [NL :: lit "Shutting down see"] else []), stop)
       | None => None
       end).
Proof.
  induction evs as [|ev evs IH]; intros st out.
  - cbn. now rewrite app_nil_r.
  - destruct ev as [|name op v| |v]; cbn [tailLoop drainViews].
    + cbn. reflexivity.
    + destruct (bytes_eqb (Base name) base); cbn [negb].
      * rewrite onEvent_readNew.
        destruct (drainViews Base base evs) as [vs stop] eqn:Ed. cbn [drains].
        destruct (readNew rx enableColor v st) as [[[st1 o1] h]|]; [|reflexivity].
        rewrite IH.
        destruct (drains rx enableColor vs st1) as [[st2 o2]|]; [|reflexivity].
        now rewrite <- !app_assoc.
      * rewrite IH. now destruct (drainViews Base base evs).
    + apply IH.
    + destruct (drainViews Base base evs) as [vs stop] eqn:Ed. cbn [drains].
      destruct (readNew rx enableColor v st) as [[[st1 o1] h]|]; [|reflexivity].
      rewrite IH.
      destruct (drains rx enableColor vs st1) as [[st2 o2]|]; [|reflexivity].
      now rewrite <- !app_assoc.
Qed.

(** X11.  What the loop prints depends on its events only through the
    drains they lead to: events on other files of the directory and
    watcher errors change nothing, the operation of an event on the
    followed file is irrelevant, a tick counts as such an event, and
    nothing is handled after the cancellation. *)
Theorem tail_events_only_drain (base : bytes) (evs1 evs2 : list event)
        (st : FollowState) (out : list bytes) :
  drainViews Base base evs1 = drainViews Base base evs2 ->
  tailLoop Base rx enableColor base evs1 st out =
    tailLoop Base rx enableColor base evs2 st out.
Proof. intros H. now rewrite !tailLoop_spec, H. Qed.

(** X12.  Follow mode over an appended-to file: however the appended
    bytes are seen, piece by piece, by the first drain, by ticks and by
    events on the file, the loop prints exactly the lines the bytes
    complete, as one drain of the whole would, and holds the
    unterminated rest back. *)
Theorem follow_appends (path pre first : bytes) (cs : list bytes) (evs : list event) :
  fst (drainViews Base (Base path) evs) = appends (pre ++ first) cs ->
  follow Base rx enableColor path true true (onDisk (pre ++ first)) evs
         (Z.of_nat (length pre)) =
    (let '(st, o) := afterAppend rx enableColor pre [] (first ++ concat cs) in
     Some (st,
           o ++ (if snd (drainViews Base (Base path) evs)
                 then [NL :: lit "Shutting down see"] else []),
           snd (drainViews Base (Base path) evs))).
Proof.
  intros Hv. unfold follow. cbn [negb].
  rewrite readNew_append.
  pose proof (afterAppend_app rx enableColor pre [] first (concat cs)) as HA.
  destruct (afterAppend rx enableColor pre [] first) as [st1 o1] eqn:E1.
  assert (O1 : st1 = {| offset := Z.of_nat (length (pre ++ first)); carry := carry st1 |}).
  { destruct first; inversion E1; cbn; now rewrite ?app_nil_r. }
  rewrite tailLoop_spec.
  destruct (drainViews Base (Base path) evs) as [vs stop]. cbn [fst snd] in *. subst vs.
  rewrite O1, drains_appends.
  destruct (afterAppend rx enableColor (pre ++ first) (carry st1) (concat cs)) as [st2 o2].
  rewrite HA. now rewrite <- app_assoc.
Qed.

(** X13.  A drain knows the file by its size alone.  A file replaced by
    one that is at least as long is taken for an append: the first
    [offset] bytes of the new content are never printed and the pending
    [carry] is put before the bytes after them; a replacement of the same
    length goes unnoticed. *)
Theorem replaced_file_is_an_append (old skipped rest c : bytes) :
  length skipped = length old ->
  readNew rx enableColor (onDisk (skipped ++ rest))
          {| offset := Z.of_nat (length old); carry := c |} =
    Some (match rest with
          | [] => ({| offset := Z.of_nat (length old); carry := c |}, [])
          | _ => ({| offset := Z.of_nat (length (skipped ++ rest));
                     carry := fragment (c ++ rest) |},
                  flat_map (emit rx enableColor) (completeLines (c ++ rest)))
          end,
          match rest with [] => UpToDate | _ => Drained end).
Proof.
  intros H. rewrite <- H, readNew_append. now destruct rest.
Qed.

(** X14.  A file that is shorter than [offset] when it is read, though
    the stat before had reported more (it shrank in between): every read
    returns no byte and the end-of-input error, [start] does not move,
    and the loop repeats the same read; the drain does not return. *)
Theorem readNew_spins_on_short_file (d : bytes) (st : FollowState) (cur : Z) :
  (0 <= offset st)%Z -> (Z.of_nat (length d) <= offset st)%Z -> (offset st < cur)%Z ->
  ReadAt {| ReadAt := fileReadAt d |} (Z.min (cur - offset st) chunk) (offset st) = ([], EOF)
  /\ (forall fuel c out,
        readLoop rx enableColor fuel {| ReadAt := fileReadAt d |} cur (offset st) c out = None)
  /\ readNew rx enableColor
             {| StatSize := Some cur; OpenFile := Some {| ReadAt := fileReadAt d |} |} st = None.
Proof.
  intros H0 Hd Hc.
  assert (R : forall want, (0 < want)%Z -> fileReadAt d want (offset st) = ([], EOF)).
  { intros want Hw. unfold fileReadAt. rewrite skipn_all2 by lia.
    rewrite firstn_nil. cbn [length Z.of_nat].
    apply Z.ltb_lt in Hw. now rewrite Hw. }
  assert (L : forall fuel c out,
             readLoop rx enableColor fuel {| ReadAt := fileReadAt d |} cur (offset st) c out
             = None).
  { intros fuel c out. destruct fuel as [|fuel]; cbn [readLoop];
      apply Z.ltb_lt in Hc; rewrite Hc; [reflexivity|].
    cbn [ReadAt]. apply Z.ltb_lt in Hc. pose proof chunk_pos.
    rewrite R by (destruct (cur - offset st >? chunk)%Z; lia). reflexivity. }
  split; [|split].
  - cbn [ReadAt]. apply R. pose proof chunk_pos. lia.
  - exact L.
  - unfold readNew. cbn [StatSize OpenFile].
    destruct (cur <? offset st)%Z eqn:E1; [apply Z.ltb_lt in E1; lia|].
    destruct (cur =? offset st)%Z eqn:E2; [apply Z.eqb_eq in E2; lia|].
    now rewrite L.
Qed.

End TailFacts.

Lemma tail_events_only_drain_witness :
  let v := onDisk (lit "a" ++ [NL]) in
  tailLoop unixBase None false (lit "app.log")
           [FsEvent (lit "/var/log/other.log") opWrite v; WatcherError;
            FsEvent (lit "/var/log/app.log") opRename v; CtxDone; Tick v]
           {| offset := 0; carry := [] |} [] =
    tailLoop unixBase None false (lit "app.log") [Tick v; CtxDone]
             {| offset := 0; carry := [] |} [].
Proof.
  exact (tail_events_only_drain unixBase None false (lit "app.log")
           [FsEvent (lit "/var/log/other.log") opWrite (onDisk (lit "a" ++ [NL])); WatcherError;
            FsEvent (lit "/var/log/app.log") opRename (onDisk (lit "a" ++ [NL])); CtxDone;
            Tick (onDisk (lit "a" ++ [NL]))]
           [Tick (onDisk (lit "a" ++ [NL])); CtxDone]
           {| offset := 0; carry := [] |} [] eq_refl).
Defined.

Lemma follow_appends_witness :
  follow unixBase None false (lit "/var/log/app.log") true true
         (onDisk (lit "x" ++ [NL] ++ lit "ab"))
         [Tick (onDisk (lit "x" ++ [NL] ++ lit "ab" ++ lit "c" ++ [NL] ++ lit "d"));
          FsEvent (lit "/var/log/app.log") opWrite
                  (onDisk (lit "x" ++ [NL] ++ lit "ab" ++ lit "c" ++ [NL] ++ lit "d" ++ lit "e"));
          CtxDone]
         2 =
    Some ({| offset := 8; carry := lit "de" |},
          [lit "abc"; NL :: lit "Shutting down see"], true).
Proof.
  exact (follow_appends unixBase None false (lit "/var/log/app.log")
           (lit "x" ++ [NL]) (lit "ab") [lit "c" ++ [NL] ++ lit "d"; lit "e"]
           [Tick (onDisk (lit "x" ++ [NL] ++ lit "ab" ++ lit "c" ++ [NL] ++ lit "d"));
            FsEvent (lit "/var/log/app.log") opWrite
                    (onDisk (lit "x" ++ [NL] ++ lit "ab" ++ lit "c" ++ [NL] ++ lit "d" ++ lit "e"));
            CtxDone]
           eq_refl).
Defined.

Lemma replaced_file_is_an_append_witness :
  readNew None false (onDisk (lit "NEW1" ++ [NL] ++ lit "new2" ++ [NL]))
          {| offset := 3; carry := lit "ol" |} =
    Some ({| offset := 10; carry := [] |}, [lit "ol1"; lit "new2"], Drained).
Proof.
  exact (replaced_file_is_an_append None false (lit "old") (lit "NEW")
           (lit "1" ++ [NL] ++ lit "new2" ++ [NL]) (lit "ol") eq_refl).
Defined.

Lemma readNew_spins_on_short_file_witness :
  readNew None false
          {| StatSize := Some 9%Z; OpenFile := Some {| ReadAt := fileReadAt (lit "ab") |} |}
          {| offset := 4; carry := [] |} = None.
Proof.
  exact (proj2 (proj2 (readNew_spins_on_short_file None false (lit "ab")
                         {| offset := 4; carry := [] |} 9 ltac:(discriminate)
                         ltac:(discriminate) eq_refl))).
Defined.

(** ** From the initial phase to follow mode *)

(** X15.  No line is printed twice: over a file that nothing touches,
    whichever selection ran, tail mode starts at the end of the file, and
    the first drain of follow mode prints nothing. *)
Theorem see_then_first_drain (Compile : bytes -> option Regexp) (enableColor : bool)
        (grant : nat -> bool) (Base : bytes -> bytes) (fs : FS) (pattern : bytes) (tail : bool) (ns ne : Z)
        (out : list bytes) (off : Z) (d : bytes) (rf : bool)
        (rx : option Regexp) (path : bytes) (evs : list event) :
  Stat fs = Some (Z.of_nat (length d)) ->
  Open fs = Some {| data := d; readFails := rf |} ->
  see Compile enableColor grant fs pattern tail ns ne = Tailing out off ->
  off = Z.of_nat (length d)
  /\ follow Base rx enableColor path true true (onDisk d) evs off =
       tailLoop Base rx enableColor (Base path) evs {| offset := off; carry := [] |} [].
Proof.
  intros Hs Ho H.
  assert (F : forall t o z, finish t o z = Tailing out off -> z = off).
  { intros t o z. unfold finish. destruct t; cbn [negb]; intros E; inversion E. reflexivity. }
  assert (E : off = Z.of_nat (length d)).
  { unfold see in H. destruct (compileFilter Compile pattern) as [r|]; [|discriminate].
    destruct ((ns >? 0)%Z && (ne >? 0)%Z); [discriminate|].
    destruct (ns >? 0)%Z.
    - unfold printFirst in H.
      destruct (printFirstNFiltered (Open fs) r ns enableColor) as [[o c] [e|]];
        [discriminate|].
      apply F in H. unfold sizeOr in H. rewrite Hs in H. now symmetry.
    - destruct (ne >? 0)%Z.
      + unfold printLast in H.
        destruct (printLastNFiltered grant (Open fs) r (Z.to_nat ne) enableColor)
          as [[[o c] [e|]]|]; [discriminate| |discriminate].
        apply F in H. unfold sizeOr in H. rewrite Hs in H. now symmetry.
      + unfold printAll in H. rewrite Ho in H.
        destruct (scan {| data := d; readFails := rf |}) as [ls [e|]]; [discriminate|].
        apply F in H. cbn [data] in H. now symmetry. }
  split; [exact E|]. subst off. unfold follow. cbn [negb].
  rewrite (readNew_same_size rx enableColor (onDisk d)
             {| offset := Z.of_nat (length d); carry := [] |} eq_refl).
  reflexivity.
Qed.

Lemma see_then_first_drain_witness :
  follow unixBase None false (lit "app.log") true true (onDisk (lit "a" ++ [NL])) [] 2 =
    Some ({| offset := 2; carry := [] |}, [], false).
Proof.
  exact (proj2 (see_then_first_drain (fun _ => None) false (fun _ => true) unixBase
                  {| Stat := Some 2%Z; IsDir := false;
                     Open := Some {| data := lit "a" ++ [NL]; readFails := false |} |}
                  [] true 0 0
                  [lit "Reading existing lines..."; lit "a";
                   lit "Entering tail mode (Ctrl+C to stop)..."]
                  2 (lit "a" ++ [NL]) false None (lit "app.log") []
                  eq_refl eq_refl eq_refl)).
Defined.

(** X16.  A file that cannot be opened ends the program with a fatal
    error when all lines are to be printed, but is a logged error after
    which [see] returns, nothing printed and no tail mode entered, when a
    first-N or last-N selection was asked for. *)
Theorem open_error_by_selection (Compile : bytes -> option Regexp) (enableColor : bool)
        (grant : nat -> bool) (fs : FS) (pattern : bytes) (rx : option Regexp) (tail : bool) (ns ne : Z) :
  Open fs = None ->
  compileFilter Compile pattern = Some rx ->
  see Compile enableColor grant fs pattern tail ns ne =
    if ((ns >? 0) && (ne >? 0))%Z then Fatal "Use either -ns or -ne, not both"
    else if ((ns >? 0) || (ne >? 0))%Z then Failed []
    else Fatal "Error opening file".
Proof.
  intros Ho Hc. unfold see. rewrite Hc.
  destruct (ns >? 0)%Z, (ne >? 0)%Z; cbn [andb orb]; try reflexivity.
  - unfold printFirst. now rewrite Ho.
  - unfold printLast. now rewrite Ho.
  - unfold printAll. now rewrite Ho.
Qed.

Lemma open_error_by_selection_witness :
  see (fun _ => None) false (fun _ => true)
      {| Stat := Some 0%Z; IsDir := false; Open := None |}
      [] true 0 3 = Failed []
  /\ see (fun _ => None) false (fun _ => true)
      {| Stat := Some 0%Z; IsDir := false; Open := None |}
         [] true 0 0 = Fatal "Error opening file".
Proof.
  split.
  - exact (open_error_by_selection (fun _ => None) false (fun _ => true)
             {| Stat := Some 0%Z; IsDir := false; Open := None |} [] None true 0 3
             eq_refl eq_refl).
  - exact (open_error_by_selection (fun _ => None) false (fun _ => true)
             {| Stat := Some 0%Z; IsDir := false; Open := None |} [] None true 0 0
             eq_refl eq_refl).
Defined.

(** ** Rendering *)

Lemma renderLine_segments (re : Regexp) (raw : bytes) :
  exec_ok re ->
  renderLine raw (Some re) true =
    concat (map (renderSegment true) (segments raw 0 (FindAllStringIndex re raw))).
Proof.
  intros Hok. pose proof (FindAllStringIndex_ok re raw Hok) as Hs.
  unfold renderLine. cbn [negb].
  destruct (FindAllStringIndex re raw) as [|sp rest] eqn:E.
  - cbn [segments skipn]. destruct raw as [|c raw]; [reflexivity|].
    cbn. now rewrite app_nil_r.
  - exact (renderSpan_segments raw (sp :: rest) [] 0 Hs).
Qed.

(** A rendered segment is its text with whole markers put in. *)
Lemma segment_tokens (g : segment) :
  ~ In ESC (segText g) -> plainPass g = true ->
  exists ts, Forall tokOK ts /\ text ts = segText g /\ renderSegment true g = flat ts.
Proof.
  destruct g as [t|t]; cbn [segText renderSegment plainPass]; intros He Hp.
  - apply andb_true_iff in Hp. destruct Hp as [Hj Hy].
    apply negb_true_iff in Hj, Hy. exact (colorizeGeneric_tokens t He Hj Hy).
  - exists (Mk ansiCyan :: map Ch t ++ [Mk ansiReset]). split; [|split].
    + constructor; [cbn; tauto|]. apply Forall_app. split; [apply tokOK_chars, He|].
      constructor; [cbn; tauto|constructor].
    + change (Mk ansiCyan :: map Ch t ++ [Mk ansiReset])
        with ([Mk ansiCyan] ++ map Ch t ++ [Mk ansiReset]).
      rewrite !text_app, text_chars. cbn. apply app_nil_r.
    + rewrite flat_cons, flat_app, flat_chars. cbn [tokBytes flat map concat].
      now rewrite app_nil_r.
Qed.

Lemma segments_tokens (segs : list segment) :
  ~ In ESC (concat (map segText segs)) -> forallb plainPass segs = true ->
  exists ts, Forall tokOK ts /\ text ts = concat (map segText segs)
             /\ concat (map (renderSegment true) segs) = flat ts.
Proof.
  induction segs as [|g segs IH]; cbn [map concat forallb]; intros He Hp.
  - exists []. repeat split. constructor.
  - apply andb_true_iff in Hp. destruct Hp as [Hg Hp].
    assert (He1 : ~ In ESC (segText g)) by (intros H; apply He, in_or_app; now left).
    assert (He2 : ~ In ESC (concat (map segText segs)))
      by (intros H; apply He, in_or_app; now right).
    destruct (segment_tokens g He1 Hg) as (t1 & F1 & T1 & R1).
    destruct (IH He2 Hp) as (t2 & F2 & T2 & R2).
    exists (t1 ++ t2). split; [apply Forall_app; auto|].
    rewrite text_app, flat_app. split; congruence.
Qed.

(** X17.  A rendered line is the raw line with color codes put in:
    for a line without escape byte none of whose gaps between the matches
    takes the structured pass, removing the color and reset codes from
    what [renderLine] returns gives the raw line back, with a filter as
    without one. *)
Theorem renderLine_strip (raw : bytes) :
  count_occ ascii_dec raw ESC = 0 ->
  (forall re, exec_ok re ->
     forallb plainPass (segments raw 0 (FindAllStringIndex re raw)) = true ->
     stripMarkers (renderLine raw (Some re) true) = raw)
  /\ (plainPass (Plain raw) = true -> stripMarkers (renderLine raw None true) = raw).
Proof.
  intros He. apply count_occ_not_In in He. split.
  - intros re Hok Hp. rewrite (renderLine_segments re raw Hok).
    pose proof (segments_text raw (FindAllStringIndex re raw) 0
                  (FindAllStringIndex_ok re raw Hok)) as Ht.
    cbn [skipn] in Ht.
    destruct (segments_tokens (segments raw 0 (FindAllStringIndex re raw)))
      as (ts & F & T & R); [now rewrite Ht|exact Hp|].
    rewrite R, stripMarkers_flat by exact F. congruence.
  - intros Hp. destruct (segment_tokens (Plain raw) He Hp) as (ts & F & T & R).
    cbn [renderLine]. cbn [renderSegment segText] in *.
    rewrite R, stripMarkers_flat by exact F. exact T.
Qed.

Lemma renderLine_strip_witness :
  stripMarkers (renderLine (lit "GET /index.html 200 from 10.0.0.7")
                           (Some (MustCompile (Str "GET"))) true) =
    lit "GET /index.html 200 from 10.0.0.7".
Proof.
  apply (proj1 (renderLine_strip (lit "GET /index.html 200 from 10.0.0.7") eq_refl)).
  - apply MustCompile_ok.
  - vm_compute. reflexivity.
Defined.

(** ** What the patterns match *)

Lemma Matches_Cat_inv (s : bytes) (r1 r2 : regex) (i k : nat) :
  Matches s (Cat r1 r2) i k -> exists j, Matches s r1 i j /\ Matches s r2 j k.
Proof. intros H. inversion H; subst. eauto. Qed.

Lemma Matches_Alt_inv (s : bytes) (r1 r2 : regex) (i j : nat) :
  Matches s (Alt r1 r2) i j -> Matches s r1 i j \/ Matches s r2 i j.
Proof. intros H. inversion H; subst; auto. Qed.

Lemma Matches_Class_inv (s : bytes) (p : ascii -> bool) (i j : nat) :
  Matches s (Class p) i j -> j = S i /\ exists c, nth_error s i = Some c /\ p c = true.
Proof. intros H. inversion H; subst. eauto. Qed.

Lemma Matches_Capture_inv (s : bytes) (n : nat) (r : regex) (i j : nat) :
  Matches s (Capture n r) i j -> Matches s r i j.
Proof. intros H. now inversion H; subst. Qed.

Lemma Matches_WB_inv (s : bytes) (i j : nat) : Matches s WordBoundary i j -> j = i.
Proof. intros H. now inversion H; subst. Qed.

Lemma Matches_Empty_inv (s : bytes) (i j : nat) : Matches s Empty i j -> j = i.
Proof. intros H. now inversion H; subst. Qed.

Lemma firstn_plus (A : Type) (n m : nat) (l : list A) :
  firstn (n + m) l = firstn n l ++ firstn m (skipn n l).
Proof.
  revert l. induction n as [|n IH]; intros [|a l]; cbn; try reflexivity.
  - now rewrite firstn_nil.
  - now rewrite IH.
Qed.

Lemma slice_app (s : bytes) (i j k : nat) :
  i <= j <= k -> slice s i k = slice s i j ++ slice s j k.
Proof.
  intros H. unfold slice. replace (k - i) with ((j - i) + (k - j)) by lia.
  rewrite firstn_plus, skipn_skipn. repeat f_equal. lia.
Qed.

Lemma slice_one (s : bytes) (i : nat) (c : ascii) :
  nth_error s i = Some c -> slice s i (S i) = [c].
Proof.
  intros H. unfold slice. replace (S i - i) with 1 by lia.
  revert s H. induction i as [|i IH]; intros [|a s] H; cbn in H; try discriminate.
  - now inversion H.
  - cbn [skipn]. now apply IH.
Qed.

Lemma slice_cons (s : bytes) (i j : nat) (c : ascii) :
  nth_error s i = Some c -> i < j -> slice s i j = c :: slice s (S i) j.
Proof.
  intros H Hlt. rewrite (slice_app s i (S i) j) by lia. now rewrite (slice_one _ _ _ H).
Qed.

Lemma slice_forallb (P : ascii -> bool) (s : bytes) (i j : nat) :
  (forall k, i <= k < j -> exists c, nth_error s k = Some c /\ P c = true) ->
  forallb P (slice s i j) = true.
Proof.
  remember (j - i) as n eqn:Hn. revert i Hn. induction n as [|n IH]; intros i Hn H.
  - unfold slice. now rewrite <- Hn.
  - destruct (H i ltac:(lia)) as (c & Hc & Hp).
    rewrite (slice_cons _ _ _ _ Hc) by lia. cbn [forallb]. rewrite Hp. cbn [andb].
    apply IH; [lia|]. intros k Hk. apply H. lia.
Qed.

(** A sequence of classes matches as many bytes, one in each class. *)
Lemma Matches_Seq_classes (s : bytes) (ps : list (ascii -> bool)) :
  forall i j,
    Matches s (Seq (map Class ps)) i j ->
    j = i + length ps /\ Forall2 (fun p c => p c = true) ps (slice s i j).
Proof.
  induction ps as [|p ps IH]; intros i j H.
  - cbn in H. apply Matches_Empty_inv in H. subst j.
    rewrite slice_empty, Nat.add_0_r. split; [reflexivity|constructor].
  - destruct ps as [|q ps].
    + cbn in H. apply Matches_Class_inv in H. destruct H as (-> & c & Hc & Hp).
      split; [cbn; lia|]. rewrite (slice_one _ _ _ Hc). repeat constructor. exact Hp.
    + cbn [map Seq] in H. apply Matches_Cat_inv in H. destruct H as (m & H1 & H2).
      apply Matches_Class_inv in H1. destruct H1 as (-> & c & Hc & Hp).
      apply IH in H2. destruct H2 as (-> & F).
      split; [cbn [length]; lia|].
      rewrite (slice_cons _ _ _ _ Hc) by (cbn [length]; lia). now constructor.
Qed.

(** Two bytes that are equal but for the case have the same capital. *)
Lemma upper_fold (a c : ascii) : isByte (lower a) (lower c) = true -> upper c = upper a.
Proof.
  intros H.
  assert (G : forall a, (fun a => forallb (fun c =>
                implb (isByte (lower a) (lower c)) (Ascii.eqb (upper c) (upper a)))
                (map ascii_of_nat (seq 0 256))) a = true).
  { apply ascii_all. vm_compute. reflexivity. }
  specialize (G a). cbn beta in G.
  pose proof (ascii_all _ G c) as G'. cbn beta in G'.
  rewrite H in G'. now apply Ascii.eqb_eq.
Qed.

(** Under [(?i)] a literal matches its letters in any case. *)
Lemma Matches_StrFold (s : bytes) (w : string) (i j : nat) :
  Matches s (StrFold w) i j -> ToUpper (slice s i j) = ToUpper (lit w).
Proof.
  unfold StrFold.
  rewrite <- (map_map (fun a => fun c => isByte (lower a) (lower c)) Class).
  intros H. apply Matches_Seq_classes in H. destruct H as [_ F].
  remember (slice s i j) as cs eqn:Hcs. clear Hcs.
  revert cs F. induction (lit w) as [|a l IH]; intros cs F; cbn [map] in F.
  - inversion F. reflexivity.
  - inversion F as [|p c ps cs' Hp F']; subst. cbn [ToUpper map].
    f_equal; [now apply upper_fold|]. apply IH, F'.
Qed.

(** X18.  Every word the level pass matches is colored, in the color of
    its level and in the letter case it has in the text: the match is
    one of the nine level words in some case, so the [default] branch of
    the [switch] is never taken. *)
Theorem level_words_are_colored (s : bytes) (pos a0 a1 : nat) (c : captures) :
  doExecute reLvl s pos = Some (a0, a1, c) ->
  let w := slice s a0 a1 in
  (ToUpper w = lit "DEBUG" /\ colorLevel w = ansiBlue ++ w ++ ansiReset)
  \/ (ToUpper w = lit "INFO" /\ colorLevel w = ansiGreen ++ w ++ ansiReset)
  \/ (In (ToUpper w) [lit "WARN"; lit "WARNING"]
      /\ colorLevel w = ansiYellow ++ w ++ ansiReset)
  \/ (In (ToUpper w) [lit "ERROR"; lit "ERR"; lit "CRIT"; lit "FATAL"; lit "FAIL"]
      /\ colorLevel w = ansiRed ++ w ++ ansiReset).
Proof.
  intros H. cbn zeta. apply doExecute_matches in H.
  unfold patLvl in H. cbn [Seq Alts map] in H.
  apply Matches_Cat_inv in H. destruct H as (j0 & H0 & H).
  apply Matches_WB_inv in H0. subst j0.
  apply Matches_Cat_inv in H. destruct H as (j1 & H & H1).
  apply Matches_WB_inv in H1. subst j1.
  apply Matches_Capture_inv in H.
  repeat (apply Matches_Alt_inv in H; destruct H as [H|H]);
    apply Matches_StrFold in H; unfold colorLevel; rewrite H.
  - left. split; reflexivity.
  - right; left. split; reflexivity.
  - right; right; left. split; [cbn; tauto|reflexivity].
  - right; right; left. split; [cbn; tauto|reflexivity].
  - right; right; right. split; [cbn; tauto|reflexivity].
  - right; right; right. split; [cbn; tauto|reflexivity].
  - right; right; right. split; [cbn; tauto|reflexivity].
  - right; right; right. split; [cbn; tauto|reflexivity].
  - right; right; right. split; [cbn; tauto|reflexivity].
Qed.

Lemma level_words_are_colored_witness :
  colorLevel (lit "Warning") = ansiYellow ++ lit "Warning" ++ ansiReset.
Proof.
  pose proof (level_words_are_colored (lit "a Warning!") 0 2 9 [(1, (2, 9))] eq_refl) as H.
  cbn zeta in H.
  destruct H as [[H _]|[[H _]|[[_ H]|[H _]]]].
  - discriminate H.
  - discriminate H.
  - exact H.
  - exfalso. cbn in H. repeat (destruct H as [H|H]; [discriminate H|]). exact H.
Defined.

Lemma LastIndexByte_none (y : bytes) (c : ascii) :
  forallb (fun x => negb (Ascii.eqb x c)) y = true -> LastIndexByte y c = None.
Proof.
  induction y as [|a y IH]; cbn [forallb LastIndexByte]; intros H; [reflexivity|].
  apply andb_true_iff in H. destruct H as [Ha H]. rewrite (IH H).
  apply negb_true_iff in Ha. now rewrite Ha.
Qed.

Lemma LastIndexByte_last (x y : bytes) (c : ascii) :
  LastIndexByte y c = None -> LastIndexByte (x ++ c :: y) c = Some (length x).
Proof.
  intros H. induction x as [|a x IH]; cbn [app LastIndexByte length].
  - now rewrite H, Ascii.eqb_refl.
  - now rewrite IH.
Qed.

Lemma space_not_quote (x : ascii) : isSpace x = true -> negb (Ascii.eqb x DQUOTE) = true.
Proof. revert x. apply implb_all. vm_compute. reflexivity. Qed.

(** X19.  Every JSON key the structured pass matches is colored between
    its quotes: the match is a quote, the key, a quote, blanks and a
    colon, and the replacement puts the key in green, leaving the quotes,
    the blanks and the colon as they are; the fallback that returns the
    match unchanged is never taken. *)
Theorem json_key_is_colored (src : bytes) (pos a0 a1 : nat) (c : captures) :
  doExecute reJSONKey src pos = Some (a0, a1, c) ->
  exists key blanks,
    slice src a0 a1 = [DQUOTE] ++ key ++ [DQUOTE] ++ blanks ++ lit ":"
    /\ forallb isSpace blanks = true
    /\ colorJSONKey (slice src a0 a1) =
         [DQUOTE] ++ ansiGreen ++ key ++ ansiReset ++ [DQUOTE] ++ blanks ++ lit ":".
Proof.
  intros H. apply doExecute_matches in H. cbn [Seq] in H.
  apply Matches_Cat_inv in H. destruct H as (i1 & H1 & H).
  apply Matches_Cat_inv in H. destruct H as (i2 & H2 & H).
  apply Matches_Cat_inv in H. destruct H as (i3 & H3 & H).
  apply Matches_Cat_inv in H. destruct H as (i4 & H4 & H5).
  apply Matches_Class_inv in H1. destruct H1 as (-> & q1 & Hq1 & E1).
  apply Matches_Class_inv in H3. destruct H3 as (-> & q2 & Hq2 & E2).
  apply Matches_Class_inv in H5. destruct H5 as (-> & q3 & Hq3 & E3).
  apply Ascii.eqb_eq in E1, E2, E3. subst q1 q2 q3.
  pose proof (Matches_minLen _ _ _ _ H2) as L2. cbn [minLen] in L2.
  destruct (Matches_chars src isSpace _ _ _ H4 (fun c0 Hc0 => Hc0)) as [L4 C4].
  set (key := slice src (S a0) i2).
  set (blanks := slice src (S i2) i4).
  assert (Hm : slice src a0 (S i4) = [DQUOTE] ++ key ++ [DQUOTE] ++ blanks ++ lit ":").
  { rewrite (slice_cons _ _ _ _ Hq1) by lia.
    rewrite (slice_app src (S a0) i2 (S i4)) by lia.
    rewrite (slice_cons _ _ _ _ Hq2) by lia.
    rewrite (slice_app src (S i2) i4 (S i4)) by lia.
    now rewrite (slice_one _ _ _ Hq3). }
  assert (Hb : forallb isSpace blanks = true) by (apply slice_forallb, C4).
  exists key, blanks. split; [exact Hm|]. split; [exact Hb|].
  rewrite Hm. unfold colorJSONKey.
  assert (Hi : IndexByte ([DQUOTE] ++ key ++ [DQUOTE] ++ blanks ++ lit ":") DQUOTE = Some 0)
    by reflexivity.
  assert (Hl : LastIndexByte ([DQUOTE] ++ key ++ [DQUOTE] ++ blanks ++ lit ":") DQUOTE
               = Some (S (length key))).
  { change ([DQUOTE] ++ key ++ [DQUOTE] ++ blanks ++ lit ":")
      with ((DQUOTE :: key) ++ DQUOTE :: blanks ++ lit ":").
    apply LastIndexByte_last, LastIndexByte_none.
    rewrite forallb_app. apply andb_true_iff. split; [|reflexivity].
    clear - Hb. induction blanks as [|x l IH]; [reflexivity|].
    cbn [forallb] in *. apply andb_true_iff in Hb. destruct Hb as [Hx Hb].
    rewrite (space_not_quote x Hx). now apply IH. }
  rewrite Hi, Hl. cbn [Nat.leb Nat.add]. unfold slice.
  cbn [app firstn skipn]. replace (S (length key) - 1) with (length key) by lia.
  rewrite firstn_app, firstn_all, Nat.sub_diag, app_nil_r. cbn [firstn].
  rewrite skipn_app, skipn_all, Nat.sub_diag. reflexivity.
Qed.

Lemma json_key_is_colored_witness :
  let src := lit "{" ++ [DQUOTE] ++ lit "id" ++ [DQUOTE] ++ lit " : 1}" in
  exists key blanks,
    slice src 1 7 = [DQUOTE] ++ key ++ [DQUOTE] ++ blanks ++ lit ":"
    /\ forallb isSpace blanks = true
    /\ colorJSONKey (slice src 1 7) =
         [DQUOTE] ++ ansiGreen ++ key ++ ansiReset ++ [DQUOTE] ++ blanks ++ lit ":".
Proof.
  exact (json_key_is_colored (lit "{" ++ [DQUOTE] ++ lit "id" ++ [DQUOTE] ++ lit " : 1}")
           0 1 7 [(1, (3, 4)); (1, (2, 3))] eq_refl).
Defined.

(** ** The filter and the selections *)

Lemma shown_app (rx : option Regexp) (enableColor : bool) (a b : list bytes) :
  shown rx enableColor (a ++ b) = shown rx enableColor a ++ shown rx enableColor b.
Proof. unfold shown. now rewrite filter_app, map_app. Qed.

Lemma emit_shown (rx : option Regexp) (enableColor : bool) (line : bytes) :
  emit rx enableColor line = shown rx enableColor (emit None false line).
Proof.
  change (emit None false line) with [line]. unfold emit, shown. cbn [filter].
  now destruct (selected rx line).
Qed.

Lemma emitLines_shown (rx : option Regexp) (enableColor : bool) (fuel : nat) :
  forall (carry : bytes) (out : list bytes),
    emitLines rx enableColor fuel carry (shown rx enableColor out) =
      (let '(c, o) := emitLines None false fuel carry out in (c, shown rx enableColor o)).
Proof.
  induction fuel as [|fuel IH]; intros carry out; cbn [emitLines]; [reflexivity|].
  destruct (IndexByte carry NL) as [nl|]; [|reflexivity].
  now rewrite emit_shown, <- shown_app, IH.
Qed.

Lemma readLoop_shown (rx : option Regexp) (enableColor : bool) (f : Handle) (cur : Z)
      (fuel : nat) :
  forall (start : Z) (carry : bytes) (out : list bytes),
    readLoop rx enableColor fuel f cur start carry (shown rx enableColor out) =
      match readLoop None false fuel f cur start carry out with
      | Some (c, o, how) => Some (c, shown rx enableColor o, how)
      | None => None
      end.
Proof.
  induction fuel as [|fuel IH]; intros start carry out; cbn [readLoop].
  - now destruct (start <? cur)%Z.
  - destruct (start <? cur)%Z; [|reflexivity].
    destruct (ReadAt f _ start) as [buf e].
    destruct (Z.of_nat (length buf) >? 0)%Z.
    + rewrite emitLines_shown.
      destruct (emitLines None false (length (carry ++ buf)) (carry ++ buf) out) as [c o].
      destruct e; try reflexivity; apply IH.
    + now destruct e.
Qed.

(** X20.  The filter and the coloring decide what a drain prints, never
    where the follower stands: a drain with a filter ends in the state
    and by the path of the drain without one, and prints, rendered, the
    lines the filter selects among those the drain without filter
    prints. *)
Theorem readNew_filter (rx : option Regexp) (enableColor : bool) (v : View)
        (st : FollowState) :
  readNew rx enableColor v st =
    match readNew None false v st with
    | Some (st', lines, how) => Some (st', shown rx enableColor lines, how)
    | None => None
    end.
Proof.
  unfold readNew. destruct (StatSize v) as [cur|]; [|reflexivity].
  set (st1 := if (cur <? offset st)%Z then {| offset := 0; carry := [] |} else st).
  destruct (cur =? offset st1)%Z; [reflexivity|].
  destruct (OpenFile v) as [f|]; [|reflexivity].
  change (@nil bytes) with (shown rx enableColor []) at 1.
  rewrite readLoop_shown.
  now destruct (readLoop None false _ f cur (offset st1) (carry st1) [])
    as [[[c o] how]|].
Qed.

(** X21.  When the file holds no more than [n] selected lines, and the
    ring of [n] strings is made, the first-N and the last-N selection
    print the same: all the selected lines, in file order, and return
    their number. *)
Theorem selections_agree_when_few (grant : nat -> bool) (f : File) (rx : option Regexp)
        (n : nat) (enableColor : bool) (lines : list bytes) :
  scan f = (lines, None) ->
  1 <= n ->
  makeStrings grant n = Some (repeat [] n) ->
  length (filter (selected rx) lines) <= n ->
  printFirstNFiltered (Some f) rx (Z.of_nat n) enableColor =
    (shown rx enableColor lines, Z.of_nat (length (filter (selected rx) lines)), None)
  /\ printLastNFiltered grant (Some f) rx n enableColor =
       Some (shown rx enableColor lines, length (filter (selected rx) lines), None).
Proof.
  intros Hs Hn Hg Hm. split.
  - unfold printFirstNFiltered. rewrite firstNLoop_spec. cbn zeta.
    replace (Z.to_nat (Z.max 1 (Z.of_nat n - 0))) with n by lia.
    assert (E : map fst (filter (fun y => selected rx (fst y)) (yields f)) =
                filter (selected rx) lines).
    { rewrite filter_yields, yields_lines. now rewrite Hs. }
    assert (L : length (filter (fun y => selected rx (fst y)) (yields f)) =
                length (filter (selected rx) lines)).
    { now rewrite <- E, length_map. }
    rewrite firstn_all2 by lia. rewrite Nat.min_r by lia.
    cbn [app]. unfold shown. rewrite <- E, map_map, L. f_equal.
    { rewrite <- E, length_map. reflexivity. }
    rewrite Hs. cbn [snd].
    destruct (nth_error (filter (fun y => selected rx (fst y)) (yields f)) (n - 1))
      as [[s [e|]]|] eqn:Hy; try reflexivity.
    apply nth_error_In, filter_In in Hy. destruct Hy as [Hy _].
    apply In_nth_error in Hy. destruct Hy as [i Hi].
    destruct (yields_held f i s e Hi) as (_ & _ & H3).
    rewrite Hs in H3. discriminate.
  - unfold printLastNFiltered. rewrite Hg, Hs.
    destruct (Nat.eqb_spec n 0) as [E|_]; [lia|]. cbn [andb].
    change {| ring := repeat [] n; size := 0; idx := 0 |} with (ringInit n).
    destruct (ring_after_lines rx n lines Hn) as (Hsz & _ & Hr). cbn zeta in *.
    rewrite Hr, Hsz, Nat.min_l by exact Hm.
    unfold lastn. rewrite Nat.sub_diag. reflexivity.
Qed.

Lemma selections_agree_when_few_witness :
  printFirstNFiltered (Some fiveLines) filterX 3 false = ([lit "xb"; lit "xd"], 2%Z, None)
  /\ printLastNFiltered (fun _ => true) (Some fiveLines) filterX 3 false =
       Some ([lit "xb"; lit "xd"], 2, None).
Proof.
  exact (selections_agree_when_few (fun _ => true) fiveLines filterX 3 false
           [lit "a"; lit "xb"; lit "c"; lit "xd"; lit "e"] eq_refl
           (le_S 1 2 (le_S 1 1 (le_n 1))) eq_refl (le_S 2 2 (le_n 2))).
Defined.

(** ** Round trips and the YAML key *)

Lemma flat_map_emit_raw (ls : list bytes) : flat_map (emit None false) ls = ls.
Proof. induction ls as [|l ls IH]; [reflexivity|]. cbn [flat_map]. now rewrite IH. Qed.

Lemma splitLines_lines_noNL (d cur : bytes) :
  noNL cur -> Forall noNL (fst (splitLines cur d)).
Proof.
  revert cur. induction d as [|c d IH]; intros cur H; cbn [splitLines].
  - constructor.
  - destruct (Ascii.eqb c NL) eqn:E.
    + specialize (IH [] noNL_nil). destruct (splitLines [] d) as [ls r].
      cbn [fst] in *. now constructor.
    + apply IH. apply noNL_app; [exact H|]. unfold noNL. cbn. now rewrite E.
Qed.

Lemma completeLines_noNL (d : bytes) : Forall noNL (completeLines d).
Proof. apply splitLines_lines_noNL, noNL_nil. Qed.

(** X22.  Nothing is lost and nothing is invented by a drain: over a
    file that nothing touches, without filter and coloring, the lines it
    prints, each followed by a line feed, and then the [carry] it keeps,
    are the [carry] it started with followed by the bytes of the file
    from [offset] on; and no printed line holds a line feed. *)
Theorem drain_round_trip (d : bytes) (p : nat) (c : bytes) (st' : FollowState)
        (lines : list bytes) (how : status) :
  p <= length d ->
  readNew None false (onDisk d) {| offset := Z.of_nat p; carry := c |} =
    Some (st', lines, how) ->
  concat (map (fun l => l ++ [NL]) lines) ++ carry st' = c ++ skipn p d
  /\ Forall noNL lines.
Proof.
  intros Hp. rewrite (readNew_onDisk None false d p c Hp).
  destruct (p =? length d) eqn:E; intros H; inversion H; subst; cbn [carry].
  - apply Nat.eqb_eq in E. rewrite E, skipn_all, app_nil_r. split; [reflexivity|constructor].
  - rewrite flat_map_emit_raw. split; [apply completeLines_join|apply completeLines_noNL].
Qed.

Lemma drain_round_trip_witness :
  concat (map (fun l => l ++ [NL]) [lit "ab"; lit "c"]) ++ lit "d" =
    lit "a" ++ skipn 2 (lit "xyb" ++ [NL] ++ lit "c" ++ [NL] ++ lit "d")
  /\ Forall noNL [lit "ab"; lit "c"].
Proof.
  refine (drain_round_trip (lit "xyb" ++ [NL] ++ lit "c" ++ [NL] ++ lit "d") 2 (lit "a")
            {| offset := 7; carry := lit "d" |} [lit "ab"; lit "c"] Drained _ eq_refl).
  cbn. lia.
Defined.

(** The matcher records the groups of the match it finds. *)
Lemma step_captures (s : bytes) (A : Type) (r : regex) :
  forall (i : nat) (caps : captures) (k : nat -> captures -> option A) (res : A),
    step s r i caps k = Some res ->
    exists j c, MatchesCap s r i j c /\ k j (c ++ caps) = Some res.
Proof.
  induction r as [|p|r1 IH1 r2 IH2|r1 IH1 r2 IH2|r1 IH1| | |n r1 IH1];
    intros i caps k res H; cbn [step] in H.
  - exists i, []. split; [constructor|exact H].
  - destruct (nth_error s i) as [c|] eqn:E; [|discriminate].
    destruct (p c) eqn:Ep; [|discriminate].
    exists (S i), []. split; [eapply CClass; eauto|exact H].
  - apply IH1 in H. destruct H as (j & c & M1 & H).
    apply IH2 in H. destruct H as (j' & c' & M2 & H).
    exists j', (c' ++ c). split; [eapply CCat; eauto|now rewrite <- app_assoc].
  - destruct (step s r1 i caps k) as [a|] eqn:E.
    + inversion H; subst a. apply IH1 in E. destruct E as (j & c & M & E).
      exists j, c. split; [now apply CAltL|exact E].
    + apply IH2 in H. destruct H as (j & c & M & H).
      exists j, c. split; [now apply CAltR|exact H].
  - revert H. generalize (S (length s - i)) as n. intros n. revert i caps.
    induction n as [|n IHn]; intros i caps H; cbn [starLoop] in H.
    + exists i, []. split; [constructor|exact H].
    + match type of H with
      | match ?X with _ => _ end = _ => destruct X as [a|] eqn:E
      end.
      * inversion H; subst a. apply IH1 in E. destruct E as (j & c & M & E).
        destruct (i <? j); [|discriminate].
        apply IHn in E. destruct E as (j' & c' & M' & E).
        exists j', (c' ++ c). split; [eapply CStarS; eauto|now rewrite <- app_assoc].
      * exists i, []. split; [constructor|exact H].
  - destruct (i =? 0) eqn:E; [|discriminate]. apply Nat.eqb_eq in E. subst i.
    exists 0, []. split; [constructor|exact H].
  - destruct (atWordBoundary s i) eqn:E; [|discriminate].
    exists i, []. split; [now constructor|exact H].
  - apply IH1 in H. destruct H as (j & c & M & H).
    exists j, ((n, (i, j)) :: c). split; [now constructor|exact H].
Qed.

Lemma doExecute_captures (r : regex) (s : bytes) (pos a0 a1 : nat) (c : captures) :
  doExecute (MustCompile r) s pos = Some (a0, a1, c) -> MatchesCap s r a0 a1 c.
Proof.
  cbn [doExecute MustCompile]. destruct (pos <=? length s); [|discriminate].
  intros H. apply search_matchAt in H. unfold matchAt in H.
  apply step_captures in H. destruct H as (j & c' & M & E).
  rewrite app_nil_r in E. now inversion E; subst.
Qed.

Lemma MatchesCap_Matches (s : bytes) (r : regex) (i j : nat) (c : captures) :
  MatchesCap s r i j c -> Matches s r i j.
Proof.
  induction 1;
    [ constructor | eapply MClass; eauto | eapply MCat; eauto | apply MAltL; auto
    | apply MAltR; auto | apply MStarO | eapply MStarS; eauto | constructor
    | constructor; auto | constructor; auto ].
Qed.

Lemma MatchesCap_noCapture (s : bytes) (r : regex) (i j : nat) (c : captures) :
  MatchesCap s r i j c -> noCapture r -> c = [].
Proof.
  induction 1; cbn [noCapture]; intros N; try reflexivity; try tauto.
  - destruct N as [N1 N2]. now rewrite IHMatchesCap1, IHMatchesCap2.
  - now rewrite IHMatchesCap1, IHMatchesCap2.
Qed.

Lemma MatchesCap_Cat_inv (s : bytes) (r1 r2 : regex) (i k : nat) (c : captures) :
  MatchesCap s (Cat r1 r2) i k c ->
  exists j c1 c2, MatchesCap s r1 i j c1 /\ MatchesCap s r2 j k c2 /\ c = c2 ++ c1.
Proof. intros H. inversion H; subst. eauto 6. Qed.

Lemma MatchesCap_Capture_inv (s : bytes) (n : nat) (r : regex) (i j : nat) (c : captures) :
  MatchesCap s (Capture n r) i j c ->
  exists c', MatchesCap s r i j c' /\ c = (n, (i, j)) :: c'.
Proof. intros H. inversion H; subst. eauto. Qed.

(** An anchored pattern matches at the start of the text only. *)
Lemma anchored_later (r : regex) (s : bytes) (pos : nat) :
  1 <= pos -> doExecute (MustCompile (Cat BeginText r)) s pos = None.
Proof.
  intros Hp. cbn [doExecute MustCompile]. destruct (pos <=? length s); [|reflexivity].
  generalize (length s - pos) as n. intros n. revert pos Hp.
  induction n as [|n IH]; intros pos Hp; cbn [search matchAt step];
    destruct pos as [|pos]; try lia; cbn [Nat.eqb]; [reflexivity|].
  apply IH. lia.
Qed.

(** What the YAML key replacement does to a segment. *)
Lemma reYAMLKey_replace (seg : bytes) :
  (MatchString reYAMLKey seg = false -> ReplaceAllString reYAMLKey seg yamlTemplate = seg)
  /\ (MatchString reYAMLKey seg = true ->
      exists indent key blanks rest,
        seg = indent ++ key ++ blanks ++ lit ":" ++ rest
        /\ forallb isSpace indent = true
        /\ forallb isYAMLKeyByte key = true /\ key <> []
        /\ forallb isSpace blanks = true
        /\ ReplaceAllString reYAMLKey seg yamlTemplate =
             indent ++ ansiBlue ++ key ++ ansiReset ++ lit ":" ++ rest).
Proof.
  unfold MatchString, ReplaceAllString.
  replace (length seg + 2) with (S (S (length seg))) by lia.
  split.
  - destruct (doExecute reYAMLKey seg 0) as [m|] eqn:E; [discriminate|]. intros _.
    cbn [replaceAll Nat.leb]. now rewrite E.
  - destruct (doExecute reYAMLKey seg 0) as [[[a0 a1] c]|] eqn:E; [|discriminate]. intros _.
    pose proof (MustCompile_ok _ _ _ _ _ _ E) as (_ & _ & Hlen).
    pose proof (doExecute_captures _ _ _ _ _ _ E) as M. cbn [Seq] in M.
    apply MatchesCap_Cat_inv in M. destruct M as (i0 & c0 & cr0 & M0 & M & ->).
    inversion M0; subst.
    apply MatchesCap_Cat_inv in M. destruct M as (j1 & c1 & cr1 & M1 & M & ->).
    apply MatchesCap_Capture_inv in M1. destruct M1 as (c1' & M1 & ->).
    apply MatchesCap_Cat_inv in M. destruct M as (j2 & c2 & cr2 & M2 & M & ->).
    apply MatchesCap_Capture_inv in M2. destruct M2 as (c2' & M2 & ->).
    apply MatchesCap_Cat_inv in M. destruct M as (j3 & c3 & c4 & M3 & M4 & ->).
    rewrite (MatchesCap_noCapture _ _ _ _ _ M1 I) in *.
    rewrite (MatchesCap_noCapture _ _ _ _ _ M2 (conj I I)) in *.
    rewrite (MatchesCap_noCapture _ _ _ _ _ M3 I) in *.
    rewrite (MatchesCap_noCapture _ _ _ _ _ M4 I) in *.
    cbn [app] in E.
    apply MatchesCap_Matches in M1, M2, M3, M4.
    apply Matches_Class_inv in M4. destruct M4 as (-> & q & Hq & Eq).
    apply Ascii.eqb_eq in Eq. subst q.
    destruct (Matches_chars seg isSpace _ _ _ M1 (fun c0 Hc0 => Hc0)) as [L1 C1].
    destruct (Matches_chars seg isYAMLKeyByte _ _ _ M2
                (conj (fun c0 Hc0 => Hc0) (fun c0 Hc0 => Hc0))) as [_ C2].
    pose proof (Matches_minLen _ _ _ _ M2) as L2. cbn [minLen Plus] in L2.
    destruct (Matches_chars seg isSpace _ _ _ M3 (fun c0 Hc0 => Hc0)) as [L3 C3].
    exists (slice seg 0 j1), (slice seg j1 j2), (slice seg j2 j3), (skipn (S j3) seg).
    split; [|split; [|split; [|split; [|split]]]].
    + change (lit ":") with [":"%char]. rewrite <- (slice_one _ _ _ Hq).
      rewrite !slice_skipn by lia. reflexivity.
    + apply slice_forallb, C1.
    + apply slice_forallb, C2.
    + apply slice_nonempty; lia.
    + apply slice_forallb, C3.
    + cbn [replaceAll Nat.leb]. rewrite E.
      set (sp := if S j3 <? 0 + runeWidth (skipn 0 seg) then 0 + runeWidth (skipn 0 seg)
                 else if S j3 <? 0 + 1 then 0 + 1 else S j3).
      assert (Hsp : 1 <= sp).
      { unfold sp. destruct (S j3 <? 0 + runeWidth (skipn 0 seg)) eqn:E1.
        - apply Nat.ltb_lt in E1. lia.
        - destruct (S j3 <? 0 + 1); lia. }
      assert (A : doExecute reYAMLKey seg sp = None).
      { unfold reYAMLKey. cbn [Seq]. apply anchored_later, Hsp. }
      change ((0 <? S j3) || (0 =? 0)) with true. cbv iota.
      rewrite slice_empty.
      destruct (sp <=? length seg); [rewrite A|];
        unfold yamlTemplate, expand; cbn [map concat lookupCap Nat.eqb app];
        rewrite app_nil_r; now rewrite <- !app_assoc.
Qed.

(** X23.  The YAML key pass of [colorizeStructured], the second of its
    three passes: a segment that does not start with a key is left as it
    is; in one that does, the key is put between [ansiBlue] and
    [ansiReset], the indentation before it and the text after the colon
    are kept, and the blanks between the key and the colon are dropped. *)
Theorem yaml_key_is_colored (seg : bytes) :
  colorizeStructured seg true =
    Replace punctuation
      (ReplaceAllString reYAMLKey (ReplaceAllStringFunc reJSONKey seg colorJSONKey)
                        yamlTemplate)
  /\ (MatchString reYAMLKey seg = false ->
      ReplaceAllString reYAMLKey seg yamlTemplate = seg)
  /\ (MatchString reYAMLKey seg = true ->
      exists indent key blanks rest,
        seg = indent ++ key ++ blanks ++ lit ":" ++ rest
        /\ forallb isSpace indent = true
        /\ forallb isYAMLKeyByte key = true /\ key <> []
        /\ forallb isSpace blanks = true
        /\ ReplaceAllString reYAMLKey seg yamlTemplate =
             indent ++ ansiBlue ++ key ++ ansiReset ++ lit ":" ++ rest).
Proof. split; [reflexivity|exact (reYAMLKey_replace seg)]. Qed.

Lemma yaml_key_is_colored_witness :
  exists indent key blanks rest,
    lit "  name  : x" = indent ++ key ++ blanks ++ lit ":" ++ rest
    /\ forallb isSpace indent = true
    /\ forallb isYAMLKeyByte key = true /\ key <> []
    /\ forallb isSpace blanks = true
    /\ ReplaceAllString reYAMLKey (lit "  name  : x") yamlTemplate =
         indent ++ ansiBlue ++ key ++ ansiReset ++ lit ":" ++ rest.
Proof.
  exact (proj2 (proj2 (yaml_key_is_colored (lit "  name  : x"))) eq_refl).
Defined.

(** ** The punctuation pass *)

Lemma firstPair_plain (c : ascii) (s : bytes) :
  startsPunct c = false -> firstPair punctuation (c :: s) = None.
Proof.
  unfold startsPunct. cbn [existsb lit list_ascii_of_string]. intros H.
  apply orb_false_iff in H. destruct H as [H1 H].
  apply orb_false_iff in H. destruct H as [H2 H].
  apply orb_false_iff in H. destruct H as [H3 H].
  apply orb_false_iff in H. destruct H as [H4 H].
  apply orb_false_iff in H. destruct H as [H5 H].
  apply orb_false_iff in H. destruct H as [H6 _].
  unfold punctuation. cbn [firstPair hasPrefix lit list_ascii_of_string].
  now rewrite H1, H2, H3, H4, H5, H6.
Qed.

Lemma Replace_plain_cons (c : ascii) (s : bytes) :
  startsPunct c = false -> Replace punctuation (c :: s) = c :: Replace punctuation s.
Proof.
  intros H. unfold Replace. cbn [length replacerFrom]. now rewrite (firstPair_plain c s H).
Qed.

(** Text without punctuation goes through the pass as it is. *)
Lemma Replace_plain_app (l s : bytes) :
  forallb (fun c => negb (startsPunct c)) l = true ->
  Replace punctuation (l ++ s) = l ++ Replace punctuation s.
Proof.
  induction l as [|c l IH]; cbn [forallb app]; intros H; [reflexivity|].
  apply andb_true_iff in H. destruct H as [Hc H]. apply negb_true_iff in Hc.
  now rewrite (Replace_plain_cons c _ Hc), IH.
Qed.

Lemma space_plain (c : ascii) : isSpace c = true -> negb (startsPunct c) = true.
Proof. revert c. apply implb_all. vm_compute. reflexivity. Qed.

Lemma key_plain (c : ascii) : isYAMLKeyByte c = true -> negb (startsPunct c) = true.
Proof. revert c. apply implb_all. vm_compute. reflexivity. Qed.

Lemma forallb_impl (P Q : ascii -> bool) (l : bytes) :
  (forall c, P c = true -> Q c = true) -> forallb P l = true -> forallb Q l = true.
Proof.
  intros HPQ. induction l as [|c l IH]; cbn [forallb]; [auto|].
  intros H. apply andb_true_iff in H. destruct H as [Hc H].
  now rewrite (HPQ c Hc), IH.
Qed.

(** The pass rewrites the bracket of a color code. *)
Lemma Replace_marker (m t : bytes) :
  In m markers ->
  Replace punctuation (m ++ t) =
    [ESC] ++ (ansiDim ++ lit "[" ++ ansiReset) ++ skipn 2 m ++ Replace punctuation t.
Proof.
  cbn [markers In]. intros H.
  destruct H as [<-|[<-|[<-|[<-|[<-|[<-|[<-|[<-|[<-|[]]]]]]]]]]; reflexivity.
Qed.

(** A pattern that starts with a byte the text does not hold matches
    nowhere. *)
Lemma search_first_class (s : bytes) (p : ascii -> bool) (r : regex) :
  (forall c, In c s -> p c = false) ->
  forall n i, search s (Cat (Class p) r) n i = None.
Proof.
  intros H.
  assert (M : forall i, matchAt s (Cat (Class p) r) i = None).
  { intros i. unfold matchAt. cbn [step].
    destruct (nth_error s i) as [c|] eqn:E; [|reflexivity].
    now rewrite (H c (nth_error_In _ _ E)). }
  induction n as [|n IH]; intros i; cbn [search]; rewrite M; [reflexivity|apply IH].
Qed.

Lemma reJSONKey_no_quote (seg : bytes) (f : bytes -> bytes) :
  ~ In DQUOTE seg -> ReplaceAllStringFunc reJSONKey seg f = seg.
Proof.
  intros H. unfold ReplaceAllStringFunc.
  replace (length seg + 2) with (S (S (length seg))) by lia.
  cbn [replaceAll Nat.leb].
  assert (E : doExecute reJSONKey seg 0 = None).
  { unfold reJSONKey. cbn [Seq doExecute MustCompile Nat.leb]. apply search_first_class.
    intros c Hc. unfold Chr, isByte. apply Ascii.eqb_neq. intros <-. contradiction. }
  now rewrite E.
Qed.

(** X24.  The punctuation pass of [colorizeStructured] runs over the
    color codes the two passes before it have put in, and rewrites the
    bracket of each: a code followed by a text comes out with its escape
    byte, then the dimmed bracket, then the rest of the code.  Hence in
    every segment without double quote that starts with a YAML key, the
    two codes around the key are broken up in the output. *)
Theorem punctuation_rewrites_color_codes :
  (forall m t : bytes,
     In m markers ->
     Replace punctuation (m ++ t) =
       [ESC] ++ (ansiDim ++ lit "[" ++ ansiReset) ++ skipn 2 m ++ Replace punctuation t)
  /\ (forall seg : bytes,
        count_occ ascii_dec seg DQUOTE = 0 ->
        MatchString reYAMLKey seg = true ->
        exists indent key blanks rest,
          seg = indent ++ key ++ blanks ++ lit ":" ++ rest
          /\ colorizeStructured seg true =
               indent
               ++ ([ESC] ++ (ansiDim ++ lit "[" ++ ansiReset) ++ lit "34m")
               ++ key
               ++ ([ESC] ++ (ansiDim ++ lit "[" ++ ansiReset) ++ lit "0m")
               ++ Replace punctuation (lit ":" ++ rest)).
Proof.
  split; [exact Replace_marker|].
  intros seg Hq Hy. apply count_occ_not_In in Hq.
  destruct (proj2 (reYAMLKey_replace seg) Hy)
    as (indent & key & blanks & rest & Hs & Hi & Hk & _ & _ & Hr).
  exists indent, key, blanks, rest. split; [exact Hs|].
  unfold colorizeStructured. cbn [negb].
  rewrite (reJSONKey_no_quote seg colorJSONKey Hq).
  change [TSub 1; TLit ansiBlue; TSub 2; TLit ansiReset; TLit (lit ":")] with yamlTemplate.
  rewrite Hr.
  rewrite Replace_plain_app by (apply (forallb_impl _ _ _ space_plain), Hi).
  rewrite (Replace_marker ansiBlue) by (cbn; tauto).
  rewrite <- !app_assoc.
  rewrite Replace_plain_app by (apply (forallb_impl _ _ _ key_plain), Hk).
  rewrite (Replace_marker ansiReset) by (cbn; tauto).
  now rewrite <- !app_assoc.
Qed.

Lemma punctuation_rewrites_color_codes_witness :
  Replace punctuation (ansiGreen ++ lit "id") =
    [ESC] ++ (ansiDim ++ lit "[" ++ ansiReset) ++ lit "32mid"
  /\ exists indent key blanks rest,
       lit "a :1" = indent ++ key ++ blanks ++ lit ":" ++ rest
       /\ colorizeStructured (lit "a :1") true =
            indent
            ++ ([ESC] ++ (ansiDim ++ lit "[" ++ ansiReset) ++ lit "34m")
            ++ key
            ++ ([ESC] ++ (ansiDim ++ lit "[" ++ ansiReset) ++ lit "0m")
            ++ Replace punctuation (lit ":" ++ rest).
Proof.
  split.
  - exact (proj1 punctuation_rewrites_color_codes ansiGreen (lit "id")
             (or_intror (or_intror (or_intror (or_intror (or_introl eq_refl)))))).
  - exact (proj2 punctuation_rewrites_color_codes (lit "a :1") eq_refl eq_refl).
Defined.

(** ** Counts after the file, and the leftmost match *)

Lemma clean_empties (o : list bytes) : clean (o ++ [[]] ++ [[]; []]) = clean o.
Proof. unfold clean. rewrite filter_app. cbn. apply app_nil_r. Qed.

Section ExclusionFacts.
Variable Compile : bytes -> option Regexp.
Variable env : Env.
Variables version buildDate : bytes.
Variable fsOf : bytes -> FS.
Variable grant : nat -> bool.

(** X25.  The mutual exclusion of the two counts sees the counts given
    after the file: when the command line closes with a first-N count
    and a last-N count, both positive, and names a file, [main] ends with
    the fatal error of the exclusion, whatever comes before them and
    whatever the file is. *)
Theorem counts_after_file_exclude (fl : Flags) (pre : list bytes) (s1 s2 : bytes)
        (v1 v2 : Z) :
  versionFlag fl = false ->
  Atoi s1 = Some v1 -> Atoi s2 = Some v2 -> (0 < v1)%Z -> (0 < v2)%Z ->
  filePathPtr fl <> [] \/ clean (fst (sweep pre fl)) <> [] ->
  mainArgs Compile env version buildDate fsOf grant fl
           (pre ++ [lit "-ns=" ++ s1; lit "-ne"; s2]) =
    Fatal "Use either -ns or -ne, not both".
Proof.
  intros Hv H1 H2 P1 P2 Hfile. unfold mainArgs. rewrite Hv.
  change (pre ++ [lit "-ns=" ++ s1; lit "-ne"; s2])
    with (pre ++ [lit "-ns=" ++ s1] ++ [lit "-ne"; s2]).
  rewrite app_assoc, sweep_app by reflexivity.
  rewrite sweep_app by reflexivity.
  destruct (sweep_flags pre fl) as (_ & _ & Hf & _). cbn zeta in Hf.
  destruct (sweep pre fl) as [o1 f1]. cbn [fst snd] in *.
  destruct (sweep_one_assign s1 v1 f1 H1) as (E1 & _).
  destruct (sweep_one_assign s2 v2 (setNs f1 v1) H2) as (_ & _ & _ & E2).
  rewrite E1, E2, <- app_assoc, clean_empties.
  assert (R : exists file pattern,
             resolve (setNe (setNs f1 v1) v2) (clean o1) = Some (file, pattern)).
  { unfold resolve. cbn [setNe setNs filePathPtr filterPtr]. rewrite Hf.
    destruct (filePathPtr fl) as [|c p].
    - destruct Hfile as [Hfile|Hfile]; [congruence|].
      destruct (clean o1) as [|a rest]; [congruence|]. eauto.
    - eauto. }
  destruct R as (file & pattern & R). rewrite R.
  unfold main. cbn [setNe setNs nsPtr nePtr].
  apply Z.gtb_lt in P1, P2. now rewrite P1, P2.
Qed.

End ExclusionFacts.

Lemma counts_after_file_exclude_witness :
  mainArgs (fun _ => None) {| Getenv := fun _ => []; StdoutMode := None |} [] []
           (fun _ => {| Stat := None; IsDir := false; Open := None |}) (fun _ => true)
           {| versionFlag := false; filePathPtr := []; filterPtr := [];
              tailPtr := false; nsPtr := 0; nePtr := 0 |}
           [lit "app.log"; lit "-ns=3"; lit "-ne"; lit "4"] =
    Fatal "Use either -ns or -ne, not both".
Proof.
  refine (counts_after_file_exclude (fun _ => None)
            {| Getenv := fun _ => []; StdoutMode := None |} [] []
            (fun _ => {| Stat := None; IsDir := false; Open := None |}) (fun _ => true)
            {| versionFlag := false; filePathPtr := []; filterPtr := [];
               tailPtr := false; nsPtr := 0; nePtr := 0 |}
            [lit "app.log"] (lit "3") (lit "4") 3 4 eq_refl eq_refl eq_refl eq_refl eq_refl _).
  right. discriminate.
Defined.

(** X26.  A line the filter selects shows its leftmost match: with
    colors on, the rendered line is the generic coloring of what precedes
    the leftmost match, then that match between the match color and the
    reset code, then the rest. *)
Theorem leftmost_match_highlighted (re : Regexp) (raw : bytes) (a0 a1 : nat)
        (c : captures) :
  exec_ok re ->
  doExecute re raw 0 = Some (a0, a1, c) ->
  selected (Some re) raw = true
  /\ exists post,
       renderLine raw (Some re) true =
         colorizeGeneric (slice raw 0 a0) true
         ++ ansiCyan ++ slice raw a0 a1 ++ ansiReset ++ post.
Proof.
  intros Hok H. split.
  - cbn [selected]. unfold MatchString. now rewrite H.
  - rewrite (renderLine_segments re raw Hok). unfold FindAllStringIndex.
    replace (length raw + 2) with (S (S (length raw))) by lia.
    cbn [allMatches Nat.leb]. rewrite H. rewrite andb_false_r. cbn [negb].
    cbn [segments]. rewrite map_app, concat_app. cbn [map concat renderSegment].
    eexists. rewrite <- !app_assoc. f_equal.
    destruct (slice raw 0 a0) as [|x t] eqn:E; [reflexivity|].
    apply plain_render. discriminate.
Qed.

Lemma leftmost_match_highlighted_witness :
  exists post,
    renderLine (lit "warn: disk") (Some (MustCompile (Str "disk"))) true =
      colorizeGeneric (lit "warn: ") true ++ ansiCyan ++ lit "disk" ++ ansiReset ++ post.
Proof.
  exact (proj2 (leftmost_match_highlighted (MustCompile (Str "disk")) (lit "warn: disk")
                  6 10 [] (MustCompile_ok _) eq_refl)).
Defined.

(** ** The whole run *)




